(** * Asteroid Dodge: the simulation core of [game.js]

    A shallow embedding of the game's update logic: the utility helpers,
    [ScoreManager], [Ship], [Asteroid], [Particle] and the [Game] methods
    [startGame], [showTitle], [triggerGameOver], [update], [updatePlaying],
    [updateSurge] and [updateGameOver], the key listeners and the elapsed
    time of [loop].  Drawing and the stars are left out: nothing below
    depends on them.

    Modelling conventions.
    - A JavaScript number is a real number of [R]: arithmetic is exact, there
      is no rounding, no [NaN] and no infinity.  [Math.sqrt], [Math.cos],
      [Math.sin], [Math.floor] and [Math.atan2] are the functions of the same
      name on [R].  Counts that bound a loop or a slice are natural numbers.
    - [Math.random()] reads the next value of a sequence of draws carried by
      the world; properties that need it assume every draw lies in [[0, 1)].
    - [localStorage] is part of the world too: one item (the game uses one
      key), which may be unreadable or unwritable.  A stored text is known by
      what [JSON.parse] makes of it.
    - A method that mutates [this] is a function from the object to the
      updated object; code that draws or uses the store runs in the monad
      [M].  When a method throws, what it had already assigned is dropped
      with the object.
    - [keys] maps the name of a key to whether it is held; a name that was
      never pressed maps to [false], as [undefined] is falsy. *)

From Stdlib Require Import Reals Lra Lia List String ZArith Bool.
From Stdlib Require Import Permutation Sorted.
Import ListNotations.
Local Open Scope string_scope.
Local Open Scope list_scope.
Local Open Scope R_scope.

(** ** CONFIG *)

Record Config : Type := {
  canvasWidth : R;
  canvasHeight : R;
  shipSpeed : R;
  shipSize : R;
  asteroidBaseSpeed : R;
  asteroidSpeedVariance : R;
  asteroidMinSize : R;
  asteroidMaxSize : R;
  asteroidSpawnInterval : R;
  asteroidBatchSize : nat;
  asteroidAngleSpread : R;
  asteroidVertices : R * R;
  asteroidRotationSpeed : R;
  surgeInterval : R * R;
  surgeDuration : R * R;
  surgeMultiplier : R;
  starCount : nat;
  explosionParticleCount : nat;
  screenShakeDuration : R;
  screenShakeIntensity : R;
  maxScoresSaved : nat
}.

(** The values of the [CONFIG] object literal. *)
Definition CONFIG : Config := {|
  canvasWidth := 600;
  canvasHeight := 600;
  shipSpeed := 340;
  shipSize := 4;
  asteroidBaseSpeed := 155;
  asteroidSpeedVariance := 90;
  asteroidMinSize := 4;
  asteroidMaxSize := 14;
  asteroidSpawnInterval := 200;
  asteroidBatchSize := 3;
  asteroidAngleSpread := 1.3;
  asteroidVertices := (5, 8);
  asteroidRotationSpeed := 3;
  surgeInterval := (5000, 10000);
  surgeDuration := (1500, 2500);
  surgeMultiplier := 1.5;
  starCount := 80;
  explosionParticleCount := 30;
  screenShakeDuration := 400;
  screenShakeIntensity := 8;
  maxScoresSaved := 10
|}.

(** ** Comparisons of numbers as booleans *)

Definition ltb (a b : R) : bool := if Rlt_dec a b then true else false.
Definition gtb (a b : R) : bool := ltb b a.

(** ** The world outside the program: random draws and [localStorage] *)

(** What a JavaScript exception carries is irrelevant here; its kind is kept. *)
Inductive exn : Type :=
| TypeError
| SyntaxError
| SecurityError
| QuotaExceededError.

(** The result of running a piece of code: it returns, it throws, or it goes
    on with a field that was never assigned ([undefined], then [NaN]), which
    real arithmetic cannot follow. *)
Inductive outcome (A : Type) : Type :=
| Returns (a : A)
| Throws (e : exn)
| Unassigned.
Arguments Returns {A} a.
Arguments Throws {A} e.
Arguments Unassigned {A}.

(** A value that [JSON.parse] can produce.  Arrays are arrays of numbers, the
    only ones [JSON.stringify] is ever given by this program; the content of
    an object is not looked at. *)
Inductive js_value : Type :=
| VNull
| VBool (b : bool)
| VNumber (r : R)
| VString (s : string)
| VArray (l : list R)
| VObject.

(** A stored string, told apart by what [JSON.parse] makes of it. *)
Inductive Text : Type :=
| EmptyText
| Unparsable
| Parsable (v : js_value).

Record LocalStorage : Type := {
  readable : bool;
  writable : bool;
  item : option Text
}.

Record Rng : Type := { draws : nat -> R; pos : nat }.

Record World : Type := { rng : Rng; localStorage : LocalStorage }.

Definition M (A : Type) : Type := World -> outcome (A * World).

Definition ret {A : Type} (a : A) : M A := fun w => Returns (a, w).

Definition bind {A B : Type} (m : M A) (k : A -> M B) : M B :=
  fun w =>
    match m w with
    | Returns (a, w') => k a w'
    | Throws e => Throws e
    | Unassigned => Unassigned
    end.

Notation "x <- m ;; k" := (bind m (fun x => k))
  (at level 61, m at next level, right associativity).

Definition unassigned {A : Type} : M A := fun _ => Unassigned.

(** [for (let i = 0; i < n; i++) acc.push(new_item())] *)
Fixpoint push_times {A : Type} (n : nat) (new_item : M A) (acc : list A)
  : M (list A) :=
  match n with
  | O => ret acc
  | S n' => a <- new_item ;; push_times n' new_item (acc ++ [a])
  end.

Definition Math_random : M R :=
  fun w =>
    let g := rng w in
    Returns (draws g (pos g),
             {| rng := {| draws := draws g; pos := S (pos g) |};
                localStorage := localStorage w |}).

Definition Math_floor (r : R) : Z := Int_part r.

Definition Math_atan2 (y x : R) : R :=
  if Rlt_dec 0 x then atan (y / x)
  else if Rlt_dec x 0 then
         if Rle_dec 0 y then atan (y / x) + PI else atan (y / x) - PI
       else if Rlt_dec 0 y then PI / 2
            else if Rlt_dec y 0 then - (PI / 2) else 0.

(** ** Utility helpers *)

Definition rand (min max : R) : M R :=
  u <- Math_random ;; ret (u * (max - min) + min).

Definition randInt (min max : R) : M Z :=
  r <- rand min (max + 1) ;; ret (Math_floor r).

Definition dist (x1 y1 x2 y2 : R) : R :=
  let dx := x1 - x2 in
  let dy := y1 - y2 in
  sqrt (dx * dx + dy * dy).

Definition clamp (val min max : R) : R := Rmax min (Rmin max val).

(** ** Score persistence *)

Module ScoreManager.

Definition getItem (ls : LocalStorage) : outcome (option Text) :=
  if readable ls then Returns (item ls) else Throws SecurityError.

Definition setItem (ls : LocalStorage) (value : Text) : outcome LocalStorage :=
  if writable ls
  then Returns {| readable := readable ls; writable := writable ls;
                  item := Some value |}
  else Throws QuotaExceededError.

Definition JSON_parse (raw : Text) : outcome js_value :=
  match raw with
  | Parsable v => Returns v
  | EmptyText | Unparsable => Throws SyntaxError
  end.

Definition JSON_stringify (scores : list R) : Text := Parsable (VArray scores).

(** [raw ? ... : ...] on a string: the empty string is falsy. *)
Definition truthy (raw : Text) : bool :=
  match raw with
  | EmptyText => false
  | _ => true
  end.

(** The [try] block returns, or the [catch] block returns [[]]; [getItem]
    gives [null] (falsy) when the key is absent. *)
Definition _load (ls : LocalStorage) : js_value :=
  match getItem ls with
  | Returns (Some raw) =>
      if truthy raw then
        match JSON_parse raw with
        | Returns v => v
        | _ => VArray []
        end
      else VArray []
  | Returns None => VArray []
  | _ => VArray []
  end.

Definition _save (scores : list R) (ls : LocalStorage) : LocalStorage :=
  match setItem ls (JSON_stringify scores) with
  | Returns ls' => ls'
  | _ => ls
  end.

(** [arr.sort((a, b) => b - a)]: the stable sort of [arr] under the
    comparator, highest first; of two equal numbers the one that came first
    stays first. *)
Fixpoint insert_desc (v : R) (sorted : list R) : list R :=
  match sorted with
  | [] => [v]
  | h :: t => if Rle_dec h v then v :: h :: t else h :: insert_desc v t
  end.

Definition sort_desc (arr : list R) : list R :=
  fold_right insert_desc [] arr.

(** [v.sort(...)] and [v.push(...)] exist on arrays only. *)
Definition as_array (v : js_value) : outcome (list R) :=
  match v with
  | VArray l => Returns l
  | _ => Throws TypeError
  end.

Definition getScores (ls : LocalStorage) : outcome (list R) :=
  match as_array (_load ls) with
  | Returns l => Returns (sort_desc l)
  | Throws e => Throws e
  | Unassigned => Unassigned
  end.

Definition getBest (ls : LocalStorage) : outcome R :=
  match getScores ls with
  | Returns scores =>
      Returns (match scores with s0 :: _ => s0 | [] => 0 end)
  | Throws e => Throws e
  | Unassigned => Unassigned
  end.

Definition addScore (cfg : Config) (score : R) (ls : LocalStorage)
  : outcome LocalStorage :=
  match as_array (_load ls) with
  | Returns l =>
      let scores := sort_desc (l ++ [score]) in
      Returns (_save (firstn (maxScoresSaved cfg) scores) ls)
  | Throws e => Throws e
  | Unassigned => Unassigned
  end.

End ScoreManager.

(** ** Ship *)

Module Ship.

Record t : Type := { x : R; y : R; size : R }.

Definition new (cfg : Config) (x0 y0 : R) : t :=
  {| x := x0; y := y0; size := shipSize cfg |}.

(** The movement vector of [update], after normalisation. *)
Definition direction (keys : string -> bool) : R * R :=
  let dx := 0 in
  let dy := 0 in
  let dx := if keys "ArrowLeft" || keys "a" then dx - 1 else dx in
  let dx := if keys "ArrowRight" || keys "d" then dx + 1 else dx in
  let dy := if keys "ArrowUp" || keys "w" then dy - 1 else dy in
  let dy := if keys "ArrowDown" || keys "s" then dy + 1 else dy in
  let len := sqrt (dx * dx + dy * dy) in
  if Rlt_dec 0 len then (dx / len, dy / len) else (dx, dy).

(** The position of [update] before it is clamped. *)
Definition moved (cfg : Config) (dt : R) (keys : string -> bool) (this : t)
  : R * R :=
  let (dx, dy) := direction keys in
  (x this + dx * shipSpeed cfg * dt, y this + dy * shipSpeed cfg * dt).

Definition update (cfg : Config) (dt : R) (keys : string -> bool) (this : t)
  : t :=
  let (x1, y1) := moved cfg dt keys this in
  {| x := clamp x1 (size this) (canvasWidth cfg - size this);
     y := clamp y1 (size this) (canvasHeight cfg - size this);
     size := size this |}.

End Ship.

(** ** Asteroid *)

Module Asteroid.

Record vertex : Type := { angle : R; r : R }.

Record t : Type := {
  size : R;
  rotation : R;
  rotationSpeed : R;
  vertices : list vertex;
  x : R;
  y : R;
  baseVx : R;
  baseVy : R;
  vx : R;
  vy : R
}.

(** The loop of the constructor that fills [this.vertices], from index [i],
    with [n] iterations left. *)
Fixpoint build_vertices (size0 : R) (vertCount : Z) (i n : nat)
  (acc : list vertex) : M (list vertex) :=
  match n with
  | O => ret acc
  | S n' =>
      let angle0 := INR i / IZR vertCount * PI * 2 in
      f <- rand 0.7 1.0 ;;
      build_vertices size0 vertCount (S i) n'
        (acc ++ [{| angle := angle0; r := size0 * f |}])
  end.

(** [_spawnFromEdge] completes the object under construction; the fields
    the constructor has set by then come as arguments.  An [edge] outside
    0..3 matches no [case]: position and velocity stay unassigned. *)
Definition _spawnFromEdge (cfg : Config) (size0 rotation0 rotationSpeed0 : R)
  (vertices0 : list vertex) : M t :=
  let W := canvasWidth cfg in
  let H := canvasHeight cfg in
  let margin := size0 + 5 in
  edge <- randInt 0 3 ;;
  placed <-
    match edge with
    | 0%Z =>
        x0 <- rand 0 W ;;
        let y0 := - margin in
        aimX <- rand 0 W ;;
        aimY <- rand (H * 0.3) H ;;
        ret (x0, y0, aimX, aimY)
    | 1%Z =>
        let x0 := W + margin in
        y0 <- rand 0 H ;;
        aimX <- rand 0 (W * 0.7) ;;
        aimY <- rand 0 H ;;
        ret (x0, y0, aimX, aimY)
    | 2%Z =>
        x0 <- rand 0 W ;;
        let y0 := H + margin in
        aimX <- rand 0 W ;;
        aimY <- rand 0 (H * 0.7) ;;
        ret (x0, y0, aimX, aimY)
    | 3%Z =>
        let x0 := - margin in
        y0 <- rand 0 H ;;
        aimX <- rand (W * 0.3) W ;;
        aimY <- rand 0 H ;;
        ret (x0, y0, aimX, aimY)
    | _ => unassigned
    end ;;
  let '(x0, y0, aimX, aimY) := placed in
  let baseAngle := Math_atan2 (aimY - y0) (aimX - x0) in
  spread <- rand (- asteroidAngleSpread cfg / 2) (asteroidAngleSpread cfg / 2) ;;
  let angle0 := baseAngle + spread in
  variance <- rand (- asteroidSpeedVariance cfg) (asteroidSpeedVariance cfg) ;;
  let speed := asteroidBaseSpeed cfg + variance in
  let baseVx0 := cos angle0 * speed in
  let baseVy0 := sin angle0 * speed in
  ret {| size := size0; rotation := rotation0;
         rotationSpeed := rotationSpeed0; vertices := vertices0;
         x := x0; y := y0;
         baseVx := baseVx0; baseVy := baseVy0;
         vx := baseVx0; vy := baseVy0 |}.

Definition new (cfg : Config) : M t :=
  size0 <- rand (asteroidMinSize cfg) (asteroidMaxSize cfg) ;;
  let rotation0 := 0 in
  rotationSpeed0 <-
    rand (- asteroidRotationSpeed cfg) (asteroidRotationSpeed cfg) ;;
  vertCount <-
    randInt (fst (asteroidVertices cfg)) (snd (asteroidVertices cfg)) ;;
  vertices0 <- build_vertices size0 vertCount 0 (Z.to_nat vertCount) [] ;;
  _spawnFromEdge cfg size0 rotation0 rotationSpeed0 vertices0.

Definition update (dt speedMultiplier : R) (this : t) : t :=
  let vx1 := baseVx this * speedMultiplier in
  let vy1 := baseVy this * speedMultiplier in
  {| size := size this;
     rotation := rotation this + rotationSpeed this * dt;
     rotationSpeed := rotationSpeed this;
     vertices := vertices this;
     x := x this + vx1 * dt;
     y := y this + vy1 * dt;
     baseVx := baseVx this;
     baseVy := baseVy this;
     vx := vx1;
     vy := vy1 |}.

Definition isOffScreen (cfg : Config) (this : t) : bool :=
  let margin := size this + 60 in
  ltb (x this) (- margin)
  || gtb (x this) (canvasWidth cfg + margin)
  || ltb (y this) (- margin)
  || gtb (y this) (canvasHeight cfg + margin).

End Asteroid.

(** ** Explosion particle *)

Module Particle.

Record t : Type := {
  x : R;
  y : R;
  vx : R;
  vy : R;
  life : R;
  decay : R;
  size : R;
  color : string
}.

Definition colors : list string :=
  ["#ff4444"; "#ff8844"; "#ffcc22"; "#ffffff"; "#ff6622"; "#ffaa00"].

(** [colors[i]]: an index outside the array reads [undefined]. *)
Definition color_at (i : Z) : M string :=
  match (if Z.ltb i 0 then None else nth_error colors (Z.to_nat i)) with
  | Some c => ret c
  | None => unassigned
  end.

Definition new (x0 y0 : R) : M t :=
  angle <- rand 0 (PI * 2) ;;
  speed <- rand 60 250 ;;
  decay0 <- rand 1.5 3.5 ;;
  size0 <- rand 1.5 4 ;;
  i <- randInt 0 (INR (List.length colors) - 1) ;;
  color0 <- color_at i ;;
  ret {| x := x0; y := y0;
         vx := cos angle * speed; vy := sin angle * speed;
         life := 1.0; decay := decay0; size := size0; color := color0 |}.

Definition update (dt : R) (this : t) : t :=
  {| x := x this + vx this * dt;
     y := y this + vy this * dt;
     vx := vx this * (1 - dt * 2);
     vy := vy this * (1 - dt * 2);
     life := life this - decay this * dt;
     decay := decay this;
     size := size this;
     color := color this |}.

End Particle.

(** ** Main game *)

Module Game.

Inductive State : Type := title | playing | gameover.

(** The fields of a [Game] object that [startGame] and the update phase
    read or write.  [finalScore] and [topScores] are [undefined] until the
    first run has ended. *)
Record t : Type := {
  keys : string -> bool;
  state : State;
  bestScore : R;
  ship : Ship.t;
  asteroids : list Asteroid.t;
  particles : list Particle.t;
  elapsedTime : R;
  spawnTimer : R;
  surgeActive : bool;
  surgeTimer : R;
  surgeDurationTimer : R;
  speedMultiplier : R;
  shakeTimer : R;
  shakeX : R;
  shakeY : R;
  gameOverReady : bool;
  gameOverTimer : R;
  finalScore : option R;
  topScores : option (list R)
}.

(** Assignments [this.f = v]. *)
Definition set_state (v : State) (this : t) : t :=
  {| keys := keys this;
     state := v;
     bestScore := bestScore this;
     ship := ship this;
     asteroids := asteroids this;
     particles := particles this;
     elapsedTime := elapsedTime this;
     spawnTimer := spawnTimer this;
     surgeActive := surgeActive this;
     surgeTimer := surgeTimer this;
     surgeDurationTimer := surgeDurationTimer this;
     speedMultiplier := speedMultiplier this;
     shakeTimer := shakeTimer this;
     shakeX := shakeX this;
     shakeY := shakeY this;
     gameOverReady := gameOverReady this;
     gameOverTimer := gameOverTimer this;
     finalScore := finalScore this;
     topScores := topScores this |}.

Definition set_bestScore (v : R) (this : t) : t :=
  {| keys := keys this;
     state := state this;
     bestScore := v;
     ship := ship this;
     asteroids := asteroids this;
     particles := particles this;
     elapsedTime := elapsedTime this;
     spawnTimer := spawnTimer this;
     surgeActive := surgeActive this;
     surgeTimer := surgeTimer this;
     surgeDurationTimer := surgeDurationTimer this;
     speedMultiplier := speedMultiplier this;
     shakeTimer := shakeTimer this;
     shakeX := shakeX this;
     shakeY := shakeY this;
     gameOverReady := gameOverReady this;
     gameOverTimer := gameOverTimer this;
     finalScore := finalScore this;
     topScores := topScores this |}.

Definition set_ship (v : Ship.t) (this : t) : t :=
  {| keys := keys this;
     state := state this;
     bestScore := bestScore this;
     ship := v;
     asteroids := asteroids this;
     particles := particles this;
     elapsedTime := elapsedTime this;
     spawnTimer := spawnTimer this;
     surgeActive := surgeActive this;
     surgeTimer := surgeTimer this;
     surgeDurationTimer := surgeDurationTimer this;
     speedMultiplier := speedMultiplier this;
     shakeTimer := shakeTimer this;
     shakeX := shakeX this;
     shakeY := shakeY this;
     gameOverReady := gameOverReady this;
     gameOverTimer := gameOverTimer this;
     finalScore := finalScore this;
     topScores := topScores this |}.

Definition set_asteroids (v : list Asteroid.t) (this : t) : t :=
  {| keys := keys this;
     state := state this;
     bestScore := bestScore this;
     ship := ship this;
     asteroids := v;
     particles := particles this;
     elapsedTime := elapsedTime this;
     spawnTimer := spawnTimer this;
     surgeActive := surgeActive this;
     surgeTimer := surgeTimer this;
     surgeDurationTimer := surgeDurationTimer this;
     speedMultiplier := speedMultiplier this;
     shakeTimer := shakeTimer this;
     shakeX := shakeX this;
     shakeY := shakeY this;
     gameOverReady := gameOverReady this;
     gameOverTimer := gameOverTimer this;
     finalScore := finalScore this;
     topScores := topScores this |}.

Definition set_particles (v : list Particle.t) (this : t) : t :=
  {| keys := keys this;
     state := state this;
     bestScore := bestScore this;
     ship := ship this;
     asteroids := asteroids this;
     particles := v;
     elapsedTime := elapsedTime this;
     spawnTimer := spawnTimer this;
     surgeActive := surgeActive this;
     surgeTimer := surgeTimer this;
     surgeDurationTimer := surgeDurationTimer this;
     speedMultiplier := speedMultiplier this;
     shakeTimer := shakeTimer this;
     shakeX := shakeX this;
     shakeY := shakeY this;
     gameOverReady := gameOverReady this;
     gameOverTimer := gameOverTimer this;
     finalScore := finalScore this;
     topScores := topScores this |}.

Definition set_elapsedTime (v : R) (this : t) : t :=
  {| keys := keys this;
     state := state this;
     bestScore := bestScore this;
     ship := ship this;
     asteroids := asteroids this;
     particles := particles this;
     elapsedTime := v;
     spawnTimer := spawnTimer this;
     surgeActive := surgeActive this;
     surgeTimer := surgeTimer this;
     surgeDurationTimer := surgeDurationTimer this;
     speedMultiplier := speedMultiplier this;
     shakeTimer := shakeTimer this;
     shakeX := shakeX this;
     shakeY := shakeY this;
     gameOverReady := gameOverReady this;
     gameOverTimer := gameOverTimer this;
     finalScore := finalScore this;
     topScores := topScores this |}.

Definition set_spawnTimer (v : R) (this : t) : t :=
  {| keys := keys this;
     state := state this;
     bestScore := bestScore this;
     ship := ship this;
     asteroids := asteroids this;
     particles := particles this;
     elapsedTime := elapsedTime this;
     spawnTimer := v;
     surgeActive := surgeActive this;
     surgeTimer := surgeTimer this;
     surgeDurationTimer := surgeDurationTimer this;
     speedMultiplier := speedMultiplier this;
     shakeTimer := shakeTimer this;
     shakeX := shakeX this;
     shakeY := shakeY this;
     gameOverReady := gameOverReady this;
     gameOverTimer := gameOverTimer this;
     finalScore := finalScore this;
     topScores := topScores this |}.

Definition set_surgeActive (v : bool) (this : t) : t :=
  {| keys := keys this;
     state := state this;
     bestScore := bestScore this;
     ship := ship this;
     asteroids := asteroids this;
     particles := particles this;
     elapsedTime := elapsedTime this;
     spawnTimer := spawnTimer this;
     surgeActive := v;
     surgeTimer := surgeTimer this;
     surgeDurationTimer := surgeDurationTimer this;
     speedMultiplier := speedMultiplier this;
     shakeTimer := shakeTimer this;
     shakeX := shakeX this;
     shakeY := shakeY this;
     gameOverReady := gameOverReady this;
     gameOverTimer := gameOverTimer this;
     finalScore := finalScore this;
     topScores := topScores this |}.

Definition set_surgeTimer (v : R) (this : t) : t :=
  {| keys := keys this;
     state := state this;
     bestScore := bestScore this;
     ship := ship this;
     asteroids := asteroids this;
     particles := particles this;
     elapsedTime := elapsedTime this;
     spawnTimer := spawnTimer this;
     surgeActive := surgeActive this;
     surgeTimer := v;
     surgeDurationTimer := surgeDurationTimer this;
     speedMultiplier := speedMultiplier this;
     shakeTimer := shakeTimer this;
     shakeX := shakeX this;
     shakeY := shakeY this;
     gameOverReady := gameOverReady this;
     gameOverTimer := gameOverTimer this;
     finalScore := finalScore this;
     topScores := topScores this |}.

Definition set_surgeDurationTimer (v : R) (this : t) : t :=
  {| keys := keys this;
     state := state this;
     bestScore := bestScore this;
     ship := ship this;
     asteroids := asteroids this;
     particles := particles this;
     elapsedTime := elapsedTime this;
     spawnTimer := spawnTimer this;
     surgeActive := surgeActive this;
     surgeTimer := surgeTimer this;
     surgeDurationTimer := v;
     speedMultiplier := speedMultiplier this;
     shakeTimer := shakeTimer this;
     shakeX := shakeX this;
     shakeY := shakeY this;
     gameOverReady := gameOverReady this;
     gameOverTimer := gameOverTimer this;
     finalScore := finalScore this;
     topScores := topScores this |}.

Definition set_speedMultiplier (v : R) (this : t) : t :=
  {| keys := keys this;
     state := state this;
     bestScore := bestScore this;
     ship := ship this;
     asteroids := asteroids this;
     particles := particles this;
     elapsedTime := elapsedTime this;
     spawnTimer := spawnTimer this;
     surgeActive := surgeActive this;
     surgeTimer := surgeTimer this;
     surgeDurationTimer := surgeDurationTimer this;
     speedMultiplier := v;
     shakeTimer := shakeTimer this;
     shakeX := shakeX this;
     shakeY := shakeY this;
     gameOverReady := gameOverReady this;
     gameOverTimer := gameOverTimer this;
     finalScore := finalScore this;
     topScores := topScores this |}.

Definition set_shakeTimer (v : R) (this : t) : t :=
  {| keys := keys this;
     state := state this;
     bestScore := bestScore this;
     ship := ship this;
     asteroids := asteroids this;
     particles := particles this;
     elapsedTime := elapsedTime this;
     spawnTimer := spawnTimer this;
     surgeActive := surgeActive this;
     surgeTimer := surgeTimer this;
     surgeDurationTimer := surgeDurationTimer this;
     speedMultiplier := speedMultiplier this;
     shakeTimer := v;
     shakeX := shakeX this;
     shakeY := shakeY this;
     gameOverReady := gameOverReady this;
     gameOverTimer := gameOverTimer this;
     finalScore := finalScore this;
     topScores := topScores this |}.

Definition set_shakeX (v : R) (this : t) : t :=
  {| keys := keys this;
     state := state this;
     bestScore := bestScore this;
     ship := ship this;
     asteroids := asteroids this;
     particles := particles this;
     elapsedTime := elapsedTime this;
     spawnTimer := spawnTimer this;
     surgeActive := surgeActive this;
     surgeTimer := surgeTimer this;
     surgeDurationTimer := surgeDurationTimer this;
     speedMultiplier := speedMultiplier this;
     shakeTimer := shakeTimer this;
     shakeX := v;
     shakeY := shakeY this;
     gameOverReady := gameOverReady this;
     gameOverTimer := gameOverTimer this;
     finalScore := finalScore this;
     topScores := topScores this |}.

Definition set_shakeY (v : R) (this : t) : t :=
  {| keys := keys this;
     state := state this;
     bestScore := bestScore this;
     ship := ship this;
     asteroids := asteroids this;
     particles := particles this;
     elapsedTime := elapsedTime this;
     spawnTimer := spawnTimer this;
     surgeActive := surgeActive this;
     surgeTimer := surgeTimer this;
     surgeDurationTimer := surgeDurationTimer this;
     speedMultiplier := speedMultiplier this;
     shakeTimer := shakeTimer this;
     shakeX := shakeX this;
     shakeY := v;
     gameOverReady := gameOverReady this;
     gameOverTimer := gameOverTimer this;
     finalScore := finalScore this;
     topScores := topScores this |}.

Definition set_gameOverReady (v : bool) (this : t) : t :=
  {| keys := keys this;
     state := state this;
     bestScore := bestScore this;
     ship := ship this;
     asteroids := asteroids this;
     particles := particles this;
     elapsedTime := elapsedTime this;
     spawnTimer := spawnTimer this;
     surgeActive := surgeActive this;
     surgeTimer := surgeTimer this;
     surgeDurationTimer := surgeDurationTimer this;
     speedMultiplier := speedMultiplier this;
     shakeTimer := shakeTimer this;
     shakeX := shakeX this;
     shakeY := shakeY this;
     gameOverReady := v;
     gameOverTimer := gameOverTimer this;
     finalScore := finalScore this;
     topScores := topScores this |}.

Definition set_gameOverTimer (v : R) (this : t) : t :=
  {| keys := keys this;
     state := state this;
     bestScore := bestScore this;
     ship := ship this;
     asteroids := asteroids this;
     particles := particles this;
     elapsedTime := elapsedTime this;
     spawnTimer := spawnTimer this;
     surgeActive := surgeActive this;
     surgeTimer := surgeTimer this;
     surgeDurationTimer := surgeDurationTimer this;
     speedMultiplier := speedMultiplier this;
     shakeTimer := shakeTimer this;
     shakeX := shakeX this;
     shakeY := shakeY this;
     gameOverReady := gameOverReady this;
     gameOverTimer := v;
     finalScore := finalScore this;
     topScores := topScores this |}.

Definition set_finalScore (v : option R) (this : t) : t :=
  {| keys := keys this;
     state := state this;
     bestScore := bestScore this;
     ship := ship this;
     asteroids := asteroids this;
     particles := particles this;
     elapsedTime := elapsedTime this;
     spawnTimer := spawnTimer this;
     surgeActive := surgeActive this;
     surgeTimer := surgeTimer this;
     surgeDurationTimer := surgeDurationTimer this;
     speedMultiplier := speedMultiplier this;
     shakeTimer := shakeTimer this;
     shakeX := shakeX this;
     shakeY := shakeY this;
     gameOverReady := gameOverReady this;
     gameOverTimer := gameOverTimer this;
     finalScore := v;
     topScores := topScores this |}.

Definition set_topScores (v : option (list R)) (this : t) : t :=
  {| keys := keys this;
     state := state this;
     bestScore := bestScore this;
     ship := ship this;
     asteroids := asteroids this;
     particles := particles this;
     elapsedTime := elapsedTime this;
     spawnTimer := spawnTimer this;
     surgeActive := surgeActive this;
     surgeTimer := surgeTimer this;
     surgeDurationTimer := surgeDurationTimer this;
     speedMultiplier := speedMultiplier this;
     shakeTimer := shakeTimer this;
     shakeX := shakeX this;
     shakeY := shakeY this;
     gameOverReady := gameOverReady this;
     gameOverTimer := gameOverTimer this;
     finalScore := finalScore this;
     topScores := v |}.

(** Calls into [ScoreManager], which reads and writes [localStorage]. *)
Definition read_storage {A : Type} (f : LocalStorage -> outcome A) : M A :=
  fun w =>
    match f (localStorage w) with
    | Returns a => Returns (a, w)
    | Throws e => Throws e
    | Unassigned => Unassigned
    end.

Definition write_storage (f : LocalStorage -> outcome LocalStorage)
  : M unit :=
  fun w =>
    match f (localStorage w) with
    | Returns ls => Returns (tt, {| rng := rng w; localStorage := ls |})
    | Throws e => Throws e
    | Unassigned => Unassigned
    end.

Definition startGame (cfg : Config) (this : t) : M t :=
  let this := set_state playing this in
  let this :=
    set_ship (Ship.new cfg (canvasWidth cfg / 2) (canvasHeight cfg / 2)) this in
  let this := set_asteroids [] this in
  let this := set_particles [] this in
  let this := set_elapsedTime 0 this in
  let this := set_spawnTimer 0 this in
  let this := set_surgeActive false this in
  timer <- rand (fst (surgeInterval cfg)) (snd (surgeInterval cfg)) ;;
  let this := set_surgeTimer timer this in
  let this := set_surgeDurationTimer 0 this in
  let this := set_speedMultiplier 1 this in
  let this := set_shakeTimer 0 this in
  let this := set_shakeX 0 this in
  let this := set_shakeY 0 this in
  let this := set_gameOverReady false this in
  let this := set_gameOverTimer 0 this in
  ret this.

Definition triggerGameOver (cfg : Config) (this : t) : M t :=
  let this := set_state gameover this in
  let this := set_gameOverReady false this in
  let this := set_gameOverTimer 0 this in
  let score := elapsedTime this in
  _ <- write_storage (ScoreManager.addScore cfg score) ;;
  let this := set_finalScore (Some score) this in
  best <- read_storage ScoreManager.getBest ;;
  let this := set_bestScore best this in
  top <- read_storage ScoreManager.getScores ;;
  let this := set_topScores (Some top) this in
  exploded <-
    push_times (explosionParticleCount cfg)
      (Particle.new (Ship.x (ship this)) (Ship.y (ship this)))
      (particles this) ;;
  let this := set_particles exploded this in
  let this := set_shakeTimer (screenShakeDuration cfg / 1000) this in
  ret this.

Definition updateSurge (cfg : Config) (dt : R) (this : t) : M t :=
  let dtMs := dt * 1000 in
  if surgeActive this then
    let this := set_surgeDurationTimer (surgeDurationTimer this - dtMs) this in
    if Rle_dec (surgeDurationTimer this) 0 then
      let this := set_surgeActive false this in
      let this := set_speedMultiplier 1 this in
      timer <- rand (fst (surgeInterval cfg)) (snd (surgeInterval cfg)) ;;
      ret (set_surgeTimer timer this)
    else ret this
  else
    let this := set_surgeTimer (surgeTimer this - dtMs) this in
    if Rle_dec (surgeTimer this) 0 then
      let this := set_surgeActive true this in
      let this := set_speedMultiplier (surgeMultiplier cfg) this in
      timer <- rand (fst (surgeDuration cfg)) (snd (surgeDuration cfg)) ;;
      ret (set_surgeDurationTimer timer this)
    else ret this.

(** The loop [for (i = length - 1; i >= 0; i--)] that moves every asteroid
    and splices out those now off screen: the last element is handled
    first, and removing it leaves the indices below untouched. *)
Definition update_asteroids (cfg : Config) (dt speedMultiplier0 : R)
  (asteroids0 : list Asteroid.t) : list Asteroid.t :=
  fold_right
    (fun asteroid kept =>
       let asteroid := Asteroid.update dt speedMultiplier0 asteroid in
       if Asteroid.isOffScreen cfg asteroid then kept else asteroid :: kept)
    [] asteroids0.

(** The test of the collision loop for one asteroid. *)
Definition hits (ship0 : Ship.t) (asteroid : Asteroid.t) : bool :=
  let d :=
    dist (Ship.x ship0) (Ship.y ship0) (Asteroid.x asteroid)
      (Asteroid.y asteroid) in
  ltb d ((Ship.size ship0 + Asteroid.size asteroid) * 0.8).

(** The collision loop: the first asteroid that hits ends it. *)
Fixpoint collision (ship0 : Ship.t) (asteroids0 : list Asteroid.t) : bool :=
  match asteroids0 with
  | [] => false
  | asteroid :: rest =>
      if hits ship0 asteroid then true else collision ship0 rest
  end.

(** The block of [updatePlaying] under the comment "Spawn asteroids". *)
Definition spawn_asteroids (cfg : Config) (dt : R) (this : t) : M t :=
  let this := set_spawnTimer (spawnTimer this + dt * 1000) this in
  if Rle_dec (asteroidSpawnInterval cfg) (spawnTimer this) then
    let this :=
      set_spawnTimer (spawnTimer this - asteroidSpawnInterval cfg) this in
    spawned <-
      push_times (asteroidBatchSize cfg) (Asteroid.new cfg) (asteroids this) ;;
    ret (set_asteroids spawned this)
  else ret this.

Definition updatePlaying (cfg : Config) (dt : R) (this : t) : M t :=
  let this := set_elapsedTime (elapsedTime this + dt) this in
  let this := set_ship (Ship.update cfg dt (keys this) (ship this)) this in
  this <- updateSurge cfg dt this ;;
  this <- spawn_asteroids cfg dt this ;;
  let this :=
    set_asteroids
      (update_asteroids cfg dt (speedMultiplier this) (asteroids this))
      this in
  if collision (ship this) (asteroids this)
  then triggerGameOver cfg this
  else ret this.

(** [updateSurge] called once per elapsed time of [dts], in order. *)
Fixpoint feedSurge (cfg : Config) (dts : list R) (this : t) : M t :=
  match dts with
  | [] => ret this
  | dt :: rest => this <- updateSurge cfg dt this ;; feedSurge cfg rest this
  end.

(** [this.keys[key] = held] *)
Definition set_key (key : string) (held : bool) (this : t) : t :=
  {| keys := fun k => if String.eqb k key then held else keys this k;
     state := state this;
     bestScore := bestScore this;
     ship := ship this;
     asteroids := asteroids this;
     particles := particles this;
     elapsedTime := elapsedTime this;
     spawnTimer := spawnTimer this;
     surgeActive := surgeActive this;
     surgeTimer := surgeTimer this;
     surgeDurationTimer := surgeDurationTimer this;
     speedMultiplier := speedMultiplier this;
     shakeTimer := shakeTimer this;
     shakeX := shakeX this;
     shakeY := shakeY this;
     gameOverReady := gameOverReady this;
     gameOverTimer := gameOverTimer this;
     finalScore := finalScore this;
     topScores := topScores this |}.

(** The loops of the shape
    [for (i = arr.length - 1; i >= 0; i--) { arr[i].update(..); if (gone(arr[i])) arr.splice(i, 1); }]
    as they are written: [i] indices are left to visit, the next one is
    [i - 1]; the element there is updated in place and then perhaps spliced
    out.  Reading an index outside the array gives [undefined], on which the
    method call fails. *)
Fixpoint splice_loop {A : Type} (update0 : A -> A) (gone : A -> bool)
  (i : nat) (arr : list A) : option (list A) :=
  match i with
  | O => Some arr
  | S j =>
      match nth_error arr j with
      | None => None
      | Some a =>
          let a := update0 a in
          let arr := firstn j arr ++ a :: skipn (S j) arr in
          let arr := if gone a then firstn j arr ++ skipn (S j) arr else arr in
          splice_loop update0 gone j arr
      end
  end.

(** The particle loop of [updateGameOver], in the form of
    [update_asteroids]. *)
Definition update_particles (dt : R) (particles0 : list Particle.t)
  : list Particle.t :=
  fold_right
    (fun particle kept =>
       let particle := Particle.update dt particle in
       if Rle_dec (Particle.life particle) 0 then kept else particle :: kept)
    [] particles0.

Definition showTitle (this : t) : M t :=
  let this := set_state title this in
  best <- read_storage ScoreManager.getBest ;;
  ret (set_bestScore best this).

Definition updateGameOver (cfg : Config) (dt : R) (this : t) : M t :=
  let this := set_particles (update_particles dt (particles this)) this in
  let this :=
    set_asteroids (update_asteroids cfg dt 1 (asteroids this)) this in
  this <-
    (if Rlt_dec 0 (shakeTimer this) then
       let this := set_shakeTimer (shakeTimer this - dt) this in
       let intensity :=
         screenShakeIntensity cfg
         * (shakeTimer this / (screenShakeDuration cfg / 1000)) in
       sx <- rand (- intensity) intensity ;;
       let this := set_shakeX sx this in
       sy <- rand (- intensity) intensity ;;
       ret (set_shakeY sy this)
     else
       let this := set_shakeX 0 this in
       ret (set_shakeY 0 this)) ;;
  let this := set_gameOverTimer (gameOverTimer this + dt) this in
  if Rlt_dec 0.8 (gameOverTimer this)
  then ret (set_gameOverReady true this)
  else ret this.

Definition update (cfg : Config) (dt : R) (this : t) : M t :=
  match state this with
  | playing => updatePlaying cfg dt this
  | gameover => updateGameOver cfg dt this
  | title => ret this
  end.

(** [e.key === "Enter" || e.key === " "] *)
Definition is_start_key (key : string) : bool :=
  String.eqb key "Enter" || String.eqb key " ".

(** The [keydown] listener ([preventDefault] has no effect on the game). *)
Definition keydown (cfg : Config) (key : string) (this : t) : M t :=
  let this := set_key key true this in
  this <-
    (match state this with
     | title => if is_start_key key then startGame cfg this else ret this
     | _ => ret this
     end) ;;
  match state this with
  | gameover =>
      if gameOverReady this && is_start_key key then showTitle this
      else ret this
  | _ => ret this
  end.

(** The [keyup] listener. *)
Definition keyup (key : string) (this : t) : t := set_key key false this.

(** The elapsed time [loop(timestamp)] hands to [update], [lastTime] being
    the time stamp of the frame before. *)
Definition loop_dt (timestamp lastTime : R) : R :=
  Rmin ((timestamp - lastTime) / 1000) 0.05.

(** [update] called once per elapsed time of [dts], in order. *)
Fixpoint frames (cfg : Config) (dts : list R) (this : t) : M t :=
  match dts with
  | [] => ret this
  | dt :: rest => this <- update cfg dt this ;; frames cfg rest this
  end.

End Game.

(** * Vocabulary of the properties *)

(** ** Ship *)

Definition left_held (keys : string -> bool) : bool := keys "ArrowLeft" || keys "a".
Definition right_held (keys : string -> bool) : bool := keys "ArrowRight" || keys "d".
Definition up_held (keys : string -> bool) : bool := keys "ArrowUp" || keys "w".
Definition down_held (keys : string -> bool) : bool := keys "ArrowDown" || keys "s".

(** Exactly two directions are held, one on each axis. *)
Definition two_orthogonal_held (keys : string -> bool) : Prop :=
  xorb (left_held keys) (right_held keys) = true
  /\ xorb (up_held keys) (down_held keys) = true.

(** Exactly one direction is held. *)
Definition one_direction_held (keys : string -> bool) : Prop :=
  (xorb (left_held keys) (right_held keys) = true
   /\ up_held keys = false /\ down_held keys = false)
  \/ (left_held keys = false /\ right_held keys = false
      /\ xorb (up_held keys) (down_held keys) = true).

(** The clamp of [Ship.update] leaves the position it is given unchanged. *)
Definition clamp_idle (cfg : Config) (dt : R) (keys : string -> bool)
  (this : Ship.t) : Prop :=
  Ship.x (Ship.update cfg dt keys this) = fst (Ship.moved cfg dt keys this)
  /\ Ship.y (Ship.update cfg dt keys this) = snd (Ship.moved cfg dt keys this).

(** How far [Ship.update] moves the ship. *)
Definition travelled (cfg : Config) (dt : R) (keys : string -> bool)
  (this : Ship.t) : R :=
  let after := Ship.update cfg dt keys this in
  dist (Ship.x this) (Ship.y this) (Ship.x after) (Ship.y after).

(** ** Asteroid *)

(** An asteroid after the updates of [history], pairs of an elapsed time and
    a speed multiplier, oldest first. *)
Definition replay (history : list (R * R)) (this : Asteroid.t) : Asteroid.t :=
  fold_left (fun a step => Asteroid.update (fst step) (snd step) a) history this.

(** The asteroid sits [size + 5] outside one edge of the field, anywhere
    along that edge: above, to the right, below or to the left. *)
Definition placed_on_edge (cfg : Config) (a : Asteroid.t) : Prop :=
  let margin := Asteroid.size a + 5 in
  (Asteroid.y a = - margin /\ 0 <= Asteroid.x a <= canvasWidth cfg)
  \/ (Asteroid.x a = canvasWidth cfg + margin
      /\ 0 <= Asteroid.y a <= canvasHeight cfg)
  \/ (Asteroid.y a = canvasHeight cfg + margin
      /\ 0 <= Asteroid.x a <= canvasWidth cfg)
  \/ (Asteroid.x a = - margin /\ 0 <= Asteroid.y a <= canvasHeight cfg).

(** ** The world *)

(** Every value [Math.random()] will return lies in [[0, 1)]. *)
Definition fair (w : World) : Prop := forall n : nat, 0 <= draws (rng w) n < 1.

(** What the store holds reads as an array of scores: [_load] falls back on
    [[]], or the text parses to an array. *)
Definition loadable (ls : LocalStorage) : Prop :=
  exists l : list R, ScoreManager._load ls = VArray l.

(** [m] only draws random numbers: from a fair world it returns a value that
    satisfies [P], in a fair world with the same store and the same sequence
    of draws, read further. *)
Definition draws_only {A : Type} (m : M A) (P : A -> Prop) : Prop :=
  forall w : World, fair w ->
    exists (a : A) (w' : World),
      m w = Returns (a, w') /\ P a /\ fair w'
      /\ localStorage w' = localStorage w
      /\ draws (rng w') = draws (rng w).

(** [m] returns a value that satisfies [P] from every fair world whose store
    is loadable, and leaves such a world. *)
Definition completes {A : Type} (m : M A) (P : A -> Prop) : Prop :=
  forall w : World, fair w -> loadable (localStorage w) ->
    exists (a : A) (w' : World),
      m w = Returns (a, w') /\ P a /\ fair w' /\ loadable (localStorage w').

(** ** Game *)

(** The countdown of the current surge state: the time until the surge ends
    when it is active, the time until the next surge when it is not. *)
Definition countdown (this : Game.t) : R :=
  if Game.surgeActive this then Game.surgeDurationTimer this
  else Game.surgeTimer this.

(** [rand(range[0], range[1])] for the share [u] drawn. *)
Definition drawn_in (range : R * R) (u : R) : R :=
  u * (snd range - fst range) + fst range.

(** The four ways one call of [updateSurge] can go: the countdown of the
    current state goes on, or it has run out and the state changes, with a
    countdown drawn for the new state. *)
Inductive surge_step (cfg : Config) (dt : R) (this : Game.t)
  : Game.t -> Prop :=
| surge_goes_on :
    Game.surgeActive this = true ->
    0 < Game.surgeDurationTimer this - dt * 1000 ->
    surge_step cfg dt this
      (Game.set_surgeDurationTimer
         (Game.surgeDurationTimer this - dt * 1000) this)
| surge_ends (u : R) :
    Game.surgeActive this = true ->
    Game.surgeDurationTimer this - dt * 1000 <= 0 ->
    0 <= u < 1 ->
    surge_step cfg dt this
      (Game.set_surgeTimer (drawn_in (surgeInterval cfg) u)
         (Game.set_speedMultiplier 1
            (Game.set_surgeActive false
               (Game.set_surgeDurationTimer
                  (Game.surgeDurationTimer this - dt * 1000) this))))
| idle_goes_on :
    Game.surgeActive this = false ->
    0 < Game.surgeTimer this - dt * 1000 ->
    surge_step cfg dt this
      (Game.set_surgeTimer (Game.surgeTimer this - dt * 1000) this)
| surge_begins (u : R) :
    Game.surgeActive this = false ->
    Game.surgeTimer this - dt * 1000 <= 0 ->
    0 <= u < 1 ->
    surge_step cfg dt this
      (Game.set_surgeDurationTimer (drawn_in (surgeDuration cfg) u)
         (Game.set_speedMultiplier (surgeMultiplier cfg)
            (Game.set_surgeActive true
               (Game.set_surgeTimer (Game.surgeTimer this - dt * 1000) this)))).

(** The elapsed time of the calls [dts], in milliseconds as [updateSurge]
    counts it. *)
Definition total_ms (dts : list R) : R :=
  fold_right (fun dt ms => dt * 1000 + ms) 0 dts.

(** The states a run goes through: [startGame] sets it up, then the surge
    controller is updated, on its own or within a frame of play. *)
Inductive reachable (cfg : Config) : Game.t -> World -> Prop :=
| reachable_start (before this : Game.t) (w w' : World) :
    fair w ->
    Game.startGame cfg before w = Returns (this, w') ->
    reachable cfg this w'
| reachable_surge (dt : R) (this after : Game.t) (w w' : World) :
    reachable cfg this w ->
    Game.updateSurge cfg dt this w = Returns (after, w') ->
    reachable cfg after w'
| reachable_frame (dt : R) (this after : Game.t) (w w' : World) :
    reachable cfg this w ->
    loadable (localStorage w) ->
    Game.updatePlaying cfg dt this w = Returns (after, w') ->
    reachable cfg after w'.

(** The surge state is consistent: the multiplier is 1 exactly when no surge
    is active, and the countdown of the current state is not negative. *)
Definition surge_consistent (this : Game.t) : Prop :=
  (Game.speedMultiplier this = 1 <-> Game.surgeActive this = false)
  /\ 0 <= countdown this.

(** The two ways the spawn block of a frame can go. *)
Inductive spawn_step (cfg : Config) (dt : R) (this : Game.t)
  : Game.t -> Prop :=
| spawn_batch (batch : list Asteroid.t) :
    asteroidSpawnInterval cfg <= Game.spawnTimer this + dt * 1000 ->
    List.length batch = asteroidBatchSize cfg ->
    spawn_step cfg dt this
      (Game.set_asteroids (Game.asteroids this ++ batch)
         (Game.set_spawnTimer
            (Game.spawnTimer this + dt * 1000 - asteroidSpawnInterval cfg)
            this))
| spawn_nothing :
    Game.spawnTimer this + dt * 1000 < asteroidSpawnInterval cfg ->
    spawn_step cfg dt this
      (Game.set_spawnTimer (Game.spawnTimer this + dt * 1000) this).

(** What [triggerGameOver] leaves of the run it ends. *)
Definition ended (cfg : Config) (this after : Game.t) : Prop :=
  Game.state after = Game.gameover
  /\ Game.finalScore after = Some (Game.elapsedTime this)
  /\ Game.elapsedTime after = Game.elapsedTime this
  /\ Game.ship after = Game.ship this
  /\ Game.asteroids after = Game.asteroids this
  /\ Game.spawnTimer after = Game.spawnTimer this
  /\ Game.surgeActive after = Game.surgeActive this
  /\ Game.surgeTimer after = Game.surgeTimer this
  /\ Game.surgeDurationTimer after = Game.surgeDurationTimer this
  /\ Game.speedMultiplier after = Game.speedMultiplier this.

(** One frame of play on [this]: the state after the surge block, after the
    spawn block and after the asteroids have moved, and how the collision
    block leaves it. *)
Definition frame (cfg : Config) (dt : R) (this after : Game.t) : Prop :=
  exists surged spawned : Game.t,
    surge_step cfg dt
      (Game.set_ship
         (Ship.update cfg dt (Game.keys this) (Game.ship this))
         (Game.set_elapsedTime (Game.elapsedTime this + dt) this))
      surged
    /\ spawn_step cfg dt surged spawned
    /\ let moved :=
         Game.set_asteroids
           (Game.update_asteroids cfg dt (Game.speedMultiplier spawned)
              (Game.asteroids spawned))
           spawned in
       if Game.collision (Game.ship moved) (Game.asteroids moved)
       then ended cfg moved after
       else after = moved.

(** ** Score store *)

(** Highest first. *)
Definition descending (scores : list R) : Prop :=
  Sorted (fun a b => b <= a) scores.

(** A store that works and holds the serialized array [scores]. *)
Definition holding (scores : list R) : LocalStorage :=
  {| readable := true; writable := true;
     item := Some (ScoreManager.JSON_stringify scores) |}.

(** [cfg] with another value of [maxScoresSaved]. *)
Definition with_maxScoresSaved (n : nat) (cfg : Config) : Config :=
  {| canvasWidth := canvasWidth cfg;
     canvasHeight := canvasHeight cfg;
     shipSpeed := shipSpeed cfg;
     shipSize := shipSize cfg;
     asteroidBaseSpeed := asteroidBaseSpeed cfg;
     asteroidSpeedVariance := asteroidSpeedVariance cfg;
     asteroidMinSize := asteroidMinSize cfg;
     asteroidMaxSize := asteroidMaxSize cfg;
     asteroidSpawnInterval := asteroidSpawnInterval cfg;
     asteroidBatchSize := asteroidBatchSize cfg;
     asteroidAngleSpread := asteroidAngleSpread cfg;
     asteroidVertices := asteroidVertices cfg;
     asteroidRotationSpeed := asteroidRotationSpeed cfg;
     surgeInterval := surgeInterval cfg;
     surgeDuration := surgeDuration cfg;
     surgeMultiplier := surgeMultiplier cfg;
     starCount := starCount cfg;
     explosionParticleCount := explosionParticleCount cfg;
     screenShakeDuration := screenShakeDuration cfg;
     screenShakeIntensity := screenShakeIntensity cfg;
     maxScoresSaved := n |}.

(** A world whose draws all are [u], over the store [ls]. *)
Definition steady_world (u : R) (ls : LocalStorage) : World :=
  {| rng := {| draws := fun _ => u; pos := 0 |}; localStorage := ls |}.

(** A store that works and holds nothing yet. *)
Definition empty_storage : LocalStorage :=
  {| readable := true; writable := true; item := None |}.

(** An asteroid of radius [size0] at rest at [(x0, y0)]. *)
Definition resting_asteroid (x0 y0 size0 : R) : Asteroid.t :=
  {| Asteroid.size := size0; Asteroid.rotation := 0;
     Asteroid.rotationSpeed := 0; Asteroid.vertices := [];
     Asteroid.x := x0; Asteroid.y := y0;
     Asteroid.baseVx := 0; Asteroid.baseVy := 0;
     Asteroid.vx := 0; Asteroid.vy := 0 |}.

(** A run of the game as [startGame] sets it up when it draws a first
    countdown of [timer], no key being held and no score known. *)
Definition fresh_run (cfg : Config) (timer : R) : Game.t :=
  {| Game.keys := fun _ => false;
     Game.state := Game.playing;
     Game.bestScore := 0;
     Game.ship := Ship.new cfg (canvasWidth cfg / 2) (canvasHeight cfg / 2);
     Game.asteroids := [];
     Game.particles := [];
     Game.elapsedTime := 0;
     Game.spawnTimer := 0;
     Game.surgeActive := false;
     Game.surgeTimer := timer;
     Game.surgeDurationTimer := 0;
     Game.speedMultiplier := 1;
     Game.shakeTimer := 0;
     Game.shakeX := 0;
     Game.shakeY := 0;
     Game.gameOverReady := false;
     Game.gameOverTimer := 0;
     Game.finalScore := None;
     Game.topScores := None |}.

(** A run in the middle of a surge that has [left] milliseconds to go. *)
Definition surging_run (cfg : Config) (left : R) : Game.t :=
  Game.set_surgeDurationTimer left
    (Game.set_speedMultiplier (surgeMultiplier cfg)
       (Game.set_surgeActive true (fresh_run cfg 0))).

(** The value the next call of [Math.random()] returns in [w], and the world
    after that call. *)
Definition current_draw (w : World) : R := draws (rng w) (pos (rng w)).

Definition after_draw (w : World) : World :=
  {| rng := {| draws := draws (rng w); pos := S (pos (rng w)) |};
     localStorage := localStorage w |}.

(** ** Game over *)

(** The elapsed time of the frames [dts], in seconds. *)
Definition total_s (dts : list R) : R := fold_right Rplus 0 dts.

(** A particle after the updates of [dts], oldest first. *)
Definition aged (dts : list R) (this : Particle.t) : Particle.t :=
  fold_left (fun p dt => Particle.update dt p) dts this.

(** A particle as [new Particle(x0, y0)] makes it. *)
Definition fresh_particle (x0 y0 : R) (p : Particle.t) : Prop :=
  Particle.x p = x0 /\ Particle.y p = y0
  /\ Particle.life p = 1
  /\ 1.5 <= Particle.decay p < 3.5
  /\ 1.5 <= Particle.size p < 4
  /\ In (Particle.color p) Particle.colors
  /\ exists speed : R,
       60 <= speed < 250
       /\ Particle.vx p * Particle.vx p + Particle.vy p * Particle.vy p
          = speed * speed.

(** What one call of [updateGameOver] does to [this]. *)
Definition gameover_step (cfg : Config) (dt : R) (this after : Game.t)
  : Prop :=
  Game.particles after = Game.update_particles dt (Game.particles this)
  /\ Game.asteroids after
     = Game.update_asteroids cfg dt 1 (Game.asteroids this)
  /\ Game.gameOverTimer after = Game.gameOverTimer this + dt
  /\ Game.gameOverReady after
     = (if Rlt_dec 0.8 (Game.gameOverTimer this + dt) then true
        else Game.gameOverReady this)
  /\ (0 < Game.shakeTimer this ->
      Game.shakeTimer after = Game.shakeTimer this - dt
      /\ exists ux uy : R,
          0 <= ux < 1 /\ 0 <= uy < 1
          /\ let intensity :=
               screenShakeIntensity cfg
               * ((Game.shakeTimer this - dt)
                  / (screenShakeDuration cfg / 1000)) in
             Game.shakeX after = ux * (intensity - - intensity) + - intensity
             /\ Game.shakeY after
                = uy * (intensity - - intensity) + - intensity)
  /\ (Game.shakeTimer this <= 0 ->
      Game.shakeTimer after = Game.shakeTimer this
      /\ Game.shakeX after = 0 /\ Game.shakeY after = 0)
  /\ Game.state after = Game.state this
  /\ Game.keys after = Game.keys this
  /\ Game.ship after = Game.ship this
  /\ Game.elapsedTime after = Game.elapsedTime this
  /\ Game.bestScore after = Game.bestScore this
  /\ Game.finalScore after = Game.finalScore this
  /\ Game.topScores after = Game.topScores this
  /\ Game.spawnTimer after = Game.spawnTimer this
  /\ Game.surgeActive after = Game.surgeActive this
  /\ Game.surgeTimer after = Game.surgeTimer this
  /\ Game.surgeDurationTimer after = Game.surgeDurationTimer this
  /\ Game.speedMultiplier after = Game.speedMultiplier this.

(** What frames of [update] make of a run that was being played: [n] of the
    frames [dts] were played, all of them if the run is still on. *)
Definition played (cfg : Config) (this : Game.t) (dts : list R)
  (after : Game.t) (n : nat) : Prop :=
  (n <= List.length dts)%nat
  /\ Game.elapsedTime after
     = Game.elapsedTime this + total_s (firstn n dts)
  /\ ((Game.state after = Game.playing /\ n = List.length dts
       /\ Game.finalScore after = Game.finalScore this)
      \/ (Game.state after = Game.gameover /\ (0 < n)%nat
          /\ Game.finalScore after = Some (Game.elapsedTime after)))
  /\ (0 <= Game.spawnTimer this < asteroidSpawnInterval cfg ->
      Forall (fun dt => 0 <= dt /\ dt * 1000 <= asteroidSpawnInterval cfg)
        dts ->
      exists k : nat,
        Game.spawnTimer after
        = Game.spawnTimer this + total_ms (firstn n dts)
          - INR k * asteroidSpawnInterval cfg
        /\ 0 <= Game.spawnTimer after < asteroidSpawnInterval cfg).

(** The time of the updates of [history], each weighted by its multiplier. *)
Definition weighted_time (history : list (R * R)) : R :=
  fold_right (fun step t => fst step * snd step + t) 0 history.

(** * Properties *)

(** ** Numbers *)

Lemma ltb_true (a b : R) : ltb a b = true <-> a < b.
Proof. unfold ltb; destruct (Rlt_dec a b); split; intros; try easy. Qed.

Lemma ltb_false (a b : R) : ltb a b = false <-> b <= a.
Proof.
  unfold ltb; destruct (Rlt_dec a b); split; intros; try easy; lra.
Qed.

Lemma clamp_lower (val lo hi : R) : lo <= clamp val lo hi.
Proof. unfold clamp; apply Rmax_l. Qed.

Lemma clamp_upper (val lo hi : R) : lo <= hi -> clamp val lo hi <= hi.
Proof.
  intros Hle; unfold clamp.
  apply Rmax_lub; [exact Hle | apply Rmin_l].
Qed.

Lemma clamp_inside (val lo hi : R) : lo <= val <= hi -> clamp val lo hi = val.
Proof.
  intros [Hlo Hhi]; unfold clamp.
  rewrite (Rmin_right hi val) by exact Hhi.
  apply Rmax_right; exact Hlo.
Qed.

Lemma sum_squares_nonneg (a b : R) : 0 <= a * a + b * b.
Proof.
  pose proof (Rle_0_sqr a) as Ha; pose proof (Rle_0_sqr b) as Hb.
  unfold Rsqr in Ha, Hb; lra.
Qed.

Lemma dist_sqr (x1 y1 x2 y2 : R) :
  dist x1 y1 x2 y2 * dist x1 y1 x2 y2
  = (x1 - x2) * (x1 - x2) + (y1 - y2) * (y1 - y2).
Proof. unfold dist; cbv zeta; apply sqrt_sqrt, sum_squares_nonneg. Qed.

Lemma dist_nonneg (x1 y1 x2 y2 : R) : 0 <= dist x1 y1 x2 y2.
Proof. unfold dist; cbv zeta; apply sqrt_pos. Qed.

Lemma dist_same (x0 y0 : R) : dist x0 y0 x0 y0 = 0.
Proof.
  unfold dist; cbv zeta.
  replace ((x0 - x0) * (x0 - x0) + (y0 - y0) * (y0 - y0)) with 0 by ring.
  apply sqrt_0.
Qed.

(** A displacement along the first axis only has the length of its size. *)
Lemma dist_horizontal (x0 y0 d : R) : 0 <= d -> dist x0 y0 (x0 + d) y0 = d.
Proof.
  intros Hd; unfold dist; cbv zeta.
  replace ((x0 - (x0 + d)) * (x0 - (x0 + d)) + (y0 - y0) * (y0 - y0))
    with (d * d) by ring.
  apply sqrt_square; exact Hd.
Qed.

(** ** Ship *)

Lemma ship_update_size (cfg : Config) (dt : R) (keys : string -> bool)
  (this : Ship.t) :
  Ship.size (Ship.update cfg dt keys this) = Ship.size this.
Proof. unfold Ship.update; destruct (Ship.moved cfg dt keys this); reflexivity. Qed.

Lemma ship_update_x (cfg : Config) (dt : R) (keys : string -> bool)
  (this : Ship.t) :
  Ship.x (Ship.update cfg dt keys this)
  = clamp (fst (Ship.moved cfg dt keys this)) (Ship.size this)
      (canvasWidth cfg - Ship.size this).
Proof. unfold Ship.update; destruct (Ship.moved cfg dt keys this); reflexivity. Qed.

Lemma ship_update_y (cfg : Config) (dt : R) (keys : string -> bool)
  (this : Ship.t) :
  Ship.y (Ship.update cfg dt keys this)
  = clamp (snd (Ship.moved cfg dt keys this)) (Ship.size this)
      (canvasHeight cfg - Ship.size this).
Proof. unfold Ship.update; destruct (Ship.moved cfg dt keys this); reflexivity. Qed.

(** C4. Whatever the elapsed time (non-negative or not), the position the
    ship starts from and the keys held, after [Ship.update] the ship lies in
    [[radius, canvasWidth - radius] x [radius, canvasHeight - radius]],
    provided the field is wide and high enough to hold the ship at all. *)
Theorem ship_update_within_field (cfg : Config) (dt : R)
  (keys : string -> bool) (this : Ship.t) :
  Ship.size this <= canvasWidth cfg - Ship.size this ->
  Ship.size this <= canvasHeight cfg - Ship.size this ->
  let after := Ship.update cfg dt keys this in
  Ship.size after = Ship.size this
  /\ Ship.size after <= Ship.x after <= canvasWidth cfg - Ship.size after
  /\ Ship.size after <= Ship.y after <= canvasHeight cfg - Ship.size after.
Proof.
  intros Hw Hh after; subst after.
  rewrite ship_update_size, ship_update_x, ship_update_y.
  repeat split;
    try apply clamp_lower; apply clamp_upper; assumption.
Qed.

Lemma ship_update_within_field_witness :
  let keys := fun k : string => String.eqb k "ArrowLeft" in
  let after := Ship.update CONFIG 0.05 keys (Ship.new CONFIG 5 300) in
  Ship.size after = Ship.size (Ship.new CONFIG 5 300)
  /\ Ship.size after <= Ship.x after <= canvasWidth CONFIG - Ship.size after
  /\ Ship.size after <= Ship.y after <= canvasHeight CONFIG - Ship.size after.
Proof.
  intros keys after.
  apply (ship_update_within_field CONFIG 0.05 keys (Ship.new CONFIG 5 300));
    simpl; lra.
Defined.

Lemma sqrt2_sqr : sqrt 2 * sqrt 2 = 2.
Proof. apply sqrt_sqrt; lra. Qed.

Lemma sqrt2_pos : 0 < sqrt 2.
Proof. apply sqrt_lt_R0; lra. Qed.

Lemma direction_unfold (keys : string -> bool) :
  Ship.direction keys
  = let dx := (if left_held keys then 0 - 1 else 0) in
    let dx := (if right_held keys then dx + 1 else dx) in
    let dy := (if up_held keys then 0 - 1 else 0) in
    let dy := (if down_held keys then dy + 1 else dy) in
    if Rlt_dec 0 (sqrt (dx * dx + dy * dy))
    then (dx / sqrt (dx * dx + dy * dy), dy / sqrt (dx * dx + dy * dy))
    else (dx, dy).
Proof. reflexivity. Qed.

(** The movement vector has length one as soon as it is not zero. *)
Lemma direction_unit (keys : string -> bool) :
  two_orthogonal_held keys \/ one_direction_held keys ->
  fst (Ship.direction keys) * fst (Ship.direction keys)
  + snd (Ship.direction keys) * snd (Ship.direction keys) = 1.
Proof.
  intros Hheld; rewrite direction_unfold.
  assert (H1 : sqrt 1 = 1) by apply sqrt_1.
  pose proof sqrt2_sqr as H2; pose proof sqrt2_pos as H2pos.
  unfold two_orthogonal_held, one_direction_held in Hheld.
  destruct (left_held keys), (right_held keys), (up_held keys),
    (down_held keys); simpl in Hheld;
    try (exfalso; intuition congruence); cbv zeta;
    match goal with
    | |- context [sqrt ?e] =>
        first
          [ replace e with 1 by ring; rewrite H1
          | replace e with 2 by ring ]
    end;
    match goal with
    | |- context [Rlt_dec 0 ?e] => destruct (Rlt_dec 0 e); [| exfalso; lra]
    end; cbn [fst snd]; try (field_simplify; lra).
  all: field_simplify; try lra.
  all: replace (sqrt 2 ^ 2) with 2
         by (simpl; rewrite Rmult_1_r; symmetry; exact H2); lra.
Qed.

Lemma ship_moved_unfold (cfg : Config) (dt : R) (keys : string -> bool)
  (this : Ship.t) :
  Ship.moved cfg dt keys this
  = (Ship.x this + fst (Ship.direction keys) * shipSpeed cfg * dt,
     Ship.y this + snd (Ship.direction keys) * shipSpeed cfg * dt).
Proof. unfold Ship.moved; destruct (Ship.direction keys); reflexivity. Qed.

(** An update that the clamp does not cut short moves the ship by
    [shipSpeed * dt] whenever the movement vector is a unit vector. *)
Lemma travelled_unit (cfg : Config) (dt : R) (keys : string -> bool)
  (this : Ship.t) :
  0 <= dt -> 0 <= shipSpeed cfg ->
  two_orthogonal_held keys \/ one_direction_held keys ->
  clamp_idle cfg dt keys this ->
  travelled cfg dt keys this = shipSpeed cfg * dt.
Proof.
  intros Hdt Hspeed Hheld [Hx Hy].
  pose proof (direction_unit keys Hheld) as Hunit.
  unfold travelled; cbv zeta; rewrite Hx, Hy, ship_moved_unfold; cbn [fst snd].
  set (dx := fst (Ship.direction keys)) in *.
  set (dy := snd (Ship.direction keys)) in *.
  unfold dist; cbv zeta.
  replace ((Ship.x this - (Ship.x this + dx * shipSpeed cfg * dt))
           * (Ship.x this - (Ship.x this + dx * shipSpeed cfg * dt))
           + (Ship.y this - (Ship.y this + dy * shipSpeed cfg * dt))
             * (Ship.y this - (Ship.y this + dy * shipSpeed cfg * dt)))
    with ((dx * dx + dy * dy) * ((shipSpeed cfg * dt) * (shipSpeed cfg * dt)))
    by ring.
  rewrite Hunit, Rmult_1_l.
  apply sqrt_square, Rmult_le_pos; assumption.
Qed.

(** C6. For the same [dt >= 0], an update with exactly two orthogonal
    directions held and an update with a single direction held move the ship
    by the same distance, [shipSpeed * dt], when in both the clamp leaves the
    new position unchanged. *)
Theorem diagonal_speed_equals_axis_speed (cfg : Config) (dt : R)
  (diagonal axis : string -> bool) (this : Ship.t) :
  0 <= dt -> 0 <= shipSpeed cfg ->
  two_orthogonal_held diagonal -> one_direction_held axis ->
  clamp_idle cfg dt diagonal this -> clamp_idle cfg dt axis this ->
  travelled cfg dt diagonal this = travelled cfg dt axis this
  /\ travelled cfg dt diagonal this = shipSpeed cfg * dt.
Proof.
  intros Hdt Hspeed Hdiag Haxis Hcd Hca.
  rewrite (travelled_unit cfg dt diagonal this), (travelled_unit cfg dt axis this);
    auto.
Qed.

(** Away from the border by at least [shipSpeed * dt], nothing is clamped. *)
Lemma clamp_idle_inside (cfg : Config) (dt : R) (keys : string -> bool)
  (this : Ship.t) :
  0 <= dt -> 0 <= shipSpeed cfg ->
  two_orthogonal_held keys \/ one_direction_held keys ->
  Ship.size this + shipSpeed cfg * dt <= Ship.x this
    <= canvasWidth cfg - Ship.size this - shipSpeed cfg * dt ->
  Ship.size this + shipSpeed cfg * dt <= Ship.y this
    <= canvasHeight cfg - Ship.size this - shipSpeed cfg * dt ->
  clamp_idle cfg dt keys this.
Proof.
  intros Hdt Hspeed Hheld Hx Hy.
  pose proof (direction_unit keys Hheld) as Hunit.
  assert (Hv : 0 <= shipSpeed cfg * dt) by (apply Rmult_le_pos; assumption).
  unfold clamp_idle.
  rewrite ship_update_x, ship_update_y, ship_moved_unfold; cbn [fst snd].
  set (dx := fst (Ship.direction keys)) in *.
  set (dy := snd (Ship.direction keys)) in *.
  set (v := shipSpeed cfg * dt) in *.
  assert (Hdx : -1 <= dx <= 1) by nra.
  assert (Hdy : -1 <= dy <= 1) by nra.
  rewrite !Rmult_assoc; fold v.
  split; apply clamp_inside; nra.
Qed.

Lemma diagonal_speed_equals_axis_speed_witness :
  let diagonal := fun k : string => String.eqb k "ArrowUp" || String.eqb k "a" in
  let axis := fun k : string => String.eqb k "ArrowLeft" in
  let this := Ship.new CONFIG 300 300 in
  travelled CONFIG 0.05 diagonal this = travelled CONFIG 0.05 axis this
  /\ travelled CONFIG 0.05 diagonal this = shipSpeed CONFIG * 0.05.
Proof.
  intros diagonal axis this.
  assert (Hd : two_orthogonal_held diagonal) by (split; reflexivity).
  assert (Ha : one_direction_held axis) by (left; repeat split; reflexivity).
  apply (diagonal_speed_equals_axis_speed CONFIG 0.05 diagonal axis this);
    try assumption; try (simpl; lra);
    apply clamp_idle_inside; auto; simpl; lra.
Defined.

(** ** Asteroid *)

Lemma replay_base (history : list (R * R)) (this : Asteroid.t) :
  Asteroid.baseVx (replay history this) = Asteroid.baseVx this
  /\ Asteroid.baseVy (replay history this) = Asteroid.baseVy this.
Proof.
  unfold replay; revert this.
  induction history as [| step history IH]; intros this; simpl.
  - split; reflexivity.
  - destruct (IH (Asteroid.update (fst step) (snd step) this)) as [Hx Hy].
    rewrite Hx, Hy; split; reflexivity.
Qed.

(** C5. One update at multiplier [m] moves an asteroid by [m] times what the
    same update moves it at multiplier 1, for every [dt] and [m]; the
    velocity it uses is the base velocity times [m], the base velocity being
    the one fixed at spawn whatever updates, at whatever multipliers, came
    before. *)
Theorem asteroid_update_scales_with_multiplier (this : Asteroid.t)
  (history : list (R * R)) (dt m : R) :
  let before := replay history this in
  let scaled := Asteroid.update dt m before in
  let plain := Asteroid.update dt 1 before in
  Asteroid.x scaled - Asteroid.x before
    = m * (Asteroid.x plain - Asteroid.x before)
  /\ Asteroid.y scaled - Asteroid.y before
     = m * (Asteroid.y plain - Asteroid.y before)
  /\ Asteroid.vx scaled = Asteroid.baseVx this * m
  /\ Asteroid.vy scaled = Asteroid.baseVy this * m
  /\ Asteroid.x scaled = Asteroid.x before + Asteroid.baseVx this * m * dt
  /\ Asteroid.y scaled = Asteroid.y before + Asteroid.baseVy this * m * dt
  /\ Asteroid.baseVx scaled = Asteroid.baseVx this
  /\ Asteroid.baseVy scaled = Asteroid.baseVy this.
Proof.
  intros before scaled plain.
  destruct (replay_base history this) as [Hbx Hby]; fold before in Hbx, Hby.
  subst scaled plain; simpl; rewrite Hbx, Hby.
  repeat split; ring.
Qed.

(** ** Running code that draws random numbers *)

Lemma draws_only_ret {A : Type} (a : A) (P : A -> Prop) :
  P a -> draws_only (ret a) P.
Proof. intros HP w Hw; exists a, w; auto. Qed.

Lemma draws_only_bind {A B : Type} (m : M A) (k : A -> M B)
  (P : A -> Prop) (Q : B -> Prop) :
  draws_only m P -> (forall a, P a -> draws_only (k a) Q) ->
  draws_only (bind m k) Q.
Proof.
  intros Hm Hk w Hw.
  destruct (Hm w Hw) as (a & w1 & Hrun & HP & Hw1 & Hls1 & Hd1).
  destruct (Hk a HP w1 Hw1) as (b & w2 & Hrun2 & HQ & Hw2 & Hls2 & Hd2).
  exists b, w2; unfold bind; rewrite Hrun.
  split; [exact Hrun2 | split; [exact HQ | split; [exact Hw2 |]]].
  rewrite Hls2, Hd2; auto.
Qed.

Lemma draws_only_weaken {A : Type} (m : M A) (P Q : A -> Prop) :
  draws_only m P -> (forall a, P a -> Q a) -> draws_only m Q.
Proof.
  intros Hm HPQ w Hw.
  destruct (Hm w Hw) as (a & w1 & Hrun & HP & Hw1 & Hls1 & Hd1).
  exists a, w1; auto.
Qed.

Lemma draws_only_Math_random :
  draws_only Math_random (fun u => 0 <= u < 1).
Proof.
  intros w Hw; unfold Math_random; cbv zeta.
  eexists; eexists; split; [reflexivity |].
  split; [apply Hw | split; [intros n; apply Hw | split; reflexivity]].
Qed.

(** [rand(min, max)] is [min] plus a share [u < 1] of [max - min]. *)
Lemma draws_only_rand (min max : R) :
  draws_only (rand min max)
    (fun v => exists u, 0 <= u < 1 /\ v = u * (max - min) + min).
Proof.
  unfold rand.
  eapply draws_only_bind; [apply draws_only_Math_random |].
  intros u Hu; apply draws_only_ret; exists u; auto.
Qed.

Lemma draws_only_rand_range (min max : R) :
  min <= max -> draws_only (rand min max) (fun v => min <= v <= max).
Proof.
  intros Hle; eapply draws_only_weaken; [apply draws_only_rand |].
  intros v (u & Hu & ->); nra.
Qed.

Lemma floor_bounds (r : R) (lo hi : Z) :
  IZR lo <= r < IZR hi + 1 -> (lo <= Math_floor r <= hi)%Z.
Proof.
  intros [Hlo Hhi]; unfold Math_floor.
  destruct (base_Int_part r) as [Hle Hgt].
  split.
  - assert (H : (lo - 1 < Int_part r)%Z).
    { apply lt_IZR; rewrite minus_IZR; lra. }
    lia.
  - assert (H : (Int_part r < hi + 1)%Z).
    { apply lt_IZR; rewrite plus_IZR; lra. }
    lia.
Qed.

(** [randInt(min, max)] with whole bounds is a whole number from [min] to
    [max]. *)
Lemma draws_only_randInt (min max : Z) :
  (min <= max)%Z ->
  draws_only (randInt (IZR min) (IZR max)) (fun i => (min <= i <= max)%Z).
Proof.
  intros Hle; unfold randInt.
  eapply draws_only_bind; [apply draws_only_rand |].
  intros v (u & Hu & ->); apply draws_only_ret.
  apply floor_bounds.
  assert (H : IZR min <= IZR max) by (apply IZR_le; exact Hle).
  nra.
Qed.

Lemma draws_only_push_times {A : Type} (new_item : M A) (P : A -> Prop)
  (n : nat) (acc : list A) :
  draws_only new_item P ->
  draws_only (push_times n new_item acc)
    (fun l => exists batch,
         l = acc ++ batch /\ List.length batch = n /\ Forall P batch).
Proof.
  intros Hnew; revert acc.
  induction n as [| n IH]; intros acc; simpl.
  - apply draws_only_ret; exists []; rewrite app_nil_r; auto.
  - eapply draws_only_bind; [exact Hnew |].
    intros a Ha.
    eapply draws_only_weaken; [apply IH |].
    intros l (batch & -> & Hlen & Hall).
    exists (a :: batch); rewrite <- app_assoc; simpl.
    split; [reflexivity | split; [congruence | constructor; assumption]].
Qed.

Lemma draws_only_rand_any (min max : R) :
  draws_only (rand min max) (fun _ => True).
Proof.
  eapply draws_only_weaken; [apply draws_only_rand | trivial].
Qed.

Ltac draw_any :=
  eapply draws_only_bind; [apply draws_only_rand_any | intros ? _].

Ltac draw_within :=
  eapply draws_only_bind;
  [apply draws_only_rand_range; try lra | intros ? ?; cbv beta in * ].

(** ** Asteroid construction *)

Lemma build_vertices_runs (size0 : R) (vertCount : Z) (n i : nat)
  (acc : list Asteroid.vertex) :
  draws_only (Asteroid.build_vertices size0 vertCount i n acc)
    (fun l => List.length l = (List.length acc + n)%nat).
Proof.
  revert i acc; induction n as [| n IH]; intros i acc; simpl.
  - apply draws_only_ret; lia.
  - draw_any.
    eapply draws_only_weaken; [apply IH |].
    intros l Hl; rewrite Hl, length_app; simpl; lia.
Qed.

(** Where [_spawnFromEdge] puts an asteroid of size [size0], in terms of the
    share [u] drawn along the edge. *)
Lemma spawnFromEdge_runs (cfg : Config) (size0 rotation0 rotationSpeed0 : R)
  (vertices0 : list Asteroid.vertex) :
  draws_only
    (Asteroid._spawnFromEdge cfg size0 rotation0 rotationSpeed0 vertices0)
    (fun a =>
       Asteroid.size a = size0
       /\ exists u, 0 <= u < 1
           /\ ((Asteroid.y a = - (size0 + 5)
                /\ Asteroid.x a = u * canvasWidth cfg)
               \/ (Asteroid.x a = canvasWidth cfg + (size0 + 5)
                   /\ Asteroid.y a = u * canvasHeight cfg)
               \/ (Asteroid.y a = canvasHeight cfg + (size0 + 5)
                   /\ Asteroid.x a = u * canvasWidth cfg)
               \/ (Asteroid.x a = - (size0 + 5)
                   /\ Asteroid.y a = u * canvasHeight cfg))).
Proof.
  unfold Asteroid._spawnFromEdge; cbv zeta.
  eapply draws_only_bind; [apply (draws_only_randInt 0 3); lia |].
  intros edge Hedge; cbv beta in Hedge.
  assert (Hcases : (edge = 0 \/ edge = 1 \/ edge = 2 \/ edge = 3)%Z) by lia.
  eapply draws_only_bind with
    (P := fun placed =>
            let '(x0, y0, _, _) := placed in
            exists u, 0 <= u < 1
              /\ ((y0 = - (size0 + 5) /\ x0 = u * canvasWidth cfg)
                  \/ (x0 = canvasWidth cfg + (size0 + 5)
                      /\ y0 = u * canvasHeight cfg)
                  \/ (y0 = canvasHeight cfg + (size0 + 5)
                      /\ x0 = u * canvasWidth cfg)
                  \/ (x0 = - (size0 + 5) /\ y0 = u * canvasHeight cfg))).
  - destruct Hcases as [-> | [-> | [-> | ->]]];
      (eapply draws_only_bind; [apply draws_only_rand |]);
      intros v (u & Hu & ->); draw_any; draw_any; apply draws_only_ret;
      exists u; (split; [exact Hu |]).
    + left; split; [reflexivity | ring].
    + right; left; split; [reflexivity | ring].
    + right; right; left; split; [reflexivity | ring].
    + right; right; right; split; [reflexivity | ring].
  - intros [[[x0 y0] aimX] aimY] Hplaced.
    draw_any; draw_any; apply draws_only_ret.
    split; [reflexivity | exact Hplaced].
Qed.

Lemma randInt_runs (min max : R) : draws_only (randInt min max) (fun _ => True).
Proof.
  unfold randInt; draw_any; apply draws_only_ret; exact I.
Qed.

Lemma asteroid_new_runs (cfg : Config) :
  draws_only (Asteroid.new cfg)
    (fun a =>
       (asteroidMinSize cfg <= asteroidMaxSize cfg ->
        asteroidMinSize cfg <= Asteroid.size a <= asteroidMaxSize cfg)
       /\ (0 <= canvasWidth cfg -> 0 <= canvasHeight cfg ->
           placed_on_edge cfg a)).
Proof.
  unfold Asteroid.new; cbv zeta.
  eapply draws_only_bind; [apply draws_only_rand |].
  intros size0 (u0 & Hu0 & Hsize0).
  draw_any.
  eapply draws_only_bind; [apply randInt_runs | intros vertCount _].
  eapply draws_only_bind; [apply build_vertices_runs | intros vertices0 _].
  eapply draws_only_weaken; [apply spawnFromEdge_runs |].
  intros asteroid (Hs & u & Hu & Hplace); rewrite Hs; split.
  - intros Hle; subst size0; nra.
  - intros HW HH; unfold placed_on_edge; cbv zeta; rewrite Hs.
    destruct Hplace as [[E1 E2] | [[E1 E2] | [[E1 E2] | [E1 E2]]]];
      rewrite E1, E2;
      [left | right; left | right; right; left | right; right; right];
      (split; [reflexivity | nra]).
Qed.

Lemma placed_on_edge_on_screen (cfg : Config) (a : Asteroid.t) :
  0 <= canvasWidth cfg -> 0 <= canvasHeight cfg -> 0 <= Asteroid.size a ->
  placed_on_edge cfg a -> Asteroid.isOffScreen cfg a = false.
Proof.
  intros HW HH Hs Hp; unfold placed_on_edge in Hp; cbv zeta in Hp.
  unfold Asteroid.isOffScreen, gtb; cbv zeta.
  repeat rewrite orb_false_iff; repeat rewrite ltb_false.
  destruct Hp as [[E ?] | [[E ?] | [[E ?] | [E ?]]]]; rewrite E;
    repeat split; lra.
Qed.

(** C10. A freshly constructed asteroid lies [size + 5] outside one edge of
    the field, its other coordinate within the extent of the field, and is
    not off screen: construction returns such an asteroid whenever the draws
    are fair and the field and the size range are not degenerate. *)
Theorem fresh_asteroid_not_off_screen (cfg : Config) (w : World) :
  fair w ->
  0 <= canvasWidth cfg -> 0 <= canvasHeight cfg ->
  0 <= asteroidMinSize cfg <= asteroidMaxSize cfg ->
  exists (a : Asteroid.t) (w' : World),
    Asteroid.new cfg w = Returns (a, w')
    /\ placed_on_edge cfg a
    /\ Asteroid.isOffScreen cfg a = false.
Proof.
  intros Hw HW HH [Hmin Hsize].
  destruct (asteroid_new_runs cfg w Hw) as (a & w' & Hrun & [Hs Hp] & _).
  specialize (Hs Hsize); specialize (Hp HW HH).
  exists a, w'; split; [exact Hrun | split; [exact Hp |]].
  apply placed_on_edge_on_screen; try assumption; lra.
Qed.

Lemma steady_world_fair (u : R) (ls : LocalStorage) :
  0 <= u < 1 -> fair (steady_world u ls).
Proof. intros Hu n; exact Hu. Qed.

Lemma fresh_asteroid_not_off_screen_witness :
  exists (a : Asteroid.t) (w' : World),
    Asteroid.new CONFIG (steady_world 0.5 empty_storage) = Returns (a, w')
    /\ placed_on_edge CONFIG a
    /\ Asteroid.isOffScreen CONFIG a = false.
Proof.
  apply (fresh_asteroid_not_off_screen CONFIG (steady_world 0.5 empty_storage));
    [apply steady_world_fair; lra | simpl; lra ..].
Defined.

(** ** Score persistence *)

Lemma save_loadable (scores : list R) (ls : LocalStorage) :
  loadable ls -> loadable (ScoreManager._save scores ls).
Proof.
  intros Hl; unfold ScoreManager._save, ScoreManager.setItem.
  destruct (writable ls); [| exact Hl].
  unfold loadable, ScoreManager._load, ScoreManager.getItem; simpl.
  destruct (readable ls); eexists; reflexivity.
Qed.

Lemma loadable_as_array (ls : LocalStorage) :
  loadable ls ->
  exists l, ScoreManager.as_array (ScoreManager._load ls) = Returns l.
Proof. intros [l Hl]; exists l; rewrite Hl; reflexivity. Qed.

(** ** Running code that also uses the store *)

Lemma completes_ret {A : Type} (a : A) (P : A -> Prop) :
  P a -> completes (ret a) P.
Proof. intros HP w Hw Hl; exists a, w; auto. Qed.

Lemma completes_bind {A B : Type} (m : M A) (k : A -> M B)
  (P : A -> Prop) (Q : B -> Prop) :
  completes m P -> (forall a, P a -> completes (k a) Q) ->
  completes (bind m k) Q.
Proof.
  intros Hm Hk w Hw Hl.
  destruct (Hm w Hw Hl) as (a & w1 & Hrun & HP & Hw1 & Hl1).
  destruct (Hk a HP w1 Hw1 Hl1) as (b & w2 & Hrun2 & HQ & Hw2 & Hl2).
  exists b, w2; unfold bind; rewrite Hrun.
  split; [exact Hrun2 | split; [exact HQ | split; assumption]].
Qed.

Lemma completes_weaken {A : Type} (m : M A) (P Q : A -> Prop) :
  completes m P -> (forall a, P a -> Q a) -> completes m Q.
Proof.
  intros Hm HPQ w Hw Hl.
  destruct (Hm w Hw Hl) as (a & w1 & Hrun & HP & Hw1 & Hl1).
  exists a, w1; auto.
Qed.

Lemma draws_only_completes {A : Type} (m : M A) (P : A -> Prop) :
  draws_only m P -> completes m P.
Proof.
  intros Hm w Hw Hl.
  destruct (Hm w Hw) as (a & w1 & Hrun & HP & Hw1 & Hls & _).
  exists a, w1; rewrite Hls; auto.
Qed.

Lemma addScore_completes (cfg : Config) (score : R) :
  completes (Game.write_storage (ScoreManager.addScore cfg score))
    (fun _ => True).
Proof.
  intros w Hw Hl; unfold Game.write_storage, ScoreManager.addScore.
  destruct (loadable_as_array _ Hl) as [l ->].
  eexists; eexists; split; [reflexivity |].
  split; [exact I | split; [exact Hw | apply save_loadable; exact Hl]].
Qed.

Lemma getScores_completes :
  completes (Game.read_storage ScoreManager.getScores) (fun _ => True).
Proof.
  intros w Hw Hl; unfold Game.read_storage, ScoreManager.getScores.
  destruct (loadable_as_array _ Hl) as [l ->].
  eexists; eexists; split; [reflexivity | auto].
Qed.

Lemma getBest_completes :
  completes (Game.read_storage ScoreManager.getBest) (fun _ => True).
Proof.
  intros w Hw Hl.
  unfold Game.read_storage, ScoreManager.getBest, ScoreManager.getScores.
  destruct (loadable_as_array _ Hl) as [l ->].
  eexists; eexists; split; [reflexivity | auto].
Qed.

(** ** Explosion particles *)

Lemma particle_new_runs (x0 y0 : R) :
  draws_only (Particle.new x0 y0) (fun _ => True).
Proof.
  unfold Particle.new.
  replace (INR (List.length Particle.colors) - 1) with 5 by (simpl; lra).
  do 4 draw_any.
  eapply draws_only_bind.
  { apply (draws_only_randInt 0 5); lia. }
  intros i Hi; cbv beta in Hi.
  eapply draws_only_bind with (P := fun _ => True).
  - unfold Particle.color_at.
    assert (Hcases : (i = 0 \/ i = 1 \/ i = 2 \/ i = 3 \/ i = 4 \/ i = 5)%Z)
      by lia.
    destruct Hcases as [-> | [-> | [-> | [-> | [-> | ->]]]]]; simpl;
      apply draws_only_ret; exact I.
  - intros c _; apply draws_only_ret; exact I.
Qed.

(** ** The blocks of a frame *)

Lemma updateSurge_runs (cfg : Config) (dt : R) (this : Game.t) :
  draws_only (Game.updateSurge cfg dt this) (surge_step cfg dt this).
Proof.
  unfold Game.updateSurge; cbv zeta.
  destruct (Game.surgeActive this) eqn:Hactive.
  - destruct (Rle_dec _ 0) as [Hle | Hgt]; simpl in *.
    + eapply draws_only_bind; [apply draws_only_rand |].
      intros v (u & Hu & ->); apply draws_only_ret.
      apply (surge_ends cfg dt this u); assumption.
    + apply draws_only_ret, surge_goes_on; [assumption | lra].
  - destruct (Rle_dec _ 0) as [Hle | Hgt]; simpl in *.
    + eapply draws_only_bind; [apply draws_only_rand |].
      intros v (u & Hu & ->); apply draws_only_ret.
      apply (surge_begins cfg dt this u); assumption.
    + apply draws_only_ret, idle_goes_on; [assumption | lra].
Qed.

Lemma spawn_asteroids_runs (cfg : Config) (dt : R) (this : Game.t) :
  draws_only (Game.spawn_asteroids cfg dt this) (spawn_step cfg dt this).
Proof.
  unfold Game.spawn_asteroids; cbv zeta.
  destruct (Rle_dec _ _) as [Hle | Hgt]; simpl in *.
  - eapply draws_only_bind.
    { apply draws_only_push_times, asteroid_new_runs. }
    intros l (batch & -> & Hlen & _); apply draws_only_ret.
    apply (spawn_batch cfg dt this batch); assumption.
  - apply draws_only_ret, spawn_nothing; lra.
Qed.

Lemma triggerGameOver_completes (cfg : Config) (this : Game.t) :
  completes (Game.triggerGameOver cfg this) (ended cfg this).
Proof.
  unfold Game.triggerGameOver; cbv zeta.
  eapply completes_bind; [apply addScore_completes | intros _ _].
  eapply completes_bind; [apply getBest_completes | intros best _].
  eapply completes_bind; [apply getScores_completes | intros top _].
  eapply completes_bind.
  { apply draws_only_completes, draws_only_push_times, particle_new_runs. }
  intros exploded _; apply completes_ret.
  unfold ended; simpl; repeat split; reflexivity.
Qed.

Lemma updatePlaying_completes (cfg : Config) (dt : R) (this : Game.t) :
  completes (Game.updatePlaying cfg dt this) (frame cfg dt this).
Proof.
  unfold Game.updatePlaying; cbv zeta.
  eapply completes_bind.
  { apply draws_only_completes, updateSurge_runs. }
  intros surged Hsurged.
  eapply completes_bind.
  { apply draws_only_completes, spawn_asteroids_runs. }
  intros spawned Hspawned.
  destruct (Game.collision _ _) eqn:Hhit.
  - eapply completes_weaken; [apply triggerGameOver_completes |].
    intros after Hended; exists surged, spawned.
    split; [exact Hsurged | split; [exact Hspawned |]].
    cbv zeta; rewrite Hhit; exact Hended.
  - apply completes_ret; exists surged, spawned.
    split; [exact Hsurged | split; [exact Hspawned |]].
    cbv zeta; rewrite Hhit; reflexivity.
Qed.

Lemma surge_step_keeps (cfg : Config) (dt : R) (this after : Game.t) :
  surge_step cfg dt this after ->
  Game.state after = Game.state this
  /\ Game.ship after = Game.ship this
  /\ Game.asteroids after = Game.asteroids this
  /\ Game.spawnTimer after = Game.spawnTimer this
  /\ Game.elapsedTime after = Game.elapsedTime this.
Proof. intros Hstep; destruct Hstep; simpl; repeat split; reflexivity. Qed.

Lemma spawn_step_keeps (cfg : Config) (dt : R) (this after : Game.t) :
  spawn_step cfg dt this after ->
  Game.state after = Game.state this
  /\ Game.ship after = Game.ship this
  /\ Game.elapsedTime after = Game.elapsedTime this
  /\ Game.surgeActive after = Game.surgeActive this
  /\ Game.surgeTimer after = Game.surgeTimer this
  /\ Game.surgeDurationTimer after = Game.surgeDurationTimer this
  /\ Game.speedMultiplier after = Game.speedMultiplier this.
Proof. intros Hstep; destruct Hstep; simpl; repeat split; reflexivity. Qed.

(** ** Collision *)

Lemma hits_iff (ship0 : Ship.t) (asteroid : Asteroid.t) :
  Game.hits ship0 asteroid = true
  <-> dist (Ship.x ship0) (Ship.y ship0) (Asteroid.x asteroid)
        (Asteroid.y asteroid)
      < 0.8 * (Ship.size ship0 + Asteroid.size asteroid).
Proof.
  unfold Game.hits; cbv zeta; rewrite ltb_true.
  rewrite (Rmult_comm 0.8); reflexivity.
Qed.

(** The loop reports a collision exactly when some asteroid hits. *)
Lemma collision_iff (ship0 : Ship.t) (asteroids0 : list Asteroid.t) :
  Game.collision ship0 asteroids0 = true
  <-> exists asteroid,
        In asteroid asteroids0 /\ Game.hits ship0 asteroid = true.
Proof.
  induction asteroids0 as [| a rest IH]; simpl.
  - split; [discriminate | intros (? & [] & _)].
  - destruct (Game.hits ship0 a) eqn:Hhit.
    + split; [intros _; exists a; auto | reflexivity].
    + rewrite IH; split.
      * intros (b & Hin & Hb); exists b; auto.
      * intros (b & [<- | Hin] & Hb); [congruence | exists b; auto].
Qed.

(** A frame ends the run exactly when, once everything has moved, the
    collision loop finds a hit; otherwise the game goes on playing. *)
Lemma frame_outcome (cfg : Config) (dt : R) (this after : Game.t) :
  Game.state this = Game.playing ->
  frame cfg dt this after ->
  (Game.state after = Game.gameover
   <-> Game.collision (Game.ship after) (Game.asteroids after) = true)
  /\ (Game.state after = Game.playing
      <-> Game.collision (Game.ship after) (Game.asteroids after) = false).
Proof.
  intros Hplaying (surged & spawned & Hsurge & Hspawn & Hend).
  destruct (surge_step_keeps _ _ _ _ Hsurge) as (Hs1 & _).
  destruct (spawn_step_keeps _ _ _ _ Hspawn) as (Hs2 & _).
  cbv zeta in Hend; simpl in Hs1.
  destruct (Game.collision _ _) eqn:Hhit.
  - destruct Hend as (Hstate & _ & _ & Hship & Hasteroids & _).
    rewrite Hship, Hasteroids, Hhit, Hstate.
    split; split; intros; try reflexivity; discriminate.
  - subst after; rewrite Hhit; simpl.
    rewrite Hs2, Hs1, Hplaying.
    split; split; intros; try reflexivity; discriminate.
Qed.

(** An asteroid that does not move stays as it is, whatever the multiplier
    and the elapsed time. *)
Lemma resting_asteroid_update (dt m x0 y0 size0 : R) :
  Asteroid.update dt m (resting_asteroid x0 y0 size0)
  = resting_asteroid x0 y0 size0.
Proof.
  unfold Asteroid.update, resting_asteroid; cbv zeta.
  cbn [Asteroid.size Asteroid.rotation Asteroid.rotationSpeed
       Asteroid.vertices Asteroid.x Asteroid.y Asteroid.baseVx
       Asteroid.baseVy Asteroid.vx Asteroid.vy].
  f_equal; ring.
Qed.

Lemma resting_asteroid_on_screen (cfg : Config) (x0 y0 size0 : R) :
  - (size0 + 60) <= x0 <= canvasWidth cfg + (size0 + 60) ->
  - (size0 + 60) <= y0 <= canvasHeight cfg + (size0 + 60) ->
  Asteroid.isOffScreen cfg (resting_asteroid x0 y0 size0) = false.
Proof.
  intros Hx Hy; unfold Asteroid.isOffScreen, gtb; cbv zeta.
  cbn [resting_asteroid Asteroid.size Asteroid.x Asteroid.y].
  repeat rewrite orb_false_iff; repeat rewrite ltb_false.
  repeat split; lra.
Qed.

(** With no key held a ship inside the field stays where it is. *)
Lemma ship_update_no_key (cfg : Config) (dt : R) (this : Ship.t) :
  Ship.size this <= Ship.x this <= canvasWidth cfg - Ship.size this ->
  Ship.size this <= Ship.y this <= canvasHeight cfg - Ship.size this ->
  Ship.update cfg dt (fun _ => false) this = this.
Proof.
  intros Hx Hy; unfold Ship.update, Ship.moved, Ship.direction.
  cbv beta zeta; cbn [orb].
  destruct (Rlt_dec 0 (sqrt (0 * 0 + 0 * 0))).
  - replace (Ship.x this + 0 / sqrt (0 * 0 + 0 * 0) * shipSpeed cfg * dt)
      with (Ship.x this) by (unfold Rdiv; ring).
    replace (Ship.y this + 0 / sqrt (0 * 0 + 0 * 0) * shipSpeed cfg * dt)
      with (Ship.y this) by (unfold Rdiv; ring).
    rewrite !clamp_inside by assumption.
    destruct this; reflexivity.
  - replace (Ship.x this + 0 * shipSpeed cfg * dt) with (Ship.x this) by ring.
    replace (Ship.y this + 0 * shipSpeed cfg * dt) with (Ship.y this) by ring.
    rewrite !clamp_inside by assumption.
    destruct this; reflexivity.
Qed.

(** C1. The collision check of a frame of play signals the terminal
    collision exactly when the distance between the centres of the ship and
    of an asteroid is strictly below 0.8 times the sum of their radii.  The
    ship is the one the frame has moved; the asteroids are those of the
    state the frame starts from and those it spawns, moved at the multiplier
    the surge block leaves and not culled.  The frame ends in the game-over
    state exactly when one of them is that close, and goes on playing
    exactly when none is: an asteroid at the very position of the ship ends
    the run, asteroids at a distance of exactly 0.8 times the sum do not,
    one at 0.79 times the sum does. *)
Theorem collision_is_strict_hitbox_test (cfg : Config) (dt : R)
  (this : Game.t) (w : World) :
  fair w -> loadable (localStorage w) -> Game.state this = Game.playing ->
  exists (after : Game.t) (w' : World) (batch : list Asteroid.t),
    Game.updatePlaying cfg dt this w = Returns (after, w')
    /\ (Game.spawnTimer this + dt * 1000 < asteroidSpawnInterval cfg ->
        batch = [])
    /\ (asteroidSpawnInterval cfg <= Game.spawnTimer this + dt * 1000 ->
        List.length batch = asteroidBatchSize cfg)
    /\ (0 < countdown this - dt * 1000 ->
        Game.speedMultiplier after = Game.speedMultiplier this)
    /\ (countdown this - dt * 1000 <= 0 ->
        Game.speedMultiplier after
        = if Game.surgeActive this then 1 else surgeMultiplier cfg)
    /\ let ship0 := Ship.update cfg dt (Game.keys this) (Game.ship this) in
       let present :=
         Game.update_asteroids cfg dt (Game.speedMultiplier after)
           (Game.asteroids this ++ batch) in
       let d := fun a : Asteroid.t =>
         dist (Ship.x ship0) (Ship.y ship0) (Asteroid.x a) (Asteroid.y a) in
       let radii := fun a : Asteroid.t => Ship.size ship0 + Asteroid.size a in
       Game.ship after = ship0
       /\ Game.asteroids after = present
       /\ (Game.state after = Game.gameover
           <-> exists a, In a present /\ d a < 0.8 * radii a)
       /\ (Game.state after = Game.playing
           <-> forall a, In a present -> 0.8 * radii a <= d a)
       /\ (forall a, In a present -> 0 < radii a ->
           Asteroid.x a = Ship.x ship0 -> Asteroid.y a = Ship.y ship0 ->
           Game.state after = Game.gameover)
       /\ ((forall a, In a present -> d a = 0.8 * radii a) ->
           Game.state after = Game.playing)
       /\ (forall a, In a present -> 0 < radii a -> d a = 0.79 * radii a ->
           Game.state after = Game.gameover).
Proof.
  intros Hw Hl Hplaying.
  destruct (updatePlaying_completes cfg dt this w Hw Hl)
    as (after & w' & Hrun & Hframe & _).
  destruct (frame_outcome cfg dt this after Hplaying Hframe)
    as [Hover Hgoes].
  destruct Hframe as (surged & spawned & Hsurge & Hspawn & Hend).
  destruct (surge_step_keeps _ _ _ _ Hsurge) as (_ & Hship1 & Ha1 & Ht1 & _).
  destruct (spawn_step_keeps _ _ _ _ Hspawn)
    as (_ & Hship2 & _ & _ & _ & _ & Hm2).
  simpl in Hship1, Ha1, Ht1.
  assert (Hbatch :
            exists batch,
              Game.asteroids spawned = Game.asteroids this ++ batch
              /\ (Game.spawnTimer this + dt * 1000 < asteroidSpawnInterval cfg
                  -> batch = [])
              /\ (asteroidSpawnInterval cfg
                  <= Game.spawnTimer this + dt * 1000 ->
                  List.length batch = asteroidBatchSize cfg)).
  { destruct Hspawn as [batch Hle Hlen | Hlt]; simpl; rewrite Ha1.
    - exists batch; rewrite Ht1 in Hle.
      split; [reflexivity | split; [intros; lra | intros; exact Hlen]].
    - exists []; rewrite app_nil_r; rewrite Ht1 in Hlt.
      split; [reflexivity | split; [reflexivity | intros; lra]]. }
  destruct Hbatch as (batch & Hbatch & Hnone & Hfull).
  assert (Hafter :
            Game.ship after = Game.ship spawned
            /\ Game.asteroids after
               = Game.update_asteroids cfg dt (Game.speedMultiplier spawned)
                   (Game.asteroids spawned)
            /\ Game.speedMultiplier after = Game.speedMultiplier spawned).
  { cbv zeta in Hend; destruct (Game.collision _ _).
    - destruct Hend as (_ & _ & _ & Hs & Ha & _ & _ & _ & _ & Hm).
      simpl in Hs, Ha, Hm; auto.
    - subst after; simpl; auto. }
  destruct Hafter as (Hs & Ha & Hm).
  assert (Hmult :
            (0 < countdown this - dt * 1000 ->
             Game.speedMultiplier surged = Game.speedMultiplier this)
            /\ (countdown this - dt * 1000 <= 0 ->
                Game.speedMultiplier surged
                = if Game.surgeActive this then 1 else surgeMultiplier cfg)).
  { unfold countdown.
    destruct Hsurge as [Hact Hgo | u Hact Hle Hu | Hact Hgo | u Hact Hle Hu];
      simpl in *; rewrite Hact; split; intros; try reflexivity; lra. }
  destruct Hmult as [Hkeeps Hturns].
  rewrite Hship2, Hship1 in Hs.
  rewrite Hbatch, <- Hm in Ha.
  rewrite Hm2 in Hm.
  exists after, w', batch.
  split; [exact Hrun |].
  split; [exact Hnone |].
  split; [exact Hfull |].
  split; [intros Hgo; rewrite Hm; apply Hkeeps, Hgo |].
  split; [intros Hout; rewrite Hm; apply Hturns, Hout |].
  cbv zeta; rewrite <- Hs, <- Ha.
  assert (Hany :
            Game.state after = Game.gameover
            <-> exists a,
                  In a (Game.asteroids after)
                  /\ dist (Ship.x (Game.ship after)) (Ship.y (Game.ship after))
                       (Asteroid.x a) (Asteroid.y a)
                     < 0.8 * (Ship.size (Game.ship after) + Asteroid.size a)).
  { rewrite Hover, collision_iff; split; intros (a & Hin & Hhit);
      exists a; (split; [exact Hin |]); apply hits_iff; exact Hhit. }
  assert (Hnone' :
            Game.state after = Game.playing
            <-> forall a,
                  In a (Game.asteroids after) ->
                  0.8 * (Ship.size (Game.ship after) + Asteroid.size a)
                  <= dist (Ship.x (Game.ship after))
                       (Ship.y (Game.ship after))
                       (Asteroid.x a) (Asteroid.y a)).
  { rewrite Hgoes; split.
    - intros Hno a Hin; apply Rnot_lt_le; intros Hlt.
      assert (Hyes :
                Game.collision (Game.ship after) (Game.asteroids after)
                = true)
        by (apply collision_iff; exists a; split;
            [exact Hin | apply hits_iff; exact Hlt]).
      congruence.
    - intros Hall; apply not_true_is_false; intros Hyes.
      apply collision_iff in Hyes; destruct Hyes as (a & Hin & Hhit).
      apply hits_iff in Hhit; specialize (Hall a Hin); lra. }
  split; [reflexivity |].
  split; [reflexivity |].
  split; [exact Hany |].
  split; [exact Hnone' |].
  split.
  { intros a Hin Hr Hx Hy; apply Hany; exists a; split; [exact Hin |].
    rewrite Hx, Hy, dist_same; lra. }
  split.
  { intros Hall; apply Hnone'; intros a Hin; rewrite (Hall a Hin); lra. }
  intros a Hin Hr Hd; apply Hany; exists a; split; [exact Hin | lra].
Qed.

Lemma empty_storage_loadable : loadable empty_storage.
Proof. exists []; reflexivity. Qed.

(** One frame of 50 ms on a run that has just started, no key held, the
    ship inside the field and every asteroid at rest on the screen: no batch
    is spawned, and ship and asteroids stay where they are. *)
Ltac still_frame run H :=
  let after := fresh "after" in
  let w' := fresh "w'" in
  let batch := fresh "batch" in
  let Hrun := fresh "Hrun" in
  let Hnone := fresh "Hnone" in
  let Hrest := fresh "Hrest" in
  destruct H
    as (after & w' & batch & Hrun & Hnone & _ & _ & _ & Hrest);
    [apply steady_world_fair; lra | apply empty_storage_loadable
    | reflexivity |];
  rewrite Hnone in Hrest by (simpl; lra);
  cbv zeta in Hrest; unfold run in Hrest;
  cbn [Game.keys Game.ship Game.asteroids Game.set_asteroids Game.set_ship
       fresh_run app] in Hrest;
  rewrite ship_update_no_key in Hrest by (simpl; lra);
  unfold Game.update_asteroids in Hrest;
  cbn [fold_right] in Hrest; cbv zeta in Hrest;
  rewrite ?resting_asteroid_update in Hrest;
  rewrite ?resting_asteroid_on_screen in Hrest by (simpl; lra);
  exists after, w'; split; [exact Hrun |].

Lemma collision_is_strict_hitbox_test_witness :
  let w := steady_world 0 empty_storage in
  let run := fun asteroids0 : list Asteroid.t =>
    Game.set_asteroids asteroids0
      (Game.set_ship (Ship.new CONFIG 300 300) (fresh_run CONFIG 5000)) in
  let ends := fun (asteroids0 : list Asteroid.t) (state0 : Game.State) =>
    exists (after : Game.t) (w' : World),
      Game.updatePlaying CONFIG 0.05 (run asteroids0) w = Returns (after, w')
      /\ Game.state after = state0 in
  ends [resting_asteroid 300 300 6] Game.gameover
  /\ ends [resting_asteroid (300 + 8) 300 6] Game.playing
  /\ ends [resting_asteroid (300 + 7.9) 300 6] Game.gameover
  /\ ends [resting_asteroid (300 + 200) 300 6; resting_asteroid 300 300 6]
       Game.gameover
  /\ ends [resting_asteroid (300 + 200) 300 6] Game.playing
  /\ ends [] Game.playing.
Proof.
  intros w run ends; unfold ends.
  split; [| split; [| split; [| split; [| split]]]].
  - still_frame run
      (collision_is_strict_hitbox_test CONFIG 0.05
         (run [resting_asteroid 300 300 6]) w).
    destruct Hrest as (_ & _ & _ & _ & Hsame & _).
    apply (Hsame (resting_asteroid 300 300 6));
      [left; reflexivity | simpl; lra | reflexivity | reflexivity].
  - still_frame run
      (collision_is_strict_hitbox_test CONFIG 0.05
         (run [resting_asteroid (300 + 8) 300 6]) w).
    destruct Hrest as (_ & _ & _ & _ & _ & Hedge & _).
    apply Hedge; intros a [<- | []].
    simpl; rewrite dist_horizontal; lra.
  - still_frame run
      (collision_is_strict_hitbox_test CONFIG 0.05
         (run [resting_asteroid (300 + 7.9) 300 6]) w).
    destruct Hrest as (_ & _ & _ & _ & _ & _ & Hnear).
    apply (Hnear (resting_asteroid (300 + 7.9) 300 6));
      [left; reflexivity | simpl; lra |].
    simpl; rewrite dist_horizontal; lra.
  - still_frame run
      (collision_is_strict_hitbox_test CONFIG 0.05
         (run [resting_asteroid (300 + 200) 300 6; resting_asteroid 300 300 6]) w).
    destruct Hrest as (_ & _ & Hany & _).
    apply Hany; exists (resting_asteroid 300 300 6).
    split; [right; left; reflexivity |].
    simpl; rewrite dist_same; lra.
  - still_frame run
      (collision_is_strict_hitbox_test CONFIG 0.05
         (run [resting_asteroid (300 + 200) 300 6]) w).
    destruct Hrest as (_ & _ & _ & Hnone' & _).
    apply Hnone'; intros a [<- | []].
    simpl; rewrite dist_horizontal; lra.
  - still_frame run
      (collision_is_strict_hitbox_test CONFIG 0.05 (run []) w).
    destruct Hrest as (_ & _ & _ & Hnone' & _).
    apply Hnone'; intros a [].
Defined.

(** ** Spawning *)



(** ** Surge controller *)

Lemma startGame_runs (cfg : Config) (before : Game.t) :
  draws_only (Game.startGame cfg before)
    (fun this =>
       exists u, 0 <= u < 1
         /\ Game.surgeTimer this = drawn_in (surgeInterval cfg) u
         /\ Game.surgeActive this = false
         /\ Game.speedMultiplier this = 1
         /\ Game.state this = Game.playing).
Proof.
  unfold Game.startGame; cbv zeta.
  eapply draws_only_bind; [apply draws_only_rand |].
  intros v (u & Hu & ->); apply draws_only_ret.
  exists u; simpl; auto.
Qed.

Lemma drawn_in_range (range : R * R) (u : R) :
  fst range <= snd range -> 0 <= u < 1 ->
  fst range <= drawn_in range u <= snd range.
Proof. intros Hle Hu; unfold drawn_in; nra. Qed.

(** A state that agrees with a consistent one on the surge fields is
    consistent. *)
Lemma surge_consistent_fields (this other : Game.t) :
  Game.surgeActive other = Game.surgeActive this ->
  Game.surgeTimer other = Game.surgeTimer this ->
  Game.surgeDurationTimer other = Game.surgeDurationTimer this ->
  Game.speedMultiplier other = Game.speedMultiplier this ->
  surge_consistent this -> surge_consistent other.
Proof.
  unfold surge_consistent, countdown; intros -> -> -> ->; trivial.
Qed.

Lemma surge_step_consistent (cfg : Config) (dt : R) (this after : Game.t) :
  surgeMultiplier cfg <> 1 ->
  0 <= fst (surgeInterval cfg) <= snd (surgeInterval cfg) ->
  0 <= fst (surgeDuration cfg) <= snd (surgeDuration cfg) ->
  surge_consistent this ->
  surge_step cfg dt this after ->
  surge_consistent after.
Proof.
  intros Hm [Hi0 Hi] [Hd0 Hd] [Hiff Hcount] Hstep.
  unfold surge_consistent, countdown in *.
  destruct Hstep as [Ha Hpos | u Ha Hle Hu | Ha Hpos | u Ha Hle Hu]; simpl;
    try rewrite Ha in *.
  - split; [exact Hiff | lra].
  - split; [tauto |].
    pose proof (drawn_in_range (surgeInterval cfg) u Hi Hu); lra.
  - split; [exact Hiff | lra].
  - split; [split; intros; [contradiction | discriminate] |].
    pose proof (drawn_in_range (surgeDuration cfg) u Hd Hu); lra.
Qed.

Lemma reachable_consistent (cfg : Config) (this : Game.t) (w : World) :
  surgeMultiplier cfg <> 1 ->
  0 <= fst (surgeInterval cfg) <= snd (surgeInterval cfg) ->
  0 <= fst (surgeDuration cfg) <= snd (surgeDuration cfg) ->
  reachable cfg this w -> fair w /\ surge_consistent this.
Proof.
  intros Hm Hi Hd Hreach.
  induction Hreach as
    [before this w w' Hw Hrun
    | dt this after w w' Hreach [Hw IH] Hrun
    | dt this after w w' Hreach [Hw IH] Hl Hrun].
  - destruct (startGame_runs cfg before w Hw)
      as (this1 & w1 & Hrun1 & (u & Hu & Ht & Ha & Hs & _) & Hw1 & _).
    rewrite Hrun in Hrun1; injection Hrun1 as <- <-.
    split; [exact Hw1 |].
    unfold surge_consistent, countdown; rewrite Ha, Hs, Ht.
    split; [tauto |].
    pose proof (drawn_in_range (surgeInterval cfg) u (proj2 Hi) Hu); lra.
  - destruct (updateSurge_runs cfg dt this w Hw)
      as (this1 & w1 & Hrun1 & Hstep & Hw1 & _).
    rewrite Hrun in Hrun1; injection Hrun1 as <- <-.
    split; [exact Hw1 |].
    apply (surge_step_consistent cfg dt this after); assumption.
  - destruct (updatePlaying_completes cfg dt this w Hw Hl)
      as (this1 & w1 & Hrun1 & Hframe & Hw1 & _).
    rewrite Hrun in Hrun1; injection Hrun1 as <- <-.
    split; [exact Hw1 |].
    destruct Hframe as (surged & spawned & Hsurge & Hspawn & Hend).
    assert (Hsurged : surge_consistent surged).
    { apply (surge_step_consistent cfg dt _ surged Hm Hi Hd) in Hsurge;
        [exact Hsurge |].
      revert IH; apply surge_consistent_fields; reflexivity. }
    destruct (spawn_step_keeps _ _ _ _ Hspawn)
      as (_ & _ & _ & Ha & Ht & Hdur & Hmul).
    assert (Hspawned : surge_consistent spawned).
    { revert Hsurged; apply surge_consistent_fields; assumption. }
    cbv zeta in Hend; destruct (Game.collision _ _).
    + destruct Hend as (_ & _ & _ & _ & _ & _ & Ha' & Ht' & Hdur' & Hmul').
      revert Hspawned; apply surge_consistent_fields; assumption.
    + subst after; revert Hspawned; apply surge_consistent_fields; reflexivity.
Qed.

(** The two calls of [updateSurge] that change the state, as equations. *)
Lemma updateSurge_ends_eq (cfg : Config) (dt : R) (this : Game.t) (w : World) :
  Game.surgeActive this = true ->
  Game.surgeDurationTimer this - dt * 1000 <= 0 ->
  Game.updateSurge cfg dt this w
  = Returns
      (Game.set_surgeTimer (drawn_in (surgeInterval cfg) (current_draw w))
         (Game.set_speedMultiplier 1
            (Game.set_surgeActive false
               (Game.set_surgeDurationTimer
                  (Game.surgeDurationTimer this - dt * 1000) this))),
       after_draw w).
Proof.
  intros Ha Hle; unfold Game.updateSurge; cbv zeta; rewrite Ha.
  destruct (Rle_dec _ 0) as [_ | Hgt]; [reflexivity |].
  exfalso; apply Hgt; exact Hle.
Qed.

Lemma updateSurge_begins_eq (cfg : Config) (dt : R) (this : Game.t)
  (w : World) :
  Game.surgeActive this = false ->
  Game.surgeTimer this - dt * 1000 <= 0 ->
  Game.updateSurge cfg dt this w
  = Returns
      (Game.set_surgeDurationTimer
         (drawn_in (surgeDuration cfg) (current_draw w))
         (Game.set_speedMultiplier (surgeMultiplier cfg)
            (Game.set_surgeActive true
               (Game.set_surgeTimer (Game.surgeTimer this - dt * 1000) this))),
       after_draw w).
Proof.
  intros Ha Hle; unfold Game.updateSurge; cbv zeta; rewrite Ha.
  destruct (Rle_dec _ 0) as [_ | Hgt]; [reflexivity |].
  exfalso; apply Hgt; exact Hle.
Qed.

Lemma after_draw_fair (w : World) : fair w -> fair (after_draw w).
Proof. intros Hw n; apply Hw. Qed.

(** C3. In every state a run reaches from its start through updates of the
    surge controller (alone or within frames of play), the speed multiplier
    is 1 exactly when no surge is active, and the countdown of the current
    state is not negative; the configured surge multiplier is not 1 and the
    configured ranges start at or above 0 and are not empty. *)
Theorem surge_state_consistent (cfg : Config) (this : Game.t) (w : World) :
  surgeMultiplier cfg <> 1 ->
  0 <= fst (surgeInterval cfg) <= snd (surgeInterval cfg) ->
  0 <= fst (surgeDuration cfg) <= snd (surgeDuration cfg) ->
  reachable cfg this w ->
  (Game.speedMultiplier this = 1 <-> Game.surgeActive this = false)
  /\ 0 <= countdown this.
Proof.
  intros Hm Hi Hd Hreach.
  apply (reachable_consistent cfg this w Hm Hi Hd Hreach).
Qed.

Lemma surge_state_consistent_witness :
  let started := fresh_run CONFIG (drawn_in (surgeInterval CONFIG) 0) in
  let w1 :=
    {| rng := {| draws := fun _ => 0; pos := 1 |};
       localStorage := empty_storage |} in
  let surging :=
    Game.set_surgeDurationTimer (drawn_in (surgeDuration CONFIG) 0)
      (Game.set_speedMultiplier (surgeMultiplier CONFIG)
         (Game.set_surgeActive true
            (Game.set_surgeTimer (Game.surgeTimer started - 5 * 1000)
               started))) in
  let idle :=
    Game.set_surgeTimer (drawn_in (surgeInterval CONFIG) 0)
      (Game.set_speedMultiplier 1
         (Game.set_surgeActive false
            (Game.set_surgeDurationTimer
               (Game.surgeDurationTimer surging - 1.5 * 1000) surging))) in
  Game.startGame CONFIG (fresh_run CONFIG 0) (steady_world 0 empty_storage)
  = Returns (started, w1)
  /\ Game.updateSurge CONFIG 5 started w1 = Returns (surging, after_draw w1)
  /\ Game.surgeActive surging = true
  /\ ((Game.speedMultiplier surging = 1 <-> Game.surgeActive surging = false)
      /\ 0 <= countdown surging)
  /\ Game.updateSurge CONFIG 1.5 surging (after_draw w1)
     = Returns (idle, after_draw (after_draw w1))
  /\ Game.surgeActive idle = false
  /\ ((Game.speedMultiplier idle = 1 <-> Game.surgeActive idle = false)
      /\ 0 <= countdown idle)
  /\ exists (after : Game.t) (w' : World),
       Game.updatePlaying CONFIG 0.05 surging (after_draw w1)
       = Returns (after, w')
       /\ Game.surgeActive after = true
       /\ ((Game.speedMultiplier after = 1
            <-> Game.surgeActive after = false)
           /\ 0 <= countdown after).
Proof.
  intros started w1 surging idle.
  assert (Hm : surgeMultiplier CONFIG <> 1) by (simpl; lra).
  assert (Hi : 0 <= fst (surgeInterval CONFIG) <= snd (surgeInterval CONFIG))
    by (simpl; lra).
  assert (Hd : 0 <= fst (surgeDuration CONFIG) <= snd (surgeDuration CONFIG))
    by (simpl; lra).
  assert (Hstart :
            Game.startGame CONFIG (fresh_run CONFIG 0)
              (steady_world 0 empty_storage) = Returns (started, w1))
    by reflexivity.
  assert (Hbegin :
            Game.updateSurge CONFIG 5 started w1
            = Returns (surging, after_draw w1)).
  { rewrite (updateSurge_begins_eq CONFIG 5 started w1);
      [reflexivity | reflexivity |].
    unfold started, drawn_in; simpl; lra. }
  assert (Hend :
            Game.updateSurge CONFIG 1.5 surging (after_draw w1)
            = Returns (idle, after_draw (after_draw w1))).
  { rewrite (updateSurge_ends_eq CONFIG 1.5 surging (after_draw w1));
      [reflexivity | reflexivity |].
    unfold surging, drawn_in; simpl; lra. }
  assert (Hw0 : fair (steady_world 0 empty_storage))
    by (apply steady_world_fair; lra).
  assert (Hw2 : fair (after_draw w1)) by (intros n; simpl; lra).
  assert (Hstarted : reachable CONFIG started w1)
    by exact (reachable_start CONFIG _ started _ w1 Hw0 Hstart).
  assert (Hsurging : reachable CONFIG surging (after_draw w1))
    by exact (reachable_surge CONFIG 5 started surging w1 _ Hstarted Hbegin).
  assert (Hidle : reachable CONFIG idle (after_draw (after_draw w1)))
    by exact (reachable_surge CONFIG 1.5 surging idle _ _ Hsurging Hend).
  destruct (updatePlaying_completes CONFIG 0.05 surging (after_draw w1) Hw2
              empty_storage_loadable)
    as (after & w' & Hrun & Hframe & _).
  assert (Hafter : reachable CONFIG after w')
    by exact (reachable_frame CONFIG 0.05 surging after _ w' Hsurging
                empty_storage_loadable Hrun).
  split; [exact Hstart |].
  split; [exact Hbegin |].
  split; [reflexivity |].
  split;
    [exact (surge_state_consistent CONFIG surging _ Hm Hi Hd Hsurging) |].
  split; [exact Hend |].
  split; [reflexivity |].
  split; [exact (surge_state_consistent CONFIG idle _ Hm Hi Hd Hidle) |].
  exists after, w'; split; [exact Hrun |].
  split; [| exact (surge_state_consistent CONFIG after w' Hm Hi Hd Hafter)].
  destruct Hframe as (surged & spawned & Hsurge & Hspawn & Hlast).
  destruct (spawn_step_keeps _ _ _ _ Hspawn) as (_ & _ & _ & Ha & _).
  assert (Hsurged : Game.surgeActive surged = true).
  { inversion Hsurge as [Hact Hpos | u Hact Hle Hu | Hact Hpos | u Hact Hle Hu];
      simpl in *; try discriminate; try reflexivity.
    unfold drawn_in in Hle; simpl in Hle; lra. }
  cbv zeta in Hlast; destruct (Game.collision _ _).
  - destruct Hlast as (_ & _ & _ & _ & _ & _ & Ha' & _).
    rewrite Ha'; simpl; rewrite Ha; exact Hsurged.
  - subst after; simpl; rewrite Ha; exact Hsurged.
Defined.

Lemma total_ms_nonneg (dts : list R) :
  Forall (fun dt => 0 <= dt) dts -> 0 <= total_ms dts.
Proof.
  induction 1 as [| dt rest Hdt _ IH]; simpl; lra.
Qed.

Lemma total_ms_app (pre post : list R) :
  total_ms (pre ++ post) = total_ms pre + total_ms post.
Proof.
  induction pre as [| dt pre IH]; simpl; [| rewrite IH]; ring.
Qed.

Lemma feedSurge_app (cfg : Config) (pre post : list R) (this : Game.t)
  (w : World) :
  Game.feedSurge cfg (pre ++ post) this w
  = bind (Game.feedSurge cfg pre this) (Game.feedSurge cfg post) w.
Proof.
  revert this w; induction pre as [| dt pre IH]; intros this w; simpl.
  - reflexivity.
  - unfold bind; destruct (Game.updateSurge cfg dt this w) as [[a w1] | |];
      [rewrite IH |..]; reflexivity.
Qed.

Lemma feedSurge_cons (cfg : Config) (dt : R) (rest : list R) (this : Game.t)
  (w : World) :
  Game.feedSurge cfg (dt :: rest) this w
  = bind (Game.updateSurge cfg dt this) (Game.feedSurge cfg rest) w.
Proof. reflexivity. Qed.

Lemma feedSurge_app_runs (cfg : Config) (pre post : list R) (this : Game.t)
  (P Q : Game.t -> Prop) :
  draws_only (Game.feedSurge cfg pre this) P ->
  (forall mid, P mid -> draws_only (Game.feedSurge cfg post mid) Q) ->
  draws_only (Game.feedSurge cfg (pre ++ post) this) Q.
Proof.
  intros Hpre Hpost w Hw; rewrite feedSurge_app.
  apply (draws_only_bind _ _ P Q Hpre Hpost w Hw).
Qed.

(** While the time fed stays below the countdown, the state stays what it
    is and its countdown goes down by the time fed. *)
Lemma feedSurge_below (cfg : Config) (dts : list R) (this : Game.t) :
  Forall (fun dt => 0 <= dt) dts ->
  total_ms dts < countdown this ->
  draws_only (Game.feedSurge cfg dts this)
    (fun after =>
       Game.surgeActive after = Game.surgeActive this
       /\ Game.speedMultiplier after = Game.speedMultiplier this
       /\ countdown after = countdown this - total_ms dts).
Proof.
  intros Hdts; revert this.
  induction Hdts as [| dt rest Hdt Hrest IH]; intros this Hbelow; simpl in *.
  - apply draws_only_ret; repeat split; ring.
  - pose proof (total_ms_nonneg rest Hrest) as Hnn.
    eapply draws_only_bind; [apply updateSurge_runs |].
    intros mid Hstep.
    assert (Hmid : Game.surgeActive mid = Game.surgeActive this
                   /\ Game.speedMultiplier mid = Game.speedMultiplier this
                   /\ countdown mid = countdown this - dt * 1000).
    { unfold countdown in *.
      destruct Hstep as [Ha Hpos | u Ha Hle Hu | Ha Hpos | u Ha Hle Hu];
        simpl; rewrite Ha in *; try lra; repeat split; reflexivity. }
    destruct Hmid as (Ha & Hm & Hc).
    eapply draws_only_weaken; [apply IH; lra |].
    intros after (Ha' & Hm' & Hc'); rewrite Ha', Hm', Hc', Ha, Hm, Hc.
    repeat split; ring.
Qed.

(** Fed exactly its countdown, in calls of any non-negative sizes, an idle
    controller ends with an active surge. *)
Lemma feedSurge_exact (cfg : Config) (dts : list R) (this : Game.t) :
  0 < fst (surgeDuration cfg) <= snd (surgeDuration cfg) ->
  Forall (fun dt => 0 <= dt) dts ->
  Game.surgeActive this = false ->
  0 < Game.surgeTimer this ->
  total_ms dts = Game.surgeTimer this ->
  draws_only (Game.feedSurge cfg dts this)
    (fun after =>
       Game.surgeActive after = true
       /\ Game.speedMultiplier after = surgeMultiplier cfg).
Proof.
  intros [Hd0 Hd] Hdts; revert this.
  induction Hdts as [| dt rest Hdt Hrest IH]; intros this Hidle Hpos Htotal;
    simpl in *; [lra |].
  pose proof (total_ms_nonneg rest Hrest) as Hnn.
  eapply draws_only_bind; [apply updateSurge_runs |].
  intros mid Hstep.
  destruct Hstep as [Ha Hgo | u Ha Hle Hu | Ha Hgo | u Ha Hle Hu];
    try congruence.
  - apply IH; simpl; [assumption | lra | lra].
  - pose proof (drawn_in_range (surgeDuration cfg) u Hd Hu) as Hrange.
    eapply draws_only_weaken.
    { apply (feedSurge_below cfg rest); [exact Hrest |].
      unfold countdown; simpl; lra. }
    intros after (Ha' & Hm' & _); rewrite Ha', Hm'; simpl; auto.
Qed.

(** Fed past its countdown at the call [d], and less than the shortest
    interval between surges after that call, an active surge ends with the
    controller idle. *)
Lemma feedSurge_past (cfg : Config) (pre post : list R) (d : R)
  (this : Game.t) :
  fst (surgeInterval cfg) <= snd (surgeInterval cfg) ->
  Forall (fun dt => 0 <= dt) (pre ++ d :: post) ->
  Game.surgeActive this = true ->
  total_ms pre < Game.surgeDurationTimer this <= total_ms (pre ++ [d]) ->
  total_ms post < fst (surgeInterval cfg) ->
  draws_only (Game.feedSurge cfg (pre ++ d :: post) this)
    (fun after =>
       Game.surgeActive after = false /\ Game.speedMultiplier after = 1).
Proof.
  intros Hi Hdts Hactive [Hpre Hcross] Hpost.
  apply Forall_app in Hdts; destruct Hdts as [Hnpre Hdts].
  apply Forall_cons_iff in Hdts; destruct Hdts as [Hd Hnpost].
  rewrite total_ms_app in Hcross; simpl in Hcross.
  eapply feedSurge_app_runs.
  { apply (feedSurge_below cfg pre this Hnpre).
    unfold countdown; rewrite Hactive; exact Hpre. }
  intros mid (Ha & _ & Hc); cbv beta.
  unfold countdown in Hc; rewrite Ha, Hactive in Hc.
  simpl; eapply draws_only_bind; [apply updateSurge_runs |].
  intros ended_surge Hstep.
  destruct Hstep as [Ha1 Hgo | u Ha1 Hle Hu | Ha1 Hgo | u Ha1 Hle Hu];
    try congruence; try lra.
  pose proof (drawn_in_range (surgeInterval cfg) u Hi Hu) as Hrange.
  eapply draws_only_weaken.
  { apply (feedSurge_below cfg post); [exact Hnpost |].
    unfold countdown; simpl; lra. }
  intros after (Ha' & Hm' & _); rewrite Ha', Hm'; simpl; auto.
Qed.

(** C2, as amended.  From the idle state with a countdown above 0, feeding
    exactly the countdown, in one call or in several, leaves a surge active
    with the configured multiplier.  From an active surge, feeding time that
    reaches its countdown at some call, and after that call less than the
    shortest interval between surges, leaves the controller idle with
    multiplier 1: so does a single call of any size that reaches the
    countdown.  And a single call changes the state at most once: when the
    countdown runs out in it, the call ends in the other state with a whole
    countdown drawn from the configured range, however much time it was
    given; otherwise the state stays what it was. *)
Theorem surge_controller_cycle (cfg : Config) (this : Game.t) (w : World)
  (dts pre post : list R) (d dt : R) :
  fair w ->
  0 < fst (surgeDuration cfg) <= snd (surgeDuration cfg) ->
  fst (surgeInterval cfg) <= snd (surgeInterval cfg) ->
  (Game.surgeActive this = false ->
   0 < Game.surgeTimer this ->
   Forall (fun dt => 0 <= dt) dts ->
   total_ms dts = Game.surgeTimer this ->
   exists (after : Game.t) (w' : World),
     Game.feedSurge cfg dts this w = Returns (after, w')
     /\ Game.surgeActive after = true
     /\ Game.speedMultiplier after = surgeMultiplier cfg)
  /\ (Game.surgeActive this = true ->
      Forall (fun dt => 0 <= dt) (pre ++ d :: post) ->
      total_ms pre < Game.surgeDurationTimer this <= total_ms (pre ++ [d]) ->
      total_ms post < fst (surgeInterval cfg) ->
      exists (after : Game.t) (w' : World),
        Game.feedSurge cfg (pre ++ d :: post) this w = Returns (after, w')
        /\ Game.surgeActive after = false
        /\ Game.speedMultiplier after = 1)
  /\ (exists (after : Game.t) (w' : World),
        Game.updateSurge cfg dt this w = Returns (after, w')
        /\ (Game.surgeActive this = false ->
            Game.surgeTimer this - dt * 1000 <= 0 ->
            Game.surgeActive after = true
            /\ Game.speedMultiplier after = surgeMultiplier cfg
            /\ fst (surgeDuration cfg) <= Game.surgeDurationTimer after
               <= snd (surgeDuration cfg))
        /\ (Game.surgeActive this = true ->
            Game.surgeDurationTimer this - dt * 1000 <= 0 ->
            Game.surgeActive after = false
            /\ Game.speedMultiplier after = 1
            /\ fst (surgeInterval cfg) <= Game.surgeTimer after
               <= snd (surgeInterval cfg))
        /\ (0 < countdown this - dt * 1000 ->
            Game.surgeActive after = Game.surgeActive this
            /\ Game.speedMultiplier after = Game.speedMultiplier this
            /\ countdown after = countdown this - dt * 1000)).
Proof.
  intros Hw Hd Hi; split; [| split].
  - intros Hidle Hpos Hdts Htotal.
    destruct (feedSurge_exact cfg dts this Hd Hdts Hidle Hpos Htotal w Hw)
      as (after & w' & Hrun & Hafter & _).
    exists after, w'; auto.
  - intros Hactive Hdts Hcross Hpost.
    destruct (feedSurge_past cfg pre post d this Hi Hdts Hactive Hcross Hpost
                w Hw)
      as (after & w' & Hrun & Hafter & _).
    exists after, w'; auto.
  - destruct (updateSurge_runs cfg dt this w Hw)
      as (after & w' & Hrun & Hstep & _).
    exists after, w'; split; [exact Hrun |].
    unfold countdown.
    destruct Hstep as [Ha Hgo | u Ha Hle Hu | Ha Hgo | u Ha Hle Hu]; simpl;
      rewrite Ha.
    + split; [discriminate | split; [intros _ Hle; lra | auto]].
    + pose proof (drawn_in_range (surgeInterval cfg) u Hi Hu).
      split; [discriminate | split; [auto | intros Hgo; lra]].
    + split; [intros _ Hle; lra | split; [discriminate | auto]].
    + pose proof (drawn_in_range (surgeDuration cfg) u (proj2 Hd) Hu).
      split; [auto | split; [discriminate | intros Hgo; lra]].
Qed.

Lemma surge_controller_cycle_witness :
  let w := steady_world 0 empty_storage in
  (exists (after : Game.t) (w' : World),
      Game.feedSurge CONFIG [2; 3] (fresh_run CONFIG 5000) w
      = Returns (after, w')
      /\ Game.surgeActive after = true
      /\ Game.speedMultiplier after = surgeMultiplier CONFIG)
  /\ (exists (after : Game.t) (w' : World),
        Game.feedSurge CONFIG ([1] ++ 1 :: [2]) (surging_run CONFIG 1500) w
        = Returns (after, w')
        /\ Game.surgeActive after = false
        /\ Game.speedMultiplier after = 1)
  /\ (exists (after : Game.t) (w' : World),
        Game.updateSurge CONFIG 60 (fresh_run CONFIG 5000) w
        = Returns (after, w')
        /\ Game.surgeActive after = true
        /\ Game.speedMultiplier after = surgeMultiplier CONFIG
        /\ fst (surgeDuration CONFIG) <= Game.surgeDurationTimer after
           <= snd (surgeDuration CONFIG)).
Proof.
  intros w.
  assert (Hw : fair w) by (apply steady_world_fair; lra).
  assert (Hd : 0 < fst (surgeDuration CONFIG) <= snd (surgeDuration CONFIG))
    by (simpl; lra).
  assert (Hi : fst (surgeInterval CONFIG) <= snd (surgeInterval CONFIG))
    by (simpl; lra).
  destruct (surge_controller_cycle CONFIG (fresh_run CONFIG 5000) w
              [2; 3] [] [] 0 60 Hw Hd Hi) as (Hexact & _ & Hcall).
  destruct (surge_controller_cycle CONFIG (surging_run CONFIG 1500) w
              [] [1] [2] 1 0 Hw Hd Hi) as (_ & Hpast & _).
  split; [| split].
  - apply Hexact; [reflexivity | simpl; lra | | simpl; lra].
    repeat constructor; lra.
  - apply Hpast; [reflexivity | | simpl; lra | simpl; lra].
    repeat constructor; lra.
  - destruct Hcall as (after & w' & Hrun & Hbegin & _).
    exists after, w'; split; [exact Hrun |].
    apply Hbegin; [reflexivity | simpl; lra].
Defined.

Lemma total_ms_repeat (dt : R) (n : nat) :
  total_ms (repeat dt n) = INR n * (dt * 1000).
Proof.
  induction n as [| n IH]; [simpl; ring |].
  rewrite S_INR; simpl repeat; simpl total_ms; rewrite IH; ring.
Qed.

Lemma repeat_frames (dt : R) (n : nat) :
  0 <= dt <= 0.05 -> Forall (fun t => 0 <= t <= 0.05) (repeat dt n).
Proof.
  intros Hdt; induction n as [| n IH]; simpl; constructor; assumption.
Qed.

Lemma frames_nonneg (dts : list R) :
  Forall (fun t => 0 <= t <= 0.05) dts -> Forall (fun t => 0 <= t) dts.
Proof. apply Forall_impl; intros t Ht; lra. Qed.

(** 130 frames of 50 ms on a surge with 1500 ms to go, all draws being 0:
    the surge ends at frame 30, the next one begins at frame 130. *)
Lemma surge_again_after_130_frames :
  exists (after : Game.t) (w' : World),
    Game.feedSurge CONFIG (repeat 0.05 130) (surging_run CONFIG 1500)
      (steady_world 0 empty_storage) = Returns (after, w')
    /\ Game.surgeActive after = true
    /\ Game.speedMultiplier after = 1.5.
Proof.
  pose (this := surging_run CONFIG 1500).
  pose (w := steady_world 0 empty_storage).
  assert (Hw : fair w) by (apply steady_world_fair; lra).
  assert (Hframes : forall n, Forall (fun t => 0 <= t) (repeat 0.05 n)).
  { intros n; apply frames_nonneg, repeat_frames; lra. }
  assert (H29 : total_ms (repeat 0.05 29) = 1450).
  { rewrite total_ms_repeat, INR_IZR_INZ; simpl Z.of_nat; lra. }
  assert (H99 : total_ms (repeat 0.05 99) = 4950).
  { rewrite total_ms_repeat, INR_IZR_INZ; simpl Z.of_nat; lra. }
  destruct (feedSurge_below CONFIG (repeat 0.05 29) this (Hframes 29%nat))
    with (w := w)
    as (low & w1 & Hrun1 & (Ha1 & _ & Hc1) & Hw1 & _ & Hd1);
    [rewrite H29; unfold countdown, this; simpl; lra | exact Hw |].
  unfold countdown in Hc1; rewrite Ha1, H29 in Hc1; simpl in Ha1, Hc1.
  assert (Hdraw : current_draw w1 = 0).
  { unfold current_draw; rewrite Hd1; reflexivity. }
  pose (idle :=
          Game.set_surgeTimer (drawn_in (surgeInterval CONFIG) 0)
            (Game.set_speedMultiplier 1
               (Game.set_surgeActive false
                  (Game.set_surgeDurationTimer
                     (Game.surgeDurationTimer low - 0.05 * 1000) low)))).
  destruct (feedSurge_below CONFIG (repeat 0.05 99) idle (Hframes 99%nat))
    with (w := after_draw w1)
    as (late & w2 & Hrun2 & (Ha2 & _ & Hc2) & Hw2 & _ & Hd2);
    [rewrite H99; unfold countdown, idle; simpl; unfold drawn_in; simpl; lra
    | apply after_draw_fair, Hw1 |].
  unfold countdown, idle in Hc2; rewrite Ha2, H99 in Hc2;
    simpl in Ha2, Hc2; unfold drawn_in in Hc2; simpl in Hc2.
  eexists; eexists; split; [| split].
  - change (repeat 0.05 130)
      with (repeat 0.05 29 ++ 0.05 :: (repeat 0.05 99 ++ [0.05])).
    fold this w; rewrite feedSurge_app; unfold bind at 1; rewrite Hrun1.
    rewrite feedSurge_cons; unfold bind at 1.
    rewrite (updateSurge_ends_eq CONFIG 0.05 low w1 Ha1) by lra.
    rewrite Hdraw; fold idle.
    rewrite feedSurge_app; unfold bind at 1; rewrite Hrun2.
    rewrite feedSurge_cons; unfold bind at 1.
    rewrite (updateSurge_begins_eq CONFIG 0.05 late w2 Ha2) by lra.
    reflexivity.
  - reflexivity.
  - reflexivity.
Qed.

(** C2 as it is written fails: fed more than its countdown, an active surge
    can be active again in the end, with the surge multiplier; so it is
    after two calls of 1.5 s and 10 s, and after 130 frames of 50 ms. *)
Lemma surge_overshoot_counterexample :
  let this := surging_run CONFIG 1500 in
  let w := steady_world 0 empty_storage in
  Game.surgeActive this = true
  /\ countdown this = 1500
  /\ (let dts := [1.5; 10] in
      Forall (fun dt => 0 <= dt) dts
      /\ countdown this <= total_ms dts
      /\ exists (after : Game.t) (w' : World),
           Game.feedSurge CONFIG dts this w = Returns (after, w')
           /\ Game.surgeActive after = true
           /\ Game.speedMultiplier after = 1.5
           /\ Game.speedMultiplier after <> 1)
  /\ (let frames := repeat 0.05 130 in
      Forall (fun dt => 0 <= dt <= 0.05) frames
      /\ countdown this <= total_ms frames
      /\ exists (after : Game.t) (w' : World),
           Game.feedSurge CONFIG frames this w = Returns (after, w')
           /\ Game.surgeActive after = true
           /\ Game.speedMultiplier after = 1.5
           /\ Game.speedMultiplier after <> 1).
Proof.
  intros this w.
  split; [reflexivity |].
  split; [reflexivity |].
  split.
  - cbv zeta.
    split; [repeat constructor; lra |].
    split; [unfold countdown; simpl; lra |].
    assert (Hw : fair w) by (apply steady_world_fair; lra).
    assert (Hrun :
              draws_only (Game.feedSurge CONFIG [1.5; 10] this)
                (fun after =>
                   Game.surgeActive after = true
                   /\ Game.speedMultiplier after = 1.5)).
    { simpl.
      eapply draws_only_bind; [apply updateSurge_runs |].
      intros idle Hends.
      destruct Hends as [Ha Hgo | u Ha Hle Hu | Ha Hgo | u Ha Hle Hu];
        try discriminate; simpl in *; try lra.
      eapply draws_only_bind; [apply updateSurge_runs |].
      intros surging Hbegins.
      destruct Hbegins as [Ha2 Hgo | v Ha2 _ Hv | Ha2 Hgo | v Ha2 _ Hv];
        try discriminate; simpl in *.
      - unfold drawn_in in Hgo; simpl in Hgo; nra.
      - apply draws_only_ret; simpl; auto. }
    destruct (Hrun w Hw) as (after & w' & Heq & (Ha & Hm) & _).
    exists after, w'; repeat split; try assumption.
    rewrite Hm; lra.
  - cbv zeta.
    split; [apply repeat_frames; lra |].
    split.
    { rewrite total_ms_repeat, INR_IZR_INZ; unfold countdown; simpl; lra. }
    destruct surge_again_after_130_frames as (after & w' & Hrun & Ha & Hm).
    exists after, w'; repeat split; try assumption.
    rewrite Hm; lra.
Qed.

(** ** Score store *)

Lemma insert_desc_permutation (v : R) (scores : list R) :
  Permutation (ScoreManager.insert_desc v scores) (v :: scores).
Proof.
  induction scores as [| h t IH]; simpl.
  - apply Permutation_refl.
  - destruct (Rle_dec h v).
    + apply Permutation_refl.
    + apply Permutation_trans with (h :: v :: t).
      * apply perm_skip; exact IH.
      * apply perm_swap.
Qed.

Lemma sort_desc_permutation (scores : list R) :
  Permutation (ScoreManager.sort_desc scores) scores.
Proof.
  unfold ScoreManager.sort_desc.
  induction scores as [| h t IH]; simpl.
  - apply Permutation_refl.
  - eapply Permutation_trans; [apply insert_desc_permutation |].
    apply perm_skip; exact IH.
Qed.

Lemma insert_desc_descending (v : R) (scores : list R) :
  descending scores -> descending (ScoreManager.insert_desc v scores).
Proof.
  unfold descending; intros Hsorted.
  induction Hsorted as [| h t Ht IH Hhd]; simpl.
  - repeat constructor.
  - destruct (Rle_dec h v) as [Hle | Hgt].
    + constructor; [constructor; assumption | constructor; exact Hle].
    + constructor; [exact IH |].
      destruct t as [| h' t']; simpl.
      * constructor; lra.
      * destruct (Rle_dec h' v); constructor; [lra |].
        inversion Hhd; assumption.
Qed.

Lemma sort_desc_descending (scores : list R) :
  descending (ScoreManager.sort_desc scores).
Proof.
  unfold ScoreManager.sort_desc.
  induction scores as [| h t IH]; simpl.
  - constructor.
  - apply insert_desc_descending; exact IH.
Qed.

Lemma firstn_descending (n : nat) (scores : list R) :
  descending scores -> descending (firstn n scores).
Proof.
  unfold descending; intros Hsorted; revert n.
  induction Hsorted as [| h t Ht IH Hhd]; intros [| n]; simpl;
    try constructor.
  - apply IH.
  - destruct Hhd as [| h' t' Hle]; destruct n; simpl; constructor; exact Hle.
Qed.

Ltac order_scores :=
  repeat match goal with
    | |- context [Rle_dec ?a ?b] =>
        destruct (Rle_dec a b); try (exfalso; lra); simpl
    end.

(** C7. [addScore] stores the old scores and the new one, sorted highest
    first, cut to the first [maxScoresSaved]: with [[10, 5, 3]] stored and a
    maximum of 10, adding 8 leaves [[10, 8, 5, 3]]; with [[10, 5]] stored and
    a maximum of 2, adding 8 leaves [[10, 8]]. *)
Theorem addScore_sorts_and_truncates (cfg : Config) (stored : list R)
  (score : R) :
  let saved :=
    firstn (maxScoresSaved cfg) (ScoreManager.sort_desc (stored ++ [score])) in
  ScoreManager.addScore cfg score (holding stored) = Returns (holding saved)
  /\ Permutation (ScoreManager.sort_desc (stored ++ [score])) (score :: stored)
  /\ descending (ScoreManager.sort_desc (stored ++ [score]))
  /\ descending saved
  /\ (List.length saved <= maxScoresSaved cfg)%nat
  /\ ScoreManager.addScore CONFIG 8 (holding [10; 5; 3])
     = Returns (holding [10; 8; 5; 3])
  /\ ScoreManager.addScore (with_maxScoresSaved 2 CONFIG) 8 (holding [10; 5])
     = Returns (holding [10; 8]).
Proof.
  intros saved.
  split; [reflexivity |].
  split.
  { eapply Permutation_trans; [apply sort_desc_permutation |].
    apply Permutation_sym, Permutation_cons_append. }
  split; [apply sort_desc_descending |].
  split; [apply firstn_descending, sort_desc_descending |].
  split; [apply firstn_le_length |].
  split.
  - unfold ScoreManager.addScore, holding, ScoreManager.sort_desc; simpl.
    order_scores; reflexivity.
  - unfold ScoreManager.addScore, holding, ScoreManager.sort_desc; simpl.
    order_scores; reflexivity.
Qed.

(** What the store tolerates: a missing, unreadable, empty or unparsable
    item reads as no scores, a failing write leaves the store as it was, and
    none of this throws. *)
Lemma score_store_tolerates (cfg : Config) (ls : LocalStorage) (score : R) :
  readable ls = false \/ item ls = None \/ item ls = Some EmptyText
  \/ item ls = Some Unparsable ->
  ScoreManager.getScores ls = Returns []
  /\ ScoreManager.getBest ls = Returns 0
  /\ (writable ls = false -> ScoreManager.addScore cfg score ls = Returns ls).
Proof.
  intros Hbad.
  assert (Hload : ScoreManager._load ls = VArray []).
  { unfold ScoreManager._load, ScoreManager.getItem.
    destruct (readable ls); [| reflexivity].
    destruct Hbad as [H | [-> | [-> | ->]]]; [discriminate | reflexivity ..]. }
  unfold ScoreManager.getBest, ScoreManager.getScores, ScoreManager.addScore,
    ScoreManager._save, ScoreManager.setItem.
  rewrite Hload; simpl.
  repeat split; intros ->; reflexivity.
Qed.

(** C8. The score store is not safe against every persisted value: when the
    item parses, but not to an array (here the text [5]), [getScores],
    [getBest] and [addScore] throw a [TypeError], and so does the end of a
    run, [triggerGameOver], which calls them. *)
Theorem parsed_non_array_throws :
  let ls :=
    {| readable := true; writable := true;
       item := Some (Parsable (VNumber 5)) |} in
  ScoreManager._load ls = VNumber 5
  /\ ScoreManager.getScores ls = Throws TypeError
  /\ ScoreManager.getBest ls = Throws TypeError
  /\ ScoreManager.addScore CONFIG 12 ls = Throws TypeError
  /\ Game.triggerGameOver CONFIG (fresh_run CONFIG 5000) (steady_world 0 ls)
     = Throws TypeError.
Proof. repeat split; reflexivity. Qed.

(** * Further properties of the code *)

(** ** Utility helpers *)

Lemma rand_eq (min max : R) (w : World) :
  rand min max w = Returns (current_draw w * (max - min) + min, after_draw w).
Proof. reflexivity. Qed.

(** X1. With a draw in [[0, 1)], [rand(min, max)] returns [min] plus that
    share of [max - min] and uses up one draw: a number from [min] up to, but
    not including, [max] when [min < max]; [min] itself when the bounds are
    equal; and a number from above [max] up to [min] when the bounds come in
    the wrong order. *)
Theorem rand_half_open_range (min max : R) (w : World) :
  fair w ->
  exists v : R,
    rand min max w = Returns (v, after_draw w)
    /\ v = min + current_draw w * (max - min)
    /\ (min < max -> min <= v < max)
    /\ (min = max -> v = min)
    /\ (max < min -> max < v <= min).
Proof.
  intros Hw; rewrite rand_eq.
  pose proof (Hw (pos (rng w))) as Hu; fold (current_draw w) in Hu.
  eexists; split; [reflexivity |].
  split; [ring |].
  repeat split; intros; try nra.
Qed.

Lemma rand_half_open_range_witness :
  exists v : R,
    rand 5000 10000 (steady_world 0.5 empty_storage)
    = Returns (v, after_draw (steady_world 0.5 empty_storage))
    /\ v = 5000 + current_draw (steady_world 0.5 empty_storage) * (10000 - 5000)
    /\ (5000 < 10000 -> 5000 <= v < 10000)
    /\ (5000 = 10000 -> v = 5000)
    /\ (10000 < 5000 -> 10000 < v <= 5000).
Proof.
  apply (rand_half_open_range 5000 10000 (steady_world 0.5 empty_storage)).
  apply steady_world_fair; lra.
Defined.

Lemma floor_of_half (k : Z) : Math_floor (IZR k + 1 / 2) = k.
Proof.
  unfold Math_floor; symmetry; apply Int_part_spec; lra.
Qed.

(** X2. For whole bounds [min <= max] and a draw in [[0, 1)], [randInt]
    returns a whole number from [min] to [max], both included, and every one
    of these numbers is returned for some draw in [[0, 1)]. *)
Theorem randInt_inclusive_range (min max : Z) (w : World) :
  (min <= max)%Z ->
  fair w ->
  (exists i : Z,
      randInt (IZR min) (IZR max) w = Returns (i, after_draw w)
      /\ (min <= i <= max)%Z)
  /\ (forall k : Z, (min <= k <= max)%Z ->
      exists u : R,
        0 <= u < 1
        /\ randInt (IZR min) (IZR max) (steady_world u (localStorage w))
           = Returns (k, after_draw (steady_world u (localStorage w)))).
Proof.
  intros Hle Hw; split.
  - destruct (draws_only_randInt min max Hle w Hw)
      as (i & w' & Hrun & Hi & _).
    exists i; split; [| exact Hi].
    unfold randInt, bind in *; rewrite rand_eq in *.
    injection Hrun as Hi' _; rewrite Hi'; reflexivity.
  - intros k Hk.
    assert (Hn : 0 < IZR (max - min + 1)) by (apply IZR_lt; lia).
    assert (Hkm : 0 <= IZR (k - min) <= IZR (max - min)).
    { split; apply IZR_le; lia. }
    rewrite plus_IZR, minus_IZR in Hn.
    rewrite !minus_IZR in Hkm.
    remember (IZR max - IZR min + 1) as n eqn:En.
    exists ((IZR k - IZR min + 1 / 2) / n).
    split.
    { split.
      - apply Rmult_le_pos; [lra | left; apply Rinv_0_lt_compat; exact Hn].
      - apply (Rmult_lt_reg_r n); [exact Hn |].
        unfold Rdiv; rewrite Rmult_assoc, Rinv_l by lra; lra. }
    unfold randInt, bind; rewrite rand_eq; unfold ret.
    replace (current_draw _ * (IZR max + 1 - IZR min) + IZR min)
      with (IZR k + 1 / 2).
    + rewrite floor_of_half; reflexivity.
    + unfold current_draw, steady_world; simpl.
      replace (IZR max + 1 - IZR min) with n by (rewrite En; ring).
      unfold Rdiv at 2; rewrite Rmult_assoc, Rinv_l by lra; ring.
Qed.

Lemma randInt_inclusive_range_witness :
  (exists i : Z,
      randInt 0 3 (steady_world 0.5 empty_storage)
      = Returns (i, after_draw (steady_world 0.5 empty_storage))
      /\ (0 <= i <= 3)%Z)
  /\ (forall k : Z, (0 <= k <= 3)%Z ->
      exists u : R,
        0 <= u < 1
        /\ randInt 0 3 (steady_world u empty_storage)
           = Returns (k, after_draw (steady_world u empty_storage))).
Proof.
  apply (randInt_inclusive_range 0 3 (steady_world 0.5 empty_storage)).
  - lia.
  - apply steady_world_fair; lra.
Defined.

Lemma dist_is_dist_euc (x1 y1 x2 y2 : R) :
  dist x1 y1 x2 y2 = dist_euc x1 y1 x2 y2.
Proof. reflexivity. Qed.

(** X3. [dist] is a distance: it is never negative, it is 0 exactly between a
    point and itself, it is the same in both directions, and going through a
    third point is never shorter. *)
Theorem dist_is_a_metric (x1 y1 x2 y2 x3 y3 : R) :
  0 <= dist x1 y1 x2 y2
  /\ (dist x1 y1 x2 y2 = 0 <-> x1 = x2 /\ y1 = y2)
  /\ dist x1 y1 x2 y2 = dist x2 y2 x1 y1
  /\ dist x1 y1 x2 y2 <= dist x1 y1 x3 y3 + dist x3 y3 x2 y2.
Proof.
  split; [apply dist_nonneg |].
  split.
  { split.
    - intros H0; pose proof (dist_sqr x1 y1 x2 y2) as Hs.
      rewrite H0 in Hs.
      pose proof (Rle_0_sqr (x1 - x2)) as Hx.
      pose proof (Rle_0_sqr (y1 - y2)) as Hy.
      unfold Rsqr in Hx, Hy.
      assert (Hx0 : (x1 - x2) * (x1 - x2) = 0) by lra.
      assert (Hy0 : (y1 - y2) * (y1 - y2) = 0) by lra.
      apply Rmult_integral in Hx0; apply Rmult_integral in Hy0.
      split; [destruct Hx0 | destruct Hy0]; lra.
    - intros [-> ->]; apply dist_same. }
  split.
  - rewrite !dist_is_dist_euc; apply distance_symm.
  - rewrite !dist_is_dist_euc; apply triangle.
Qed.

(** X4. When [min <= max], [clamp] returns the point of [[min, max]] nearest
    to [val]: [val] itself when it lies inside, the bound it lies beyond
    otherwise, so clamping twice changes nothing more.  When [max < min] it
    returns [min] whatever [val] is. *)
Theorem clamp_is_nearest_in_range (val min max : R) :
  (min <= max ->
   min <= clamp val min max <= max
   /\ (min <= val <= max -> clamp val min max = val)
   /\ (val < min -> clamp val min max = min)
   /\ (max < val -> clamp val min max = max)
   /\ clamp (clamp val min max) min max = clamp val min max
   /\ forall p : R, min <= p <= max ->
        Rabs (clamp val min max - val) <= Rabs (p - val))
  /\ (max < min -> clamp val min max = min).
Proof.
  unfold clamp; split.
  - intros Hle.
    assert (Hcases :
              (val < min /\ Rmax min (Rmin max val) = min)
              \/ (min <= val <= max /\ Rmax min (Rmin max val) = val)
              \/ (max < val /\ Rmax min (Rmin max val) = max)).
    { destruct (Rlt_dec val min) as [Hlo | Hlo].
      - left; split; [exact Hlo |].
        rewrite (Rmin_right max val) by lra; apply Rmax_left; lra.
      - destruct (Rlt_dec max val) as [Hhi | Hhi].
        + right; right; split; [exact Hhi |].
          rewrite (Rmin_left max val) by lra; apply Rmax_right; lra.
        + right; left; split; [lra |].
          rewrite (Rmin_right max val) by lra; apply Rmax_right; lra. }
    destruct Hcases as [[Hv E] | [[Hv E] | [Hv E]]]; rewrite E.
    + repeat split; try lra.
      * rewrite (Rmin_right max min) by lra; apply Rmax_left; lra.
      * intros p Hp; unfold Rabs.
        destruct (Rcase_abs (min - val)), (Rcase_abs (p - val)); lra.
    + repeat split; try lra.
      intros p Hp; unfold Rabs.
      destruct (Rcase_abs (val - val)), (Rcase_abs (p - val)); lra.
    + repeat split; try lra.
      * rewrite (Rmin_left max max) by lra; apply Rmax_right; lra.
      * intros p Hp; unfold Rabs.
        destruct (Rcase_abs (max - val)), (Rcase_abs (p - val)); lra.
  - intros Hlt; apply Rmax_left.
    apply Rle_trans with max; [apply Rmin_l | lra].
Qed.

Lemma clamp_is_nearest_in_range_witness :
  (4 <= clamp 610 4 596 <= 596
   /\ (4 <= 610 <= 596 -> clamp 610 4 596 = 610)
   /\ (610 < 4 -> clamp 610 4 596 = 4)
   /\ (596 < 610 -> clamp 610 4 596 = 596)
   /\ clamp (clamp 610 4 596) 4 596 = clamp 610 4 596
   /\ forall p : R, 4 <= p <= 596 ->
        Rabs (clamp 610 4 596 - 610) <= Rabs (p - 610))
  /\ clamp 610 400 200 = 400.
Proof.
  split.
  - apply (clamp_is_nearest_in_range 610 4 596); lra.
  - apply (clamp_is_nearest_in_range 610 400 200); lra.
Defined.

(** ** Ship *)

Lemma clamp_cases (val min max : R) :
  min <= max ->
  (val < min /\ clamp val min max = min)
  \/ (min <= val <= max /\ clamp val min max = val)
  \/ (max < val /\ clamp val min max = max).
Proof.
  intros Hle; unfold clamp.
  destruct (Rlt_dec val min) as [Hlo | Hlo].
  - left; split; [exact Hlo |].
    rewrite (Rmin_right max val) by lra; apply Rmax_left; lra.
  - destruct (Rlt_dec max val) as [Hhi | Hhi].
    + right; right; split; [exact Hhi |].
      rewrite (Rmin_left max val) by lra; apply Rmax_right; lra.
    + right; left; split; [lra |].
      rewrite (Rmin_right max val) by lra; apply Rmax_right; lra.
Qed.

(** Clamping a step taken from inside the range never lengthens it. *)
Lemma clamp_step_shorter (x0 e min max : R) :
  min <= x0 <= max ->
  (clamp (x0 + e) min max - x0) * (clamp (x0 + e) min max - x0) <= e * e.
Proof.
  intros Hin.
  destruct (clamp_cases (x0 + e) min max) as [[Hv E] | [[Hv E] | [Hv E]]];
    try lra; rewrite E; nra.
Qed.

(** The normalisation of [Ship.update]: a vector that is not zero gets length
    one, the zero vector stays. *)
Lemma normalised_vector (dx dy : R) :
  let v :=
    if Rlt_dec 0 (sqrt (dx * dx + dy * dy))
    then (dx / sqrt (dx * dx + dy * dy), dy / sqrt (dx * dx + dy * dy))
    else (dx, dy) in
  (dx * dx + dy * dy = 0 /\ v = (dx, dy) /\ dx = 0 /\ dy = 0)
  \/ (0 < dx * dx + dy * dy /\ fst v * fst v + snd v * snd v = 1).
Proof.
  cbv zeta.
  pose proof (sum_squares_nonneg dx dy) as Hnn.
  destruct (Rlt_dec 0 (sqrt (dx * dx + dy * dy))) as [Hpos | Hzero].
  - right.
    assert (Hs : 0 < dx * dx + dy * dy).
    { apply Rnot_le_lt; intros Hle; rewrite sqrt_neg_0 in Hpos; lra. }
    split; [exact Hs |]; cbn [fst snd].
    pose proof (sqrt_sqrt _ Hnn) as Hsq.
    set (len := sqrt (dx * dx + dy * dy)) in *.
    replace (dx / len * (dx / len) + dy / len * (dy / len))
      with ((dx * dx + dy * dy) / (len * len)) by (field; lra).
    rewrite Hsq; field; lra.
  - left.
    assert (Hs : dx * dx + dy * dy = 0).
    { destruct (Rle_lt_or_eq_dec _ _ Hnn) as [Hlt | Heq]; [| lra].
      exfalso; apply Hzero, sqrt_lt_R0; exact Hlt. }
    pose proof (Rle_0_sqr dx) as Hx; pose proof (Rle_0_sqr dy) as Hy.
    unfold Rsqr in Hx, Hy.
    assert (Hx0 : dx * dx = 0) by lra.
    assert (Hy0 : dy * dy = 0) by lra.
    assert (Hdx : dx = 0) by (apply Rmult_integral in Hx0; tauto).
    assert (Hdy : dy = 0) by (apply Rmult_integral in Hy0; tauto).
    repeat split; assumption.
Qed.

Lemma direction_at_most_unit (keys : string -> bool) :
  fst (Ship.direction keys) * fst (Ship.direction keys)
  + snd (Ship.direction keys) * snd (Ship.direction keys) <= 1.
Proof.
  rewrite direction_unfold; cbv zeta.
  match goal with
  | |- context [Rlt_dec 0 (sqrt (?dx * ?dx + ?dy * ?dy))] =>
      destruct (normalised_vector dx dy) as [(_ & E & Hx & Hy) | [_ E]];
      cbv zeta in E
  end.
  - rewrite E; cbn [fst snd]; rewrite Hx, Hy; lra.
  - rewrite E; lra.
Qed.

Lemma travelled_bound (cfg : Config) (dt : R) (keys : string -> bool)
  (this : Ship.t) :
  0 <= dt -> 0 <= shipSpeed cfg ->
  Ship.size this <= Ship.x this <= canvasWidth cfg - Ship.size this ->
  Ship.size this <= Ship.y this <= canvasHeight cfg - Ship.size this ->
  travelled cfg dt keys this <= shipSpeed cfg * dt.
Proof.
  intros Hdt Hspeed Hx Hy.
  pose proof (direction_at_most_unit keys) as Hunit.
  assert (Hv : 0 <= shipSpeed cfg * dt) by (apply Rmult_le_pos; assumption).
  unfold travelled; cbv zeta.
  rewrite ship_update_x, ship_update_y, ship_moved_unfold; cbn [fst snd].
  set (dx := fst (Ship.direction keys)) in *.
  set (dy := snd (Ship.direction keys)) in *.
  rewrite <- (sqrt_square (shipSpeed cfg * dt) Hv).
  unfold dist; cbv zeta; apply sqrt_le_1_alt.
  rewrite !Rmult_assoc.
  set (v := shipSpeed cfg * dt) in *.
  pose proof (clamp_step_shorter (Ship.x this) (dx * v) _ _ Hx) as Hcx.
  pose proof (clamp_step_shorter (Ship.y this) (dy * v) _ _ Hy) as Hcy.
  remember (clamp (Ship.x this + dx * v) (Ship.size this)
              (canvasWidth cfg - Ship.size this)) as cx.
  remember (clamp (Ship.y this + dy * v) (Ship.size this)
              (canvasHeight cfg - Ship.size this)) as cy.
  pose proof (Rle_0_sqr v) as Hvv; unfold Rsqr in Hvv.
  assert (Hsum : dx * v * (dx * v) + dy * v * (dy * v)
                 = (dx * dx + dy * dy) * (v * v)) by ring.
  assert (Hbound : (dx * dx + dy * dy) * (v * v) <= 1 * (v * v)).
  { apply Rmult_le_compat_r; assumption. }
  replace ((Ship.x this - cx) * (Ship.x this - cx))
    with ((cx - Ship.x this) * (cx - Ship.x this)) by ring.
  replace ((Ship.y this - cy) * (Ship.y this - cy))
    with ((cy - Ship.y this) * (cy - Ship.y this)) by ring.
  replace (shipSpeed cfg * (dt * v)) with (v * v) by (unfold v; ring).
  lra.
Qed.

(** X5. A ship inside the field never moves faster than [shipSpeed]: for
    every combination of keys, an update with [dt >= 0] moves it by at most
    [shipSpeed * dt]. *)
Theorem ship_speed_limit (cfg : Config) (dt : R) (keys : string -> bool)
  (this : Ship.t) :
  0 <= dt -> 0 <= shipSpeed cfg ->
  Ship.size this <= Ship.x this <= canvasWidth cfg - Ship.size this ->
  Ship.size this <= Ship.y this <= canvasHeight cfg - Ship.size this ->
  travelled cfg dt keys this <= shipSpeed cfg * dt.
Proof. apply travelled_bound. Qed.

Lemma ship_speed_limit_witness :
  let keys := fun k : string => String.eqb k "ArrowUp" || String.eqb k "d" in
  travelled CONFIG 0.05 keys (Ship.new CONFIG 590 10)
  <= shipSpeed CONFIG * 0.05.
Proof.
  intros keys.
  apply (ship_speed_limit CONFIG 0.05 keys (Ship.new CONFIG 590 10));
    simpl; lra.
Defined.

Lemma direction_rest (keys : string -> bool) :
  left_held keys = right_held keys ->
  up_held keys = down_held keys ->
  Ship.direction keys = (0, 0).
Proof.
  intros Hh Hv; rewrite direction_unfold; cbv zeta; rewrite Hh, Hv.
  match goal with
  | |- context [Rlt_dec 0 (sqrt (?dx * ?dx + ?dy * ?dy))] =>
      assert (Hx : dx = 0) by (destruct (right_held keys); ring);
      assert (Hy : dy = 0) by (destruct (down_held keys); ring);
      pose proof (normalised_vector dx dy) as Hn; cbv zeta in Hn;
      destruct Hn as [(_ & E & _) | [Hpos _]]
  end.
  - rewrite E, Hx, Hy; reflexivity.
  - rewrite Hx, Hy in Hpos; lra.
Qed.

(** X6. A ship inside the field does not move when no direction is held, or
    when every direction held is held together with its opposite: the update
    returns the ship as it was, whatever [dt]. *)
Theorem ship_rests_without_net_direction (cfg : Config) (dt : R)
  (keys : string -> bool) (this : Ship.t) :
  left_held keys = right_held keys ->
  up_held keys = down_held keys ->
  Ship.size this <= Ship.x this <= canvasWidth cfg - Ship.size this ->
  Ship.size this <= Ship.y this <= canvasHeight cfg - Ship.size this ->
  Ship.update cfg dt keys this = this.
Proof.
  intros Hh Hv Hx Hy.
  unfold Ship.update; rewrite ship_moved_unfold, (direction_rest keys Hh Hv).
  cbn [fst snd].
  replace (Ship.x this + 0 * shipSpeed cfg * dt) with (Ship.x this) by ring.
  replace (Ship.y this + 0 * shipSpeed cfg * dt) with (Ship.y this) by ring.
  rewrite !clamp_inside by assumption.
  destruct this; reflexivity.
Qed.

Lemma ship_rests_without_net_direction_witness :
  let keys :=
    fun k : string => String.eqb k "ArrowLeft" || String.eqb k "d" in
  Ship.update CONFIG 0.05 keys (Ship.new CONFIG 300 300)
  = Ship.new CONFIG 300 300.
Proof.
  intros keys.
  apply (ship_rests_without_net_direction CONFIG 0.05 keys
           (Ship.new CONFIG 300 300));
    try reflexivity; simpl; lra.
Defined.

(** ** Asteroids *)

(** X7. Two updates of an asteroid at the same multiplier add up: they leave
    it exactly where one update for the sum of the two elapsed times does,
    with the same rotation and velocity; and an update at multiplier 0, or
    for no elapsed time, leaves it where it is. *)
Theorem asteroid_updates_add_up (this : Asteroid.t) (dt1 dt2 m : R) :
  Asteroid.update dt2 m (Asteroid.update dt1 m this)
  = Asteroid.update (dt1 + dt2) m this
  /\ Asteroid.x (Asteroid.update dt1 0 this) = Asteroid.x this
  /\ Asteroid.y (Asteroid.update dt1 0 this) = Asteroid.y this
  /\ Asteroid.x (Asteroid.update 0 m this) = Asteroid.x this
  /\ Asteroid.y (Asteroid.update 0 m this) = Asteroid.y this.
Proof.
  split.
  - unfold Asteroid.update; simpl; f_equal; ring.
  - simpl; repeat split; ring.
Qed.

Lemma nth_error_at_length {A : Type} (l r : list A) (a : A) :
  nth_error (l ++ a :: r) (List.length l) = Some a.
Proof. induction l as [| h l IH]; simpl; [reflexivity | exact IH]. Qed.

Lemma firstn_at_length {A : Type} (l r : list A) :
  firstn (List.length l) (l ++ r) = l.
Proof. induction l as [| h l IH]; simpl; [reflexivity | rewrite IH; reflexivity]. Qed.

Lemma skipn_past_length {A : Type} (l r : list A) (a : A) :
  skipn (S (List.length l)) (l ++ a :: r) = r.
Proof. induction l as [| h l IH]; simpl; [reflexivity | exact IH]. Qed.

(** The backward loop with [i] indices left, on an array whose part from
    index [i] on has been handled already. *)
Lemma splice_loop_prefix {A : Type} (update0 : A -> A) (gone : A -> bool)
  (todo handled : list A) :
  Game.splice_loop update0 gone (List.length todo) (todo ++ handled)
  = Some (filter (fun a => negb (gone a)) (map update0 todo) ++ handled).
Proof.
  revert handled; induction todo as [| a todo IH] using rev_ind;
    intros handled.
  - reflexivity.
  - rewrite length_app, Nat.add_comm.
    cbn [List.length Nat.add Game.splice_loop].
    rewrite <- app_assoc; cbn [app].
    rewrite nth_error_at_length, firstn_at_length, skipn_past_length.
    rewrite firstn_at_length, skipn_past_length.
    rewrite map_app, filter_app; cbn [map filter].
    destruct (gone (update0 a)); cbn [negb].
    + rewrite IH, app_nil_r; reflexivity.
    + rewrite IH, <- app_assoc; reflexivity.
Qed.

Lemma update_asteroids_filter (cfg : Config) (dt m : R)
  (asteroids0 : list Asteroid.t) :
  Game.update_asteroids cfg dt m asteroids0
  = filter (fun a => negb (Asteroid.isOffScreen cfg a))
      (map (Asteroid.update dt m) asteroids0).
Proof.
  unfold Game.update_asteroids.
  induction asteroids0 as [| a rest IH]; [reflexivity |].
  cbn [fold_right map filter]; cbv zeta; rewrite IH.
  destruct (Asteroid.isOffScreen cfg (Asteroid.update dt m a)); reflexivity.
Qed.

Lemma update_particles_filter (dt : R) (particles0 : list Particle.t) :
  Game.update_particles dt particles0
  = filter (fun p => negb (if Rle_dec (Particle.life p) 0 then true else false))
      (map (Particle.update dt) particles0).
Proof.
  unfold Game.update_particles.
  induction particles0 as [| p rest IH]; [reflexivity |].
  cbn [fold_right map filter]; cbv zeta; rewrite IH.
  destruct (Rle_dec (Particle.life (Particle.update dt p)) 0); reflexivity.
Qed.

(** X8. The loops that walk an array from its last index down, update the
    element and splice it out when it is gone, skip nothing and never read
    outside the array: run on all of the asteroids they return every updated
    asteroid that is not off screen, in the order they had, and on the
    particles every updated particle whose life is still above 0. *)
Theorem backward_splice_loop_culls_all (cfg : Config) (dt m : R)
  (asteroids0 : list Asteroid.t) (particles0 : list Particle.t) :
  Game.splice_loop (Asteroid.update dt m) (Asteroid.isOffScreen cfg)
    (List.length asteroids0) asteroids0
  = Some (filter (fun a => negb (Asteroid.isOffScreen cfg a))
            (map (Asteroid.update dt m) asteroids0))
  /\ Game.splice_loop (Asteroid.update dt m) (Asteroid.isOffScreen cfg)
       (List.length asteroids0) asteroids0
     = Some (Game.update_asteroids cfg dt m asteroids0)
  /\ Game.splice_loop (Particle.update dt)
       (fun p => if Rle_dec (Particle.life p) 0 then true else false)
       (List.length particles0) particles0
     = Some (Game.update_particles dt particles0)
  /\ Forall (fun a => Asteroid.isOffScreen cfg a = false)
       (Game.update_asteroids cfg dt m asteroids0)
  /\ Forall (fun p => 0 < Particle.life p)
       (Game.update_particles dt particles0).
Proof.
  pose proof (splice_loop_prefix (Asteroid.update dt m)
                (Asteroid.isOffScreen cfg) asteroids0 []) as Ha.
  pose proof (splice_loop_prefix (Particle.update dt)
                (fun p => if Rle_dec (Particle.life p) 0 then true else false)
                particles0 []) as Hp.
  rewrite !app_nil_r in Ha, Hp.
  split; [exact Ha |].
  split; [rewrite update_asteroids_filter; exact Ha |].
  split; [rewrite update_particles_filter; exact Hp |].
  split.
  - rewrite update_asteroids_filter; apply Forall_forall.
    intros a Hin; apply filter_In in Hin; destruct Hin as [_ Hon].
    apply negb_true_iff; exact Hon.
  - rewrite update_particles_filter; apply Forall_forall.
    intros p Hin; apply filter_In in Hin; destruct Hin as [_ Hon].
    destruct (Rle_dec (Particle.life p) 0); [discriminate | lra].
Qed.

(** Each coordinate differs by no more than the distance. *)
Lemma dist_bounds_coordinates (x1 y1 x2 y2 : R) :
  Rabs (x1 - x2) <= dist x1 y1 x2 y2 /\ Rabs (y1 - y2) <= dist x1 y1 x2 y2.
Proof.
  pose proof (dist_sqr x1 y1 x2 y2) as Hs.
  pose proof (dist_nonneg x1 y1 x2 y2) as Hd.
  set (d := dist x1 y1 x2 y2) in *.
  pose proof (Rle_0_sqr (x1 - x2)) as Hx; pose proof (Rle_0_sqr (y1 - y2)) as Hy.
  unfold Rsqr in Hx, Hy.
  split; unfold Rabs; destruct (Rcase_abs _); apply Rnot_lt_le; intros Hlt.
  - assert (H : d * d < - (x1 - x2) * - (x1 - x2))
      by (apply Rmult_le_0_lt_compat; lra).
    lra.
  - assert (H : d * d < (x1 - x2) * (x1 - x2))
      by (apply Rmult_le_0_lt_compat; lra).
    lra.
  - assert (H : d * d < - (y1 - y2) * - (y1 - y2))
      by (apply Rmult_le_0_lt_compat; lra).
    lra.
  - assert (H : d * d < (y1 - y2) * (y1 - y2))
      by (apply Rmult_le_0_lt_compat; lra).
    lra.
Qed.

(** An asteroid that hits a ship inside the field is not off screen. *)
Lemma hit_is_on_screen (cfg : Config) (ship0 : Ship.t) (a : Asteroid.t) :
  0 <= Ship.size ship0 -> 0 <= Asteroid.size a ->
  Ship.size ship0 <= Ship.x ship0 <= canvasWidth cfg - Ship.size ship0 ->
  Ship.size ship0 <= Ship.y ship0 <= canvasHeight cfg - Ship.size ship0 ->
  Game.hits ship0 a = true ->
  Asteroid.isOffScreen cfg a = false.
Proof.
  intros Hs Ha Hx Hy Hhit; apply hits_iff in Hhit.
  destruct (dist_bounds_coordinates (Ship.x ship0) (Ship.y ship0)
              (Asteroid.x a) (Asteroid.y a)) as [Hdx Hdy].
  unfold Asteroid.isOffScreen, gtb; cbv zeta.
  repeat rewrite orb_false_iff; repeat rewrite ltb_false.
  unfold Rabs in Hdx, Hdy.
  destruct (Rcase_abs (Ship.x ship0 - Asteroid.x a)),
    (Rcase_abs (Ship.y ship0 - Asteroid.y a)); repeat split; lra.
Qed.

(** X9. Culling the asteroids that are off screen before the collision check
    never hides a collision: for a ship inside the field and asteroids of
    non-negative radius, the check finds a hit among the asteroids kept after
    the update exactly when it finds one among all the updated asteroids. *)
Theorem culling_hides_no_collision (cfg : Config) (dt m : R)
  (ship0 : Ship.t) (asteroids0 : list Asteroid.t) :
  0 <= Ship.size ship0 ->
  Ship.size ship0 <= Ship.x ship0 <= canvasWidth cfg - Ship.size ship0 ->
  Ship.size ship0 <= Ship.y ship0 <= canvasHeight cfg - Ship.size ship0 ->
  Forall (fun a => 0 <= Asteroid.size a) asteroids0 ->
  Game.collision ship0 (Game.update_asteroids cfg dt m asteroids0)
  = Game.collision ship0 (map (Asteroid.update dt m) asteroids0).
Proof.
  intros Hs Hx Hy Hsizes.
  apply eq_true_iff_eq; rewrite !collision_iff, update_asteroids_filter.
  split.
  - intros (a & Hin & Hhit); apply filter_In in Hin.
    exists a; tauto.
  - intros (a & Hin & Hhit); exists a; split; [| exact Hhit].
    apply filter_In; split; [exact Hin |].
    apply negb_true_iff, (hit_is_on_screen cfg ship0 a); try assumption.
    apply in_map_iff in Hin; destruct Hin as (a0 & <- & Hin0).
    rewrite Forall_forall in Hsizes; apply (Hsizes a0 Hin0).
Qed.

Lemma culling_hides_no_collision_witness :
  let ship0 := Ship.new CONFIG 4 300 in
  let asteroids0 := [resting_asteroid (-1) 300 6; resting_asteroid 700 300 6] in
  Game.collision ship0 (Game.update_asteroids CONFIG 0.05 1.5 asteroids0)
  = Game.collision ship0 (map (Asteroid.update 0.05 1.5) asteroids0).
Proof.
  intros ship0 asteroids0.
  apply (culling_hides_no_collision CONFIG 0.05 1.5 ship0 asteroids0);
    try (simpl; lra).
  repeat constructor; simpl; lra.
Defined.

(** The vertices the constructor pushes: evenly spaced angles, each radius a
    share between 0.7 and 1 of the size. *)
Lemma build_vertices_shape (size0 : R) (vertCount : Z) (n i : nat)
  (acc : list Asteroid.vertex) :
  draws_only (Asteroid.build_vertices size0 vertCount i n acc)
    (fun l =>
       exists pushed : list Asteroid.vertex,
         l = acc ++ pushed
         /\ List.length pushed = n
         /\ map Asteroid.angle pushed
            = map (fun k => INR k / IZR vertCount * PI * 2) (seq i n)
         /\ Forall (fun v => exists f, 0.7 <= f < 1 /\ Asteroid.r v = size0 * f)
              pushed).
Proof.
  revert i acc; induction n as [| n IH]; intros i acc; simpl.
  - apply draws_only_ret; exists []; rewrite app_nil_r.
    repeat split; constructor.
  - eapply draws_only_bind; [apply draws_only_rand |].
    intros f (u & Hu & ->).
    eapply draws_only_weaken; [apply IH |].
    intros l (pushed & -> & Hlen & Hangles & Hradii).
    eexists (_ :: pushed); rewrite <- app_assoc; simpl.
    split; [reflexivity |].
    split; [congruence |].
    split; [rewrite Hangles; reflexivity |].
    constructor; [| exact Hradii].
    exists (u * (1.0 - 0.7) + 0.7); split; [lra | reflexivity].
Qed.

Lemma spawnFromEdge_velocity (cfg : Config) (size0 rotation0 rotationSpeed0 : R)
  (vertices0 : list Asteroid.vertex) :
  draws_only
    (Asteroid._spawnFromEdge cfg size0 rotation0 rotationSpeed0 vertices0)
    (fun a =>
       Asteroid.size a = size0
       /\ Asteroid.rotation a = rotation0
       /\ Asteroid.rotationSpeed a = rotationSpeed0
       /\ Asteroid.vertices a = vertices0
       /\ Asteroid.vx a = Asteroid.baseVx a
       /\ Asteroid.vy a = Asteroid.baseVy a
       /\ exists u, 0 <= u < 1
           /\ let speed :=
                asteroidBaseSpeed cfg
                + (u * (asteroidSpeedVariance cfg - - asteroidSpeedVariance cfg)
                   + - asteroidSpeedVariance cfg) in
              Asteroid.baseVx a * Asteroid.baseVx a
              + Asteroid.baseVy a * Asteroid.baseVy a = speed * speed).
Proof.
  unfold Asteroid._spawnFromEdge; cbv zeta.
  eapply draws_only_bind; [apply (draws_only_randInt 0 3); lia |].
  intros edge Hedge; cbv beta in Hedge.
  assert (Hcases : (edge = 0 \/ edge = 1 \/ edge = 2 \/ edge = 3)%Z) by lia.
  eapply draws_only_bind with (P := fun _ => True).
  - destruct Hcases as [-> | [-> | [-> | ->]]];
      draw_any; draw_any; draw_any; apply draws_only_ret; exact I.
  - intros [[[x0 y0] aimX] aimY] _.
    draw_any.
    eapply draws_only_bind; [apply draws_only_rand |].
    intros variance (u & Hu & ->); apply draws_only_ret; simpl.
    repeat split; try reflexivity.
    exists u; split; [exact Hu |]; cbv zeta.
    match goal with
    | |- cos ?t * ?s * _ + _ = _ =>
        pose proof (sin2_cos2 t) as Hsc; unfold Rsqr in Hsc;
        set (c := cos t) in *; set (sn := sin t) in *
    end.
    match goal with
    | |- ?l = ?r => replace l with ((sn * sn + c * c) * r) by ring
    end.
    rewrite Hsc; ring.
Qed.

(** X10. A freshly constructed asteroid has a size within the configured
    range, no rotation yet and a spin within the configured bound, one vertex
    per evenly spaced angle, 5 to 8 of them with [CONFIG], each at a radius
    between 0.7 and 1 times the size, and a velocity equal to its base
    velocity, whose length is the base speed changed by at most the
    variance. *)
Theorem fresh_asteroid_shape_and_speed (cfg : Config) (lo hi : Z) (w : World) :
  fair w ->
  asteroidVertices cfg = (IZR lo, IZR hi) -> (0 <= lo <= hi)%Z ->
  asteroidMinSize cfg <= asteroidMaxSize cfg ->
  0 <= asteroidRotationSpeed cfg ->
  0 <= asteroidSpeedVariance cfg ->
  exists (a : Asteroid.t) (w' : World),
    Asteroid.new cfg w = Returns (a, w')
    /\ asteroidMinSize cfg <= Asteroid.size a <= asteroidMaxSize cfg
    /\ Asteroid.rotation a = 0
    /\ - asteroidRotationSpeed cfg <= Asteroid.rotationSpeed a
       <= asteroidRotationSpeed cfg
    /\ (exists count : Z,
          (lo <= count <= hi)%Z
          /\ List.length (Asteroid.vertices a) = Z.to_nat count
          /\ map Asteroid.angle (Asteroid.vertices a)
             = map (fun k => INR k / IZR count * PI * 2)
                 (seq 0 (Z.to_nat count))
          /\ Forall (fun v => exists f, 0.7 <= f < 1
                                /\ Asteroid.r v = Asteroid.size a * f)
               (Asteroid.vertices a))
    /\ Asteroid.vx a = Asteroid.baseVx a
    /\ Asteroid.vy a = Asteroid.baseVy a
    /\ exists speed : R,
         asteroidBaseSpeed cfg - asteroidSpeedVariance cfg <= speed
           <= asteroidBaseSpeed cfg + asteroidSpeedVariance cfg
         /\ Asteroid.baseVx a * Asteroid.baseVx a
            + Asteroid.baseVy a * Asteroid.baseVy a = speed * speed.
Proof.
  intros Hw Hverts Hcount Hsize Hspin Hvar.
  assert (Hrun :
    draws_only (Asteroid.new cfg)
      (fun a =>
         asteroidMinSize cfg <= Asteroid.size a <= asteroidMaxSize cfg
         /\ Asteroid.rotation a = 0
         /\ - asteroidRotationSpeed cfg <= Asteroid.rotationSpeed a
            <= asteroidRotationSpeed cfg
         /\ (exists count : Z,
               (lo <= count <= hi)%Z
               /\ List.length (Asteroid.vertices a) = Z.to_nat count
               /\ map Asteroid.angle (Asteroid.vertices a)
                  = map (fun k => INR k / IZR count * PI * 2)
                      (seq 0 (Z.to_nat count))
               /\ Forall (fun v => exists f, 0.7 <= f < 1
                                     /\ Asteroid.r v = Asteroid.size a * f)
                    (Asteroid.vertices a))
         /\ Asteroid.vx a = Asteroid.baseVx a
         /\ Asteroid.vy a = Asteroid.baseVy a
         /\ exists speed : R,
              asteroidBaseSpeed cfg - asteroidSpeedVariance cfg <= speed
                <= asteroidBaseSpeed cfg + asteroidSpeedVariance cfg
              /\ Asteroid.baseVx a * Asteroid.baseVx a
                 + Asteroid.baseVy a * Asteroid.baseVy a = speed * speed)).
  { unfold Asteroid.new; cbv zeta; rewrite Hverts; cbn [fst snd].
    eapply draws_only_bind; [apply draws_only_rand_range; exact Hsize |].
    intros size0 Hsize0; cbv beta in Hsize0.
    eapply draws_only_bind; [apply draws_only_rand_range; lra |].
    intros spin Hspin0; cbv beta in Hspin0.
    eapply draws_only_bind; [apply (draws_only_randInt lo hi); lia |].
    intros count Hcount0; cbv beta in Hcount0.
    eapply draws_only_bind; [apply build_vertices_shape |].
    intros vertices0 (pushed & Hv & Hlen & Hangles & Hradii).
    simpl in Hv; subst vertices0.
    eapply draws_only_weaken; [apply spawnFromEdge_velocity |].
    intros a (Es & Er & Ers & Ev & Evx & Evy & u & Hu & Hspeed).
    cbv zeta in Hspeed; rewrite Es, Er, Ers, Ev.
    split; [exact Hsize0 |].
    split; [reflexivity |].
    split; [exact Hspin0 |].
    split; [exists count; auto |].
    split; [exact Evx |].
    split; [exact Evy |].
    eexists; split; [| exact Hspeed].
    nra. }
  destruct (Hrun w Hw) as (a & w' & Heq & Hpost & _).
  exists a, w'; split; [exact Heq | exact Hpost].
Qed.

Lemma fresh_asteroid_shape_and_speed_witness :
  exists (a : Asteroid.t) (w' : World),
    Asteroid.new CONFIG (steady_world 0.5 empty_storage) = Returns (a, w')
    /\ asteroidMinSize CONFIG <= Asteroid.size a <= asteroidMaxSize CONFIG
    /\ Asteroid.rotation a = 0
    /\ - asteroidRotationSpeed CONFIG <= Asteroid.rotationSpeed a
       <= asteroidRotationSpeed CONFIG
    /\ (exists count : Z,
          (5 <= count <= 8)%Z
          /\ List.length (Asteroid.vertices a) = Z.to_nat count
          /\ map Asteroid.angle (Asteroid.vertices a)
             = map (fun k => INR k / IZR count * PI * 2)
                 (seq 0 (Z.to_nat count))
          /\ Forall (fun v => exists f, 0.7 <= f < 1
                                /\ Asteroid.r v = Asteroid.size a * f)
               (Asteroid.vertices a))
    /\ Asteroid.vx a = Asteroid.baseVx a
    /\ Asteroid.vy a = Asteroid.baseVy a
    /\ exists speed : R,
         asteroidBaseSpeed CONFIG - asteroidSpeedVariance CONFIG <= speed
           <= asteroidBaseSpeed CONFIG + asteroidSpeedVariance CONFIG
         /\ Asteroid.baseVx a * Asteroid.baseVx a
            + Asteroid.baseVy a * Asteroid.baseVy a = speed * speed.
Proof.
  apply (fresh_asteroid_shape_and_speed CONFIG 5 8
           (steady_world 0.5 empty_storage)).
  - apply steady_world_fair; lra.
  - reflexivity.
  - lia.
  - simpl; lra.
  - simpl; lra.
  - simpl; lra.
Defined.

(** ** Score store *)

Lemma descending_head_is_greatest (best : R) (rest : list R) :
  descending (best :: rest) -> Forall (fun s => s <= best) rest.
Proof.
  unfold descending; intros Hsorted.
  apply Sorted_StronglySorted in Hsorted.
  - inversion Hsorted; assumption.
  - intros a b c Hab Hbc; lra.
Qed.

Lemma sort_desc_of_descending (scores : list R) :
  descending scores -> ScoreManager.sort_desc scores = scores.
Proof.
  unfold descending, ScoreManager.sort_desc; intros Hsorted.
  induction Hsorted as [| h t Ht IH Hhd]; simpl; [reflexivity |].
  rewrite IH; destruct Hhd as [| h' t' Hle]; simpl; [reflexivity |].
  destruct (Rle_dec h' h); [reflexivity | contradiction].
Qed.

(** X11. When the store loads as the array [stored], [getScores] returns its
    entries sorted highest first, the same entries the same number of times,
    and [getBest] returns the greatest of them, or 0 when there is none. *)
Theorem getScores_sorted_getBest_greatest (ls : LocalStorage)
  (stored : list R) :
  ScoreManager._load ls = VArray stored ->
  (exists scores : list R,
      ScoreManager.getScores ls = Returns scores
      /\ Permutation scores stored
      /\ descending scores)
  /\ (exists best : R,
        ScoreManager.getBest ls = Returns best
        /\ Forall (fun s => s <= best) stored
        /\ (stored = [] -> best = 0)
        /\ (stored <> [] -> In best stored)).
Proof.
  intros Hload.
  pose proof (sort_desc_permutation stored) as Hperm.
  pose proof (sort_desc_descending stored) as Hdesc.
  unfold ScoreManager.getBest, ScoreManager.getScores; rewrite Hload; simpl.
  split; [exists (ScoreManager.sort_desc stored); auto |].
  destruct (ScoreManager.sort_desc stored) as [| best rest] eqn:Hsorted.
  - apply Permutation_nil in Hperm; subst stored.
    exists 0; repeat split; auto; contradiction.
  - exists best; split; [reflexivity |].
    pose proof (descending_head_is_greatest best rest Hdesc) as Hrest.
    split; [| split].
    + apply Forall_forall; intros s Hin.
      apply (Permutation_in _ (Permutation_sym Hperm)) in Hin.
      destruct Hin as [<- | Hin]; [lra |].
      rewrite Forall_forall in Hrest; apply Hrest; exact Hin.
    + intros ->; apply Permutation_sym, Permutation_nil in Hperm.
      discriminate.
    + intros _; apply (Permutation_in _ Hperm); left; reflexivity.
Qed.

Lemma getScores_sorted_getBest_greatest_witness :
  (exists scores : list R,
      ScoreManager.getScores (holding [3; 10; 5]) = Returns scores
      /\ Permutation scores [3; 10; 5]
      /\ descending scores)
  /\ (exists best : R,
        ScoreManager.getBest (holding [3; 10; 5]) = Returns best
        /\ Forall (fun s => s <= best) [3; 10; 5]
        /\ ([3; 10; 5] = [] -> best = 0)
        /\ ([3; 10; 5] <> [] -> In best [3; 10; 5])).
Proof.
  apply (getScores_sorted_getBest_greatest (holding [3; 10; 5]) [3; 10; 5]).
  reflexivity.
Defined.

(** X12. On a working store that holds an array, what [addScore] saves is
    what [getScores] reads back, unchanged; and when at least one score is
    kept, [getBest] then returns a score that is at least the one added and
    at least every score held before, and is one of them. *)
Theorem addScore_then_read_back (cfg : Config) (stored : list R) (score : R) :
  (0 < maxScoresSaved cfg)%nat ->
  let saved :=
    firstn (maxScoresSaved cfg) (ScoreManager.sort_desc (stored ++ [score])) in
  exists ls' : LocalStorage,
    ScoreManager.addScore cfg score (holding stored) = Returns ls'
    /\ ScoreManager.getScores ls' = Returns saved
    /\ exists best : R,
         ScoreManager.getBest ls' = Returns best
         /\ score <= best
         /\ Forall (fun s => s <= best) stored
         /\ In best (score :: stored).
Proof.
  intros Hmax saved.
  pose proof (sort_desc_permutation (stored ++ [score])) as Hperm.
  pose proof (sort_desc_descending (stored ++ [score])) as Hdesc.
  exists (holding saved); split; [reflexivity |].
  assert (Hread : ScoreManager.getScores (holding saved) = Returns saved).
  { unfold ScoreManager.getScores; simpl.
    rewrite sort_desc_of_descending; [reflexivity |].
    apply firstn_descending; exact Hdesc. }
  split; [exact Hread |].
  unfold ScoreManager.getBest; rewrite Hread; subst saved.
  destruct (ScoreManager.sort_desc (stored ++ [score])) as [| best rest].
  { apply Permutation_nil in Hperm; destruct stored; discriminate. }
  destruct (maxScoresSaved cfg) as [| n]; [lia |]; simpl.
  exists best; split; [reflexivity |].
  pose proof (descending_head_is_greatest best rest Hdesc) as Hrest.
  rewrite Forall_forall in Hrest.
  assert (Hall : forall s, In s (stored ++ [score]) -> s <= best).
  { intros s Hin; apply (Permutation_in _ (Permutation_sym Hperm)) in Hin.
    destruct Hin as [<- | Hin]; [lra | apply Hrest; exact Hin]. }
  split; [apply Hall, in_or_app; right; left; reflexivity |].
  split.
  - apply Forall_forall; intros s Hin; apply Hall, in_or_app; left; exact Hin.
  - assert (Hin : In best (stored ++ [score]))
      by (apply (Permutation_in _ Hperm); left; reflexivity).
    apply in_app_or in Hin; destruct Hin as [Hin | [<- | []]];
      [right; exact Hin | left; reflexivity].
Qed.

Lemma addScore_then_read_back_witness :
  let saved :=
    firstn (maxScoresSaved CONFIG) (ScoreManager.sort_desc ([10; 5; 3] ++ [8])) in
  exists ls' : LocalStorage,
    ScoreManager.addScore CONFIG 8 (holding [10; 5; 3]) = Returns ls'
    /\ ScoreManager.getScores ls' = Returns saved
    /\ exists best : R,
         ScoreManager.getBest ls' = Returns best
         /\ 8 <= best
         /\ Forall (fun s => s <= best) [10; 5; 3]
         /\ In best [8; 10; 5; 3].
Proof.
  apply (addScore_then_read_back CONFIG [10; 5; 3] 8).
  simpl; lia.
Defined.

(** X13. When nothing usable is stored (the item is missing, empty or does
    not parse, or reading fails) and writing works, [addScore] replaces
    whatever was there by the new score alone; and when writing fails on a
    store that loads as an array, it returns with the store as it was. *)
Theorem addScore_without_usable_scores (cfg : Config) (ls : LocalStorage)
  (score : R) :
  (readable ls = false \/ item ls = None \/ item ls = Some EmptyText
   \/ item ls = Some Unparsable ->
   writable ls = true ->
   ScoreManager.addScore cfg score ls
   = Returns {| readable := readable ls; writable := true;
                item := Some (ScoreManager.JSON_stringify
                                (firstn (maxScoresSaved cfg) [score])) |})
  /\ (loadable ls -> writable ls = false ->
      ScoreManager.addScore cfg score ls = Returns ls).
Proof.
  split.
  - intros Hbad Hwrite.
    assert (Hload : ScoreManager._load ls = VArray []).
    { unfold ScoreManager._load, ScoreManager.getItem.
      destruct (readable ls); [| reflexivity].
      destruct Hbad as [H | [-> | [-> | ->]]];
        [discriminate | reflexivity ..]. }
    unfold ScoreManager.addScore, ScoreManager._save, ScoreManager.setItem.
    rewrite Hload, Hwrite; reflexivity.
  - intros [l Hload] Hwrite.
    unfold ScoreManager.addScore, ScoreManager._save, ScoreManager.setItem.
    rewrite Hload, Hwrite; reflexivity.
Qed.

Lemma addScore_without_usable_scores_witness :
  ScoreManager.addScore CONFIG 12
    {| readable := true; writable := true; item := Some Unparsable |}
  = Returns (holding [12])
  /\ ScoreManager.addScore CONFIG 12
       {| readable := true; writable := false;
          item := Some (Parsable (VArray [10; 5])) |}
     = Returns {| readable := true; writable := false;
                  item := Some (Parsable (VArray [10; 5])) |}.
Proof.
  split.
  - apply (addScore_without_usable_scores CONFIG
             {| readable := true; writable := true; item := Some Unparsable |}
             12); [right; right; right; reflexivity | reflexivity].
  - apply (addScore_without_usable_scores CONFIG
             {| readable := true; writable := false;
                item := Some (Parsable (VArray [10; 5])) |} 12);
      [exists [10; 5]; reflexivity | reflexivity].
Defined.

(** ** Explosion particles *)

Lemma particle_new_fresh (x0 y0 : R) :
  draws_only (Particle.new x0 y0) (fresh_particle x0 y0).
Proof.
  unfold Particle.new.
  replace (INR (List.length Particle.colors) - 1) with 5 by (simpl; lra).
  draw_any.
  eapply draws_only_bind; [apply draws_only_rand |].
  intros speed (us & Hus & ->).
  eapply draws_only_bind; [apply draws_only_rand |].
  intros decay0 (ud & Hud & ->).
  eapply draws_only_bind; [apply draws_only_rand |].
  intros size0 (uz & Huz & ->).
  eapply draws_only_bind.
  { apply (draws_only_randInt 0 5); lia. }
  intros i Hi; cbv beta in Hi.
  eapply draws_only_bind with (P := fun c => In c Particle.colors).
  - unfold Particle.color_at.
    assert (Hcases : (i = 0 \/ i = 1 \/ i = 2 \/ i = 3 \/ i = 4 \/ i = 5)%Z)
      by lia.
    destruct Hcases as [-> | [-> | [-> | [-> | [-> | ->]]]]]; simpl;
      apply draws_only_ret; simpl; tauto.
  - intros c Hc; apply draws_only_ret.
    unfold fresh_particle; simpl.
    split; [reflexivity |].
    split; [reflexivity |].
    split; [lra |].
    split; [lra |].
    split; [lra |].
    split; [exact Hc |].
    exists (us * (250 - 60) + 60); split; [lra |].
    match goal with
    | |- cos ?t * ?s * _ + _ = _ =>
        pose proof (sin2_cos2 t) as Hsc; unfold Rsqr in Hsc;
        set (cs := cos t) in *; set (sn := sin t) in *
    end.
    match goal with
    | |- ?l = ?r => replace l with ((sn * sn + cs * cs) * r) by ring
    end.
    rewrite Hsc; ring.
Qed.

Lemma aged_app (dts more : list R) (this : Particle.t) :
  aged (dts ++ more) this = aged more (aged dts this).
Proof. unfold aged; apply fold_left_app. Qed.

Lemma aged_life (dts : list R) (this : Particle.t) :
  Particle.decay (aged dts this) = Particle.decay this
  /\ Particle.life (aged dts this)
     = Particle.life this - Particle.decay this * total_s dts.
Proof.
  unfold aged; revert this.
  induction dts as [| dt dts IH]; intros this; simpl.
  - split; [reflexivity | ring].
  - destruct (IH (Particle.update dt this)) as [Hd Hl].
    rewrite Hd, Hl; simpl; split; [reflexivity | ring].
Qed.

(** X14. The life of a particle goes down by its decay times the time that
    passes, whatever the frames this time comes in, and its decay, size and
    colour never change; each update moves it by its velocity times [dt] and
    then slows it down: for [0 <= dt <= 1] its speed does not grow, and for
    the frames the loop hands out ([dt <= 0.05]) it keeps at least 0.9 of
    it. *)
Theorem particle_fades_and_slows (this : Particle.t) (dts : list R) (dt : R) :
  let speed2 := fun p : Particle.t =>
    Particle.vx p * Particle.vx p + Particle.vy p * Particle.vy p in
  Particle.life (aged dts this)
    = Particle.life this - Particle.decay this * total_s dts
  /\ Particle.decay (aged dts this) = Particle.decay this
  /\ Particle.x (Particle.update dt this)
     = Particle.x this + Particle.vx this * dt
  /\ Particle.y (Particle.update dt this)
     = Particle.y this + Particle.vy this * dt
  /\ speed2 (Particle.update dt this)
     = (1 - 2 * dt) * (1 - 2 * dt) * speed2 this
  /\ (0 <= dt <= 1 -> speed2 (Particle.update dt this) <= speed2 this)
  /\ (0 <= dt <= 0.05 ->
      0.9 * 0.9 * speed2 this <= speed2 (Particle.update dt this)).
Proof.
  intros speed2.
  destruct (aged_life dts this) as [Hd Hl].
  split; [exact Hl |].
  split; [exact Hd |].
  split; [reflexivity |].
  split; [reflexivity |].
  assert (Hs : speed2 (Particle.update dt this)
               = (1 - 2 * dt) * (1 - 2 * dt) * speed2 this)
    by (unfold speed2; simpl; ring).
  split; [exact Hs |].
  assert (Hnn : 0 <= speed2 this)
    by (unfold speed2; apply sum_squares_nonneg).
  rewrite Hs; split; intros Hdt.
  - assert (Hf : (1 - 2 * dt) * (1 - 2 * dt) <= 1) by nra.
    nra.
  - assert (Hf : 0.9 * 0.9 <= (1 - 2 * dt) * (1 - 2 * dt)) by nra.
    nra.
Qed.

Lemma particle_fades_and_slows_witness :
  let this :=
    {| Particle.x := 300; Particle.y := 300; Particle.vx := 60;
       Particle.vy := 80; Particle.life := 1; Particle.decay := 2;
       Particle.size := 3; Particle.color := "#ff4444" |} in
  let speed2 := fun p : Particle.t =>
    Particle.vx p * Particle.vx p + Particle.vy p * Particle.vy p in
  speed2 (Particle.update 0.05 this) <= speed2 this
  /\ 0.9 * 0.9 * speed2 this <= speed2 (Particle.update 0.05 this).
Proof.
  intros this speed2.
  destruct (particle_fades_and_slows this [] 0.05)
    as (_ & _ & _ & _ & _ & Hslow & Hkeep).
  split; [apply Hslow | apply Hkeep]; lra.
Defined.

(** ** Game over *)

Lemma updateGameOver_runs (cfg : Config) (dt : R) (this : Game.t) :
  draws_only (Game.updateGameOver cfg dt this) (gameover_step cfg dt this).
Proof.
  unfold Game.updateGameOver; cbv zeta.
  set (base :=
         Game.set_asteroids
           (Game.update_asteroids cfg dt 1
              (Game.asteroids
                 (Game.set_particles
                    (Game.update_particles dt (Game.particles this)) this)))
           (Game.set_particles
              (Game.update_particles dt (Game.particles this)) this)).
  assert (Hbase : Game.shakeTimer base = Game.shakeTimer this) by reflexivity.
  destruct (Rlt_dec 0 (Game.shakeTimer base)) as [Hshake | Hstill];
    rewrite Hbase in *.
  - set (intensity :=
           screenShakeIntensity cfg
           * (Game.shakeTimer
                (Game.set_shakeTimer (Game.shakeTimer base - dt) base)
              / (screenShakeDuration cfg / 1000))).
    eapply draws_only_bind with
      (P := fun shaken =>
              exists ux uy : R,
                0 <= ux < 1 /\ 0 <= uy < 1
                /\ shaken
                   = Game.set_shakeY
                       (uy * (intensity - - intensity) + - intensity)
                       (Game.set_shakeX
                          (ux * (intensity - - intensity) + - intensity)
                          (Game.set_shakeTimer
                             (Game.shakeTimer base - dt) base))).
    + eapply draws_only_bind; [apply draws_only_rand |].
      intros sx (ux & Hux & ->).
      eapply draws_only_bind; [apply draws_only_rand |].
      intros sy (uy & Huy & ->).
      apply draws_only_ret; exists ux, uy; auto.
    + intros shaken (ux & uy & Hux & Huy & ->).
      unfold intensity; simpl.
      destruct (Rlt_dec 0.8 _) as [Hready | Hwait]; apply draws_only_ret;
        unfold gameover_step; simpl;
        (destruct (Rlt_dec 0.8 _); [| try contradiction]; try contradiction);
        (split; [reflexivity |]); (split; [reflexivity |]);
        (split; [reflexivity |]); (split; [reflexivity |]);
        (split; [intros _; split; [reflexivity |]; exists ux, uy; auto |]);
        (split; [intros Hle; lra |]);
        repeat split; reflexivity.
  - eapply draws_only_bind with
      (P := fun still =>
              still = Game.set_shakeY 0 (Game.set_shakeX 0 base)).
    + apply draws_only_ret; reflexivity.
    + intros still ->; simpl.
      destruct (Rlt_dec 0.8 _) as [Hready | Hwait]; apply draws_only_ret;
        unfold gameover_step; simpl;
        (destruct (Rlt_dec 0.8 _); [| try contradiction]; try contradiction);
        (split; [reflexivity |]); (split; [reflexivity |]);
        (split; [reflexivity |]); (split; [reflexivity |]);
        (split; [intros Hlt; lra |]);
        (split; [intros _; repeat split; reflexivity |]);
        repeat split; reflexivity.
Qed.

Lemma triggerGameOver_explodes (cfg : Config) (this : Game.t) :
  completes (Game.triggerGameOver cfg this)
    (fun after =>
       ended cfg this after
       /\ Game.gameOverTimer after = 0
       /\ Game.gameOverReady after = false
       /\ Game.shakeTimer after = screenShakeDuration cfg / 1000
       /\ Game.keys after = Game.keys this
       /\ exists burst : list Particle.t,
            Game.particles after = Game.particles this ++ burst
            /\ List.length burst = explosionParticleCount cfg
            /\ Forall
                 (fresh_particle (Ship.x (Game.ship this))
                    (Ship.y (Game.ship this)))
                 burst).
Proof.
  unfold Game.triggerGameOver; cbv zeta.
  eapply completes_bind; [apply addScore_completes | intros _ _].
  eapply completes_bind; [apply getBest_completes | intros best _].
  eapply completes_bind; [apply getScores_completes | intros top _].
  eapply completes_bind.
  { apply draws_only_completes, draws_only_push_times, particle_new_fresh. }
  intros exploded (burst & -> & Hlen & Hfresh); apply completes_ret.
  simpl in *.
  split; [unfold ended; simpl; repeat split; reflexivity |].
  repeat (split; [reflexivity |]).
  exists burst; auto.
Qed.

Lemma update_particles_alive (dt : R) (particles0 : list Particle.t) :
  Forall
    (fun q => 0 < Particle.life q
              /\ exists p, In p particles0 /\ q = Particle.update dt p)
    (Game.update_particles dt particles0).
Proof.
  rewrite update_particles_filter; apply Forall_forall.
  intros q Hin; apply filter_In in Hin; destruct Hin as [Hin Hon].
  split.
  - destruct (Rle_dec (Particle.life q) 0); [discriminate | lra].
  - apply in_map_iff in Hin; destruct Hin as (p & <- & Hp); exists p; auto.
Qed.

(** Frames after the end of a run: [update] goes on calling
    [updateGameOver]. *)
Lemma frames_gameover (cfg : Config) (dts : list R) (this : Game.t) :
  Game.state this = Game.gameover ->
  draws_only (Game.frames cfg dts this)
    (fun after =>
       Game.state after = Game.gameover
       /\ Game.gameOverTimer after = Game.gameOverTimer this + total_s dts
       /\ (Forall (fun dt => 0 <= dt) dts ->
           (Game.gameOverReady this = true <-> 0.8 < Game.gameOverTimer this) ->
           (Game.gameOverReady after = true
            <-> 0.8 < Game.gameOverTimer after))
       /\ (Forall (fun p => 0 < Particle.life p) (Game.particles this) ->
           Forall
             (fun q => exists p, In p (Game.particles this)
                                 /\ q = aged dts p /\ 0 < Particle.life q)
             (Game.particles after))
       /\ Game.asteroids after
          = fold_left (fun l dt => Game.update_asteroids cfg dt 1 l) dts
              (Game.asteroids this)
       /\ Game.ship after = Game.ship this
       /\ Game.elapsedTime after = Game.elapsedTime this
       /\ Game.bestScore after = Game.bestScore this
       /\ Game.finalScore after = Game.finalScore this
       /\ Game.topScores after = Game.topScores this
       /\ Game.spawnTimer after = Game.spawnTimer this
       /\ Game.surgeActive after = Game.surgeActive this
       /\ Game.surgeTimer after = Game.surgeTimer this
       /\ Game.surgeDurationTimer after = Game.surgeDurationTimer this
       /\ Game.speedMultiplier after = Game.speedMultiplier this).
Proof.
  revert this; induction dts as [| dt dts IH]; intros this Hover; simpl.
  - apply draws_only_ret.
    split; [exact Hover |].
    split; [ring |].
    split; [intros _ Hready; exact Hready |].
    split.
    { intros Halive; apply Forall_forall; intros q Hq; exists q.
      rewrite Forall_forall in Halive; auto. }
    repeat split; reflexivity.
  - unfold Game.update; rewrite Hover.
    eapply draws_only_bind; [apply updateGameOver_runs |].
    intros mid Hstep.
    destruct Hstep as (Hp & Ha & Ht & Hr & _ & _ & Hs & _ & Hship & Hel & Hb
                       & Hf & Htop & Hsp & Hsa & Hst & Hsd & Hm).
    rewrite Hover in Hs.
    eapply draws_only_weaken; [apply (IH mid Hs) |].
    intros after (Hs' & Ht' & Hr' & Hp' & Ha' & Hship' & Hel' & Hb' & Hf'
                  & Htop' & Hsp' & Hsa' & Hst' & Hsd' & Hm').
    split; [exact Hs' |].
    split; [rewrite Ht', Ht; ring |].
    split.
    { intros Hnn Hready; apply Forall_cons_iff in Hnn; destruct Hnn as [Hdt Hnn].
      apply Hr'; [exact Hnn |].
      rewrite Hr, Ht.
      destruct (Rlt_dec 0.8 (Game.gameOverTimer this + dt)) as [Hlt | Hge].
      - tauto.
      - split; [intros Hrd; apply Hready in Hrd; lra | intros Hlt; lra]. }
    split.
    { intros Halive.
      pose proof (update_particles_alive dt (Game.particles this)) as Hmid.
      rewrite <- Hp in Hmid.
      assert (Hpos : Forall (fun p => 0 < Particle.life p) (Game.particles mid)).
      { eapply Forall_impl; [| exact Hmid]; intros q [Hq _]; exact Hq. }
      specialize (Hp' Hpos).
      rewrite Forall_forall in Hp', Hmid |- *.
      intros q Hq; destruct (Hp' q Hq) as (p' & Hin' & -> & Hlife).
      destruct (Hmid p' Hin') as (_ & p & Hin & ->).
      exists p; auto. }
    split; [rewrite Ha', Ha; reflexivity |].
    repeat split; congruence.
Qed.

Lemma total_s_nonneg (dts : list R) :
  Forall (fun dt => 0 <= dt) dts -> 0 <= total_s dts.
Proof. induction 1 as [| dt rest Hdt _ IH]; simpl; lra. Qed.

(** X15. After the end of a run that had no particles, the game stays over
    frame after frame, its timer is the time since the end, it becomes ready
    for a restart exactly when more than 0.8 s have passed, and every
    particle of the explosion is gone once 2/3 s have passed: no particle is
    left when a restart is allowed. *)
Theorem restart_allowed_after_explosion (cfg : Config) (this : Game.t)
  (w : World) (dts : list R) :
  fair w -> loadable (localStorage w) ->
  Game.particles this = [] ->
  Forall (fun dt => 0 <= dt) dts ->
  exists (over : Game.t) (w1 : World) (after : Game.t) (w2 : World),
    Game.triggerGameOver cfg this w = Returns (over, w1)
    /\ List.length (Game.particles over) = explosionParticleCount cfg
    /\ Game.gameOverReady over = false
    /\ Game.frames cfg dts over w1 = Returns (after, w2)
    /\ Game.state after = Game.gameover
    /\ Game.gameOverTimer after = total_s dts
    /\ (Game.gameOverReady after = true <-> 0.8 < total_s dts)
    /\ (2 / 3 <= total_s dts -> Game.particles after = [])
    /\ (Game.gameOverReady after = true -> Game.particles after = []).
Proof.
  intros Hw Hl Hnone Hdts.
  destruct (triggerGameOver_explodes cfg this w Hw Hl)
    as (over & w1 & Hrun1 & (Hend & Ht0 & Hr0 & _ & _ & burst & Hb & Hlen
                             & Hfresh) & Hw1 & _).
  rewrite Hnone in Hb; simpl in Hb.
  destruct Hend as (Hstate & _).
  destruct (frames_gameover cfg dts over Hstate w1 Hw1)
    as (after & w2 & Hrun2 & (Hs & Ht & Hr & Hp & _) & _).
  exists over, w1, after, w2.
  rewrite Ht0, Rplus_0_l in Ht.
  assert (Hready : Game.gameOverReady after = true <-> 0.8 < total_s dts).
  { rewrite <- Ht; apply Hr; [exact Hdts |].
    rewrite Hr0, Ht0; split; [discriminate | lra]. }
  assert (Hgone : 2 / 3 <= total_s dts -> Game.particles after = []).
  { intros Hlong.
    assert (Halive : Forall (fun p => 0 < Particle.life p)
                       (Game.particles over)).
    { rewrite Hb; eapply Forall_impl; [| exact Hfresh].
      intros p (_ & _ & Hlife & _); rewrite Hlife; lra. }
    specialize (Hp Halive).
    destruct (Game.particles after) as [| q rest]; [reflexivity |].
    exfalso; destruct (Forall_inv Hp) as (p & Hin & Hq & Hlife).
    rewrite Hq in Hlife.
    rewrite Hb in Hin; rewrite Forall_forall in Hfresh.
    destruct (Hfresh p Hin) as (_ & _ & Hone & Hdecay & _).
    destruct (aged_life dts p) as [_ Hl'].
    rewrite Hl', Hone in Hlife; nra. }
  split; [exact Hrun1 |].
  split; [rewrite Hb; exact Hlen |].
  split; [exact Hr0 |].
  split; [exact Hrun2 |].
  split; [exact Hs |].
  split; [exact Ht |].
  split; [exact Hready |].
  split; [exact Hgone |].
  intros Hrd; apply Hgone; apply Hready in Hrd; lra.
Qed.

Lemma restart_allowed_after_explosion_witness :
  let this := fresh_run CONFIG 5000 in
  let w := steady_world 0.5 empty_storage in
  let dts := repeat 0.05 17 in
  exists (over : Game.t) (w1 : World) (after : Game.t) (w2 : World),
    Game.triggerGameOver CONFIG this w = Returns (over, w1)
    /\ List.length (Game.particles over) = explosionParticleCount CONFIG
    /\ Game.gameOverReady over = false
    /\ Game.frames CONFIG dts over w1 = Returns (after, w2)
    /\ Game.state after = Game.gameover
    /\ Game.gameOverTimer after = total_s dts
    /\ (Game.gameOverReady after = true <-> 0.8 < total_s dts)
    /\ (2 / 3 <= total_s dts -> Game.particles after = [])
    /\ (Game.gameOverReady after = true -> Game.particles after = []).
Proof.
  intros this w dts.
  apply (restart_allowed_after_explosion CONFIG this w dts).
  - apply steady_world_fair; lra.
  - apply empty_storage_loadable.
  - reflexivity.
  - apply frames_nonneg, repeat_frames; lra.
Defined.

(** X16. Once a run is over, frames change neither the state (it stays game
    over whatever time passes), nor the ship, the elapsed time, the scores,
    the surge state or the store; the asteroids go on moving at multiplier 1
    whatever the surge multiplier was, and are culled as during play. *)
Theorem game_over_is_terminal (cfg : Config) (dts : list R) (this : Game.t)
  (w : World) :
  fair w ->
  Game.state this = Game.gameover ->
  exists (after : Game.t) (w' : World),
    Game.frames cfg dts this w = Returns (after, w')
    /\ Game.state after = Game.gameover
    /\ localStorage w' = localStorage w
    /\ Game.ship after = Game.ship this
    /\ Game.elapsedTime after = Game.elapsedTime this
    /\ Game.finalScore after = Game.finalScore this
    /\ Game.bestScore after = Game.bestScore this
    /\ Game.topScores after = Game.topScores this
    /\ Game.surgeActive after = Game.surgeActive this
    /\ Game.speedMultiplier after = Game.speedMultiplier this
    /\ Game.asteroids after
       = fold_left (fun l dt => Game.update_asteroids cfg dt 1 l) dts
           (Game.asteroids this).
Proof.
  intros Hw Hover.
  destruct (frames_gameover cfg dts this Hover w Hw)
    as (after & w' & Hrun & Hpost & _ & Hls & _).
  destruct Hpost as (Hs & _ & _ & _ & Ha & Hship & Hel & Hb & Hf & Htop & _
                     & Hsa & _ & _ & Hm).
  exists after, w'; repeat split; assumption.
Qed.

Lemma game_over_is_terminal_witness :
  let this :=
    Game.set_speedMultiplier 1.5
      (Game.set_asteroids [resting_asteroid 300 300 6]
         (Game.set_state Game.gameover (fresh_run CONFIG 5000))) in
  let w := steady_world 0.5 empty_storage in
  exists (after : Game.t) (w' : World),
    Game.frames CONFIG [0.05; 0.05] this w = Returns (after, w')
    /\ Game.state after = Game.gameover
    /\ localStorage w' = localStorage w
    /\ Game.ship after = Game.ship this
    /\ Game.elapsedTime after = Game.elapsedTime this
    /\ Game.finalScore after = Game.finalScore this
    /\ Game.bestScore after = Game.bestScore this
    /\ Game.topScores after = Game.topScores this
    /\ Game.surgeActive after = Game.surgeActive this
    /\ Game.speedMultiplier after = Game.speedMultiplier this
    /\ Game.asteroids after
       = fold_left (fun l dt => Game.update_asteroids CONFIG dt 1 l)
           [0.05; 0.05] (Game.asteroids this).
Proof.
  intros this w.
  apply (game_over_is_terminal CONFIG [0.05; 0.05] this w).
  - apply steady_world_fair; lra.
  - reflexivity.
Defined.

(** The best of the scores kept after one is added. *)
Lemma best_after_adding (n : nat) (stored : list R) (score : R) :
  (0 < n)%nat ->
  exists (best : R) (rest : list R),
    firstn n (ScoreManager.sort_desc (stored ++ [score])) = best :: rest
    /\ score <= best
    /\ Forall (fun s => s <= best) stored
    /\ In best (score :: stored).
Proof.
  intros Hn.
  pose proof (sort_desc_permutation (stored ++ [score])) as Hperm.
  pose proof (sort_desc_descending (stored ++ [score])) as Hdesc.
  destruct (ScoreManager.sort_desc (stored ++ [score])) as [| best rest].
  { apply Permutation_nil in Hperm; destruct stored; discriminate. }
  destruct n as [| n]; [lia |]; simpl.
  exists best, (firstn n rest); split; [reflexivity |].
  pose proof (descending_head_is_greatest best rest Hdesc) as Hrest.
  rewrite Forall_forall in Hrest.
  assert (Hall : forall s, In s (stored ++ [score]) -> s <= best).
  { intros s Hin; apply (Permutation_in _ (Permutation_sym Hperm)) in Hin.
    destruct Hin as [<- | Hin]; [lra | apply Hrest; exact Hin]. }
  split; [apply Hall, in_or_app; right; left; reflexivity |].
  split.
  - apply Forall_forall; intros s Hin; apply Hall, in_or_app; left; exact Hin.
  - assert (Hin : In best (stored ++ [score]))
      by (apply (Permutation_in _ Hperm); left; reflexivity).
    apply in_app_or in Hin; destruct Hin as [Hin | [<- | []]];
      [right; exact Hin | left; reflexivity].
Qed.

(** X17. The end of a run on a working store that holds the scores [stored]
    commits the elapsed time as the score: the store then holds the old
    scores and the new one, highest first, cut to [maxScoresSaved];
    [topScores] is that list, [finalScore] the elapsed time and [bestScore]
    the first of the list, which is never below [finalScore]; the two are
    equal (the case in which the game-over screen writes NEW BEST) exactly
    when no stored score was higher than the elapsed time, a tie
    included. *)
Theorem triggerGameOver_commits_score (cfg : Config) (this : Game.t)
  (w : World) (stored : list R) :
  fair w ->
  localStorage w = holding stored ->
  (0 < maxScoresSaved cfg)%nat ->
  let score := Game.elapsedTime this in
  let saved :=
    firstn (maxScoresSaved cfg) (ScoreManager.sort_desc (stored ++ [score])) in
  exists (after : Game.t) (w' : World),
    Game.triggerGameOver cfg this w = Returns (after, w')
    /\ localStorage w' = holding saved
    /\ Game.state after = Game.gameover
    /\ Game.finalScore after = Some score
    /\ Game.topScores after = Some saved
    /\ Some (Game.bestScore after) = hd_error saved
    /\ score <= Game.bestScore after
    /\ (Game.bestScore after <= score
        <-> Forall (fun s => s <= score) stored).
Proof.
  intros Hw Hls Hmax score saved.
  destruct (best_after_adding (maxScoresSaved cfg) stored score Hmax)
    as (best & rest & Hsaved & Hscore & Hall & Hin).
  fold saved in Hsaved.
  pose (w1 := {| rng := rng w; localStorage := holding saved |}).
  assert (Hread : ScoreManager.getScores (holding saved) = Returns saved).
  { unfold ScoreManager.getScores; simpl.
    rewrite sort_desc_of_descending; [reflexivity |].
    apply firstn_descending, sort_desc_descending. }
  assert (Hw1 : fair w1) by exact Hw.
  destruct (draws_only_push_times
              (Particle.new (Ship.x (Game.ship this)) (Ship.y (Game.ship this)))
              (fresh_particle (Ship.x (Game.ship this))
                 (Ship.y (Game.ship this)))
              (explosionParticleCount cfg) (Game.particles this)
              (particle_new_fresh _ _) w1 Hw1)
    as (exploded & w2 & Hrun & _ & _ & Hls2 & _).
  assert (Hadd :
            Game.write_storage (ScoreManager.addScore cfg score) w
            = Returns (tt, w1)).
  { unfold Game.write_storage; rewrite Hls; reflexivity. }
  assert (Hbest :
            Game.read_storage ScoreManager.getBest w1 = Returns (best, w1)).
  { unfold Game.read_storage, ScoreManager.getBest.
    change (localStorage w1) with (holding saved).
    rewrite Hread, Hsaved; reflexivity. }
  assert (Htop :
            Game.read_storage ScoreManager.getScores w1 = Returns (saved, w1)).
  { unfold Game.read_storage.
    change (localStorage w1) with (holding saved).
    rewrite Hread; reflexivity. }
  eexists; exists w2.
  split.
  { unfold Game.triggerGameOver; cbv zeta.
    cbn [Game.elapsedTime Game.set_state Game.set_gameOverReady
           Game.set_gameOverTimer].
    fold score.
    unfold bind at 1; rewrite Hadd.
    unfold bind at 1; rewrite Hbest.
    unfold bind at 1; rewrite Htop.
    unfold bind at 1; simpl Game.particles; simpl Game.ship.
    rewrite Hrun; reflexivity. }
  simpl.
  split; [exact Hls2 |].
  split; [reflexivity |].
  split; [reflexivity |].
  split; [reflexivity |].
  split; [rewrite Hsaved; reflexivity |].
  split; [exact Hscore |].
  split.
  - intros Hle; eapply Forall_impl; [| exact Hall]; intros s Hs; simpl in Hs; lra.
  - intros Hstored; destruct Hin as [<- | Hin]; [lra |].
    rewrite Forall_forall in Hstored; apply Hstored; exact Hin.
Qed.

Lemma triggerGameOver_commits_score_witness :
  let this := Game.set_elapsedTime 8 (fresh_run CONFIG 5000) in
  let w := steady_world 0.5 (holding [10; 5; 3]) in
  let saved :=
    firstn (maxScoresSaved CONFIG)
      (ScoreManager.sort_desc ([10; 5; 3] ++ [Game.elapsedTime this])) in
  exists (after : Game.t) (w' : World),
    Game.triggerGameOver CONFIG this w = Returns (after, w')
    /\ localStorage w' = holding saved
    /\ Game.state after = Game.gameover
    /\ Game.finalScore after = Some (Game.elapsedTime this)
    /\ Game.topScores after = Some saved
    /\ Some (Game.bestScore after) = hd_error saved
    /\ Game.elapsedTime this <= Game.bestScore after
    /\ (Game.bestScore after <= Game.elapsedTime this
        <-> Forall (fun s => s <= Game.elapsedTime this) [10; 5; 3]).
Proof.
  intros this w saved.
  apply (triggerGameOver_commits_score CONFIG this w [10; 5; 3]).
  - apply steady_world_fair; lra.
  - reflexivity.
  - simpl; lia.
Defined.

(** A draw between [- i] and [i] is no larger than [i] in size. *)
Lemma shake_offset_bound (u i bound : R) :
  0 <= u < 1 -> - bound <= i <= bound ->
  Rabs (u * (i - - i) + - i) <= bound.
Proof.
  intros Hu Hi; apply Rabs_le.
  replace (u * (i - - i) + - i) with (i * (2 * u - 1)) by ring.
  assert (Hf : -1 <= 2 * u - 1 <= 1) by lra.
  split; nra.
Qed.

(** X18. During game over the screen shake never exceeds the configured
    intensity: for a frame no longer than the shake lasts and a shake timer
    no larger than the shake duration, both offsets drawn are at most
    [screenShakeIntensity] in size and the timer stays within the duration;
    and once the timer has run out the offsets are 0. *)
Theorem shake_within_intensity (cfg : Config) (dt : R) (this : Game.t)
  (w : World) :
  fair w ->
  0 < screenShakeDuration cfg -> 0 <= screenShakeIntensity cfg ->
  0 <= dt <= screenShakeDuration cfg / 1000 ->
  Game.shakeTimer this <= screenShakeDuration cfg / 1000 ->
  exists (after : Game.t) (w' : World),
    Game.updateGameOver cfg dt this w = Returns (after, w')
    /\ Game.shakeTimer after <= screenShakeDuration cfg / 1000
    /\ Rabs (Game.shakeX after) <= screenShakeIntensity cfg
    /\ Rabs (Game.shakeY after) <= screenShakeIntensity cfg
    /\ (Game.shakeTimer this <= 0 ->
        Game.shakeX after = 0 /\ Game.shakeY after = 0).
Proof.
  intros Hw HD HI Hdt Htimer.
  destruct (updateGameOver_runs cfg dt this w Hw)
    as (after & w' & Hrun & Hstep & _).
  exists after, w'; split; [exact Hrun |].
  destruct Hstep as (_ & _ & _ & _ & Hshake & Hstill & _).
  set (D := screenShakeDuration cfg / 1000) in *.
  assert (HDpos : 0 < D) by (unfold D; lra).
  destruct (Rlt_dec 0 (Game.shakeTimer this)) as [Hpos | Hzero].
  - destruct (Hshake Hpos) as (Et & ux & uy & Hux & Huy & Ex & Ey).
    cbv zeta in Ex, Ey.
    assert (Hratio : -1 <= (Game.shakeTimer this - dt) / D <= 1).
    { assert (Hr : (Game.shakeTimer this - dt) / D * D
                   = Game.shakeTimer this - dt) by (field; lra).
      set (r := (Game.shakeTimer this - dt) / D) in *; split; nra. }
    assert (Hi : - screenShakeIntensity cfg
                 <= screenShakeIntensity cfg * ((Game.shakeTimer this - dt) / D)
                 <= screenShakeIntensity cfg).
    { set (r := (Game.shakeTimer this - dt) / D) in *; split; nra. }
    rewrite Et, Ex, Ey.
    split; [lra |].
    split; [apply shake_offset_bound; assumption |].
    split; [apply shake_offset_bound; assumption |].
    intros Hle; lra.
  - assert (Hle : Game.shakeTimer this <= 0) by lra.
    destruct (Hstill Hle) as (Et & Ex & Ey).
    rewrite Et, Ex, Ey, Rabs_R0; repeat split; auto; lra.
Qed.

Lemma shake_within_intensity_witness :
  let this :=
    Game.set_shakeTimer 0.4 (Game.set_state Game.gameover (fresh_run CONFIG 5000)) in
  exists (after : Game.t) (w' : World),
    Game.updateGameOver CONFIG 0.05 this (steady_world 0.5 empty_storage)
    = Returns (after, w')
    /\ Game.shakeTimer after <= screenShakeDuration CONFIG / 1000
    /\ Rabs (Game.shakeX after) <= screenShakeIntensity CONFIG
    /\ Rabs (Game.shakeY after) <= screenShakeIntensity CONFIG
    /\ (Game.shakeTimer this <= 0 ->
        Game.shakeX after = 0 /\ Game.shakeY after = 0).
Proof.
  intros this.
  apply (shake_within_intensity CONFIG 0.05 this
           (steady_world 0.5 empty_storage)).
  - apply steady_world_fair; lra.
  - simpl; lra.
  - simpl; lra.
  - simpl; lra.
  - simpl; lra.
Defined.

(** ** Starting and restarting *)

(** The state [startGame] sets up, for the share [u] it draws. *)
Lemma startGame_eq (cfg : Config) (before : Game.t) (w : World) :
  Game.startGame cfg before w
  = Returns
      ({| Game.keys := Game.keys before;
          Game.state := Game.playing;
          Game.bestScore := Game.bestScore before;
          Game.ship :=
            Ship.new cfg (canvasWidth cfg / 2) (canvasHeight cfg / 2);
          Game.asteroids := [];
          Game.particles := [];
          Game.elapsedTime := 0;
          Game.spawnTimer := 0;
          Game.surgeActive := false;
          Game.surgeTimer := drawn_in (surgeInterval cfg) (current_draw w);
          Game.surgeDurationTimer := 0;
          Game.speedMultiplier := 1;
          Game.shakeTimer := 0;
          Game.shakeX := 0;
          Game.shakeY := 0;
          Game.gameOverReady := false;
          Game.gameOverTimer := 0;
          Game.finalScore := Game.finalScore before;
          Game.topScores := Game.topScores before |},
       after_draw w).
Proof. reflexivity. Qed.

(** X19. [startGame] carries nothing over from the run before but the keys
    held and the scores on display: two games that agree on these start the
    same run, with the ship at the centre of the field, no asteroid, no
    particle, all timers at 0, no surge, and a first surge countdown drawn
    from the configured range. *)
Theorem startGame_resets_the_run (cfg : Config) (before other : Game.t)
  (w : World) :
  fair w ->
  fst (surgeInterval cfg) <= snd (surgeInterval cfg) ->
  Game.keys other = Game.keys before ->
  Game.bestScore other = Game.bestScore before ->
  Game.finalScore other = Game.finalScore before ->
  Game.topScores other = Game.topScores before ->
  Game.startGame cfg other w = Game.startGame cfg before w
  /\ exists this : Game.t,
       Game.startGame cfg before w = Returns (this, after_draw w)
       /\ Game.state this = Game.playing
       /\ Ship.x (Game.ship this) = canvasWidth cfg / 2
       /\ Ship.y (Game.ship this) = canvasHeight cfg / 2
       /\ Game.asteroids this = []
       /\ Game.particles this = []
       /\ Game.elapsedTime this = 0
       /\ Game.spawnTimer this = 0
       /\ Game.surgeActive this = false
       /\ Game.speedMultiplier this = 1
       /\ fst (surgeInterval cfg) <= Game.surgeTimer this
          <= snd (surgeInterval cfg)
       /\ Game.gameOverReady this = false.
Proof.
  intros Hw Hi Hk Hb Hf Ht.
  rewrite !startGame_eq, Hk, Hb, Hf, Ht.
  split; [reflexivity |].
  eexists; split; [reflexivity |]; simpl.
  repeat (split; [reflexivity |]).
  split; [| reflexivity].
  apply drawn_in_range; [exact Hi | apply Hw].
Qed.

Lemma startGame_resets_the_run_witness :
  let before := surging_run CONFIG 1500 in
  let other := fresh_run CONFIG 7000 in
  let w := steady_world 0.5 empty_storage in
  Game.startGame CONFIG other w = Game.startGame CONFIG before w
  /\ exists this : Game.t,
       Game.startGame CONFIG before w = Returns (this, after_draw w)
       /\ Game.state this = Game.playing
       /\ Ship.x (Game.ship this) = canvasWidth CONFIG / 2
       /\ Ship.y (Game.ship this) = canvasHeight CONFIG / 2
       /\ Game.asteroids this = []
       /\ Game.particles this = []
       /\ Game.elapsedTime this = 0
       /\ Game.spawnTimer this = 0
       /\ Game.surgeActive this = false
       /\ Game.speedMultiplier this = 1
       /\ fst (surgeInterval CONFIG) <= Game.surgeTimer this
          <= snd (surgeInterval CONFIG)
       /\ Game.gameOverReady this = false.
Proof.
  intros before other w.
  apply (startGame_resets_the_run CONFIG before other w);
    try reflexivity.
  - apply steady_world_fair; lra.
  - simpl; lra.
Defined.

(** ** Keys *)

Lemma showTitle_eq (this : Game.t) (w : World) (best : R) :
  ScoreManager.getBest (localStorage w) = Returns best ->
  Game.showTitle this w
  = Returns (Game.set_bestScore best (Game.set_state Game.title this), w).
Proof.
  intros Hbest; unfold Game.showTitle, bind, Game.read_storage; cbv zeta.
  rewrite Hbest; reflexivity.
Qed.

(** X20. A key press marks that key, and no other, as held, and drives the
    game through its three states: Enter or the space bar starts a run from
    the title, and leads from game over back to the title once the game is
    ready for it; any other press, and any press during play or before the
    game is ready, changes nothing but the key.  No single press leads from
    game over into a run, and the store is never written.  Releasing the key
    marks it as not held. *)
Theorem keydown_drives_the_state_machine (cfg : Config) (key : string)
  (this : Game.t) (w : World) :
  fair w -> loadable (localStorage w) ->
  exists (after : Game.t) (w' : World),
    Game.keydown cfg key this w = Returns (after, w')
    /\ localStorage w' = localStorage w
    /\ Game.keys after key = true
    /\ (forall k : string, k <> key -> Game.keys after k = Game.keys this k)
    /\ Game.state after
       = match Game.state this with
         | Game.title =>
             if Game.is_start_key key then Game.playing else Game.title
         | Game.playing => Game.playing
         | Game.gameover =>
             if Game.gameOverReady this && Game.is_start_key key
             then Game.title else Game.gameover
         end
    /\ (Game.state after = Game.state this ->
        after = Game.set_key key true this)
    /\ Game.keys (Game.keyup key after) key = false
    /\ (forall k : string,
          k <> key -> Game.keys (Game.keyup key after) k = Game.keys this k).
Proof.
  intros Hw Hl.
  assert (Hheld : Game.keys (Game.set_key key true this) key = true).
  { simpl; rewrite String.eqb_refl; reflexivity. }
  assert (Hothers : forall k, k <> key ->
                      Game.keys (Game.set_key key true this) k
                      = Game.keys this k).
  { intros k Hk; simpl; apply String.eqb_neq in Hk; rewrite Hk; reflexivity. }
  assert (Hup : forall after k,
             Game.keys (Game.keyup key after) k
             = if String.eqb k key then false else Game.keys after k)
    by reflexivity.
  destruct (loadable_as_array _ Hl) as [l Hload].
  assert (Hbest : exists best,
             ScoreManager.getBest (localStorage w) = Returns best).
  { unfold ScoreManager.getBest, ScoreManager.getScores; rewrite Hload.
    eexists; reflexivity. }
  destruct Hbest as [best Hbest].
  unfold Game.keydown; cbv zeta; unfold bind.
  destruct (Game.state this) eqn:Hstate;
    cbn [Game.state Game.set_key]; rewrite Hstate.
  - destruct (Game.is_start_key key) eqn:Hkey.
    + rewrite startGame_eq; cbn [Game.state].
      eexists; eexists; split; [reflexivity |].
      cbn [Game.keys Game.set_key Game.keyup localStorage after_draw].
      rewrite String.eqb_refl.
      split; [reflexivity |].
      split; [reflexivity |].
      split; [intros k Hk; apply String.eqb_neq in Hk; rewrite Hk; reflexivity |].
      split; [reflexivity |].
      split; [discriminate |].
      split; [reflexivity |].
      intros k Hk; apply String.eqb_neq in Hk; rewrite Hk; reflexivity.
    + unfold ret; cbn [Game.state Game.set_key]; rewrite Hstate.
      eexists; eexists; split; [reflexivity |].
      split; [reflexivity |].
      split; [exact Hheld |].
      split; [exact Hothers |].
      split; [exact Hstate |].
      split; [reflexivity |].
      rewrite !Hup, String.eqb_refl; split; [reflexivity |].
      intros k Hk; rewrite Hup.
      pose proof Hk as Hk'; apply String.eqb_neq in Hk'; rewrite Hk'.
      apply Hothers; exact Hk.
  - unfold ret; cbn [Game.state Game.set_key]; rewrite Hstate.
    eexists; eexists; split; [reflexivity |].
    split; [reflexivity |].
    split; [exact Hheld |].
    split; [exact Hothers |].
    split; [exact Hstate |].
    split; [reflexivity |].
    rewrite !Hup, String.eqb_refl; split; [reflexivity |].
    intros k Hk; rewrite Hup.
    pose proof Hk as Hk'; apply String.eqb_neq in Hk'; rewrite Hk'.
    apply Hothers; exact Hk.
  - unfold ret; cbn [Game.state Game.set_key Game.gameOverReady]; rewrite Hstate.
    destruct (Game.gameOverReady this && Game.is_start_key key) eqn:Hgo.
    + rewrite (showTitle_eq _ w best Hbest).
      eexists; eexists; split; [reflexivity |].
      cbn [Game.keys Game.set_key Game.keyup Game.set_bestScore Game.set_state
             Game.state].
      rewrite String.eqb_refl.
      split; [reflexivity |].
      split; [reflexivity |].
      split; [intros k Hk; apply String.eqb_neq in Hk; rewrite Hk; reflexivity |].
      split; [reflexivity |].
      split; [discriminate |].
      split; [reflexivity |].
      intros k Hk; apply String.eqb_neq in Hk; rewrite Hk; reflexivity.
    + eexists; eexists; split; [reflexivity |].
      split; [reflexivity |].
      split; [exact Hheld |].
      split; [exact Hothers |].
      split; [exact Hstate |].
      split; [reflexivity |].
      rewrite !Hup, String.eqb_refl; split; [reflexivity |].
      intros k Hk; rewrite Hup.
      pose proof Hk as Hk'; apply String.eqb_neq in Hk'; rewrite Hk'.
      apply Hothers; exact Hk.
Qed.

Lemma keydown_drives_the_state_machine_witness :
  let this :=
    Game.set_gameOverReady true
      (Game.set_state Game.gameover (fresh_run CONFIG 5000)) in
  let w := steady_world 0.5 (holding [10; 5]) in
  exists (after : Game.t) (w' : World),
    Game.keydown CONFIG "Enter" this w = Returns (after, w')
    /\ localStorage w' = localStorage w
    /\ Game.keys after "Enter" = true
    /\ (forall k : string, k <> "Enter" -> Game.keys after k = Game.keys this k)
    /\ Game.state after
       = match Game.state this with
         | Game.title =>
             if Game.is_start_key "Enter" then Game.playing else Game.title
         | Game.playing => Game.playing
         | Game.gameover =>
             if Game.gameOverReady this && Game.is_start_key "Enter"
             then Game.title else Game.gameover
         end
    /\ (Game.state after = Game.state this ->
        after = Game.set_key "Enter" true this)
    /\ Game.keys (Game.keyup "Enter" after) "Enter" = false
    /\ (forall k : string,
          k <> "Enter" ->
          Game.keys (Game.keyup "Enter" after) k = Game.keys this k).
Proof.
  intros this w.
  apply (keydown_drives_the_state_machine CONFIG "Enter" this w).
  - apply steady_world_fair; lra.
  - exists [10; 5]; reflexivity.
Defined.

(** ** Frames *)

(** X21. The elapsed time the loop hands to [update] is the time since the
    frame before, in seconds, cut at 0.05: it is never above 0.05, it is not
    negative as long as time stamps do not go back (and negative, unchecked,
    when they do), so that a ship inside the field moves by at most
    [shipSpeed * 0.05] in a frame however long the frame took. *)
Theorem frame_time_is_capped (cfg : Config) (timestamp lastTime : R)
  (keys : string -> bool) (ship0 : Ship.t) :
  Game.loop_dt timestamp lastTime <= 0.05
  /\ (timestamp - lastTime <= 50 ->
      Game.loop_dt timestamp lastTime = (timestamp - lastTime) / 1000)
  /\ (50 <= timestamp - lastTime -> Game.loop_dt timestamp lastTime = 0.05)
  /\ (lastTime <= timestamp -> 0 <= Game.loop_dt timestamp lastTime)
  /\ (timestamp < lastTime -> Game.loop_dt timestamp lastTime < 0)
  /\ (lastTime <= timestamp -> 0 <= shipSpeed cfg ->
      Ship.size ship0 <= Ship.x ship0 <= canvasWidth cfg - Ship.size ship0 ->
      Ship.size ship0 <= Ship.y ship0 <= canvasHeight cfg - Ship.size ship0 ->
      travelled cfg (Game.loop_dt timestamp lastTime) keys ship0
      <= shipSpeed cfg * 0.05).
Proof.
  unfold Game.loop_dt.
  assert (Hcap : Rmin ((timestamp - lastTime) / 1000) 0.05 <= 0.05)
    by apply Rmin_r.
  assert (Hshort : timestamp - lastTime <= 50 ->
                   Rmin ((timestamp - lastTime) / 1000) 0.05
                   = (timestamp - lastTime) / 1000)
    by (intros H; apply Rmin_left; lra).
  assert (Hlong : 50 <= timestamp - lastTime ->
                  Rmin ((timestamp - lastTime) / 1000) 0.05 = 0.05)
    by (intros H; apply Rmin_right; lra).
  assert (Hpos : lastTime <= timestamp ->
                 0 <= Rmin ((timestamp - lastTime) / 1000) 0.05)
    by (intros H; apply Rmin_glb; lra).
  split; [exact Hcap |].
  split; [exact Hshort |].
  split; [exact Hlong |].
  split; [exact Hpos |].
  split; [intros H; rewrite Hshort; lra |].
  intros Ht Hs Hx Hy.
  apply Rle_trans
    with (shipSpeed cfg * Rmin ((timestamp - lastTime) / 1000) 0.05).
  - apply travelled_bound; auto.
  - apply Rmult_le_compat_l; assumption.
Qed.

Lemma frame_time_is_capped_witness :
  let keys := fun k : string => String.eqb k "ArrowRight" in
  Game.loop_dt 2000 1000 = 0.05
  /\ Game.loop_dt 1016 1000 = (1016 - 1000) / 1000
  /\ Game.loop_dt 1000 1016 < 0
  /\ travelled CONFIG (Game.loop_dt 2000 1000) keys (Ship.new CONFIG 300 300)
     <= shipSpeed CONFIG * 0.05.
Proof.
  intros keys.
  destruct (frame_time_is_capped CONFIG 2000 1000 keys (Ship.new CONFIG 300 300))
    as (_ & _ & Hlong & _ & _ & Hship).
  destruct (frame_time_is_capped CONFIG 1016 1000 keys (Ship.new CONFIG 300 300))
    as (_ & Hshort & _).
  destruct (frame_time_is_capped CONFIG 1000 1016 keys (Ship.new CONFIG 300 300))
    as (_ & _ & _ & _ & Hback & _).
  split; [apply Hlong; lra |].
  split; [apply Hshort; lra |].
  split; [apply Hback; lra |].
  apply Hship; simpl; lra.
Defined.

(** What a frame of play leaves of the time, the spawn timer and the
    score. *)
Lemma frame_accounts (cfg : Config) (dt : R) (this after : Game.t) :
  Game.state this = Game.playing ->
  frame cfg dt this after ->
  Game.elapsedTime after = Game.elapsedTime this + dt
  /\ ((asteroidSpawnInterval cfg <= Game.spawnTimer this + dt * 1000
       /\ Game.spawnTimer after
          = Game.spawnTimer this + dt * 1000 - asteroidSpawnInterval cfg)
      \/ (Game.spawnTimer this + dt * 1000 < asteroidSpawnInterval cfg
          /\ Game.spawnTimer after = Game.spawnTimer this + dt * 1000))
  /\ ((Game.state after = Game.playing
       /\ Game.finalScore after = Game.finalScore this)
      \/ (Game.state after = Game.gameover
          /\ Game.finalScore after = Some (Game.elapsedTime after))).
Proof.
  intros Hplaying (surged & spawned & Hsurge & Hspawn & Hend).
  destruct (surge_step_keeps _ _ _ _ Hsurge) as (Hs1 & _ & _ & Ht1 & He1).
  destruct (spawn_step_keeps _ _ _ _ Hspawn) as (Hs2 & _ & He2 & _).
  assert (Hf2 : Game.finalScore spawned = Game.finalScore this).
  { destruct Hspawn; destruct Hsurge; reflexivity. }
  simpl in Hs1, Ht1, He1.
  assert (Htimer :
            (asteroidSpawnInterval cfg <= Game.spawnTimer this + dt * 1000
             /\ Game.spawnTimer spawned
                = Game.spawnTimer this + dt * 1000 - asteroidSpawnInterval cfg)
            \/ (Game.spawnTimer this + dt * 1000 < asteroidSpawnInterval cfg
                /\ Game.spawnTimer spawned = Game.spawnTimer this + dt * 1000)).
  { destruct Hspawn as [batch Hle Hlen | Hlt]; simpl; rewrite Ht1 in *;
      [left | right]; auto. }
  cbv zeta in Hend; destruct (Game.collision _ _).
  - destruct Hend as (Hstate & Hfinal & Hel & _ & _ & Hsp & _).
    simpl in Hfinal, Hel, Hsp.
    rewrite Hel, He2, He1, Hsp.
    split; [reflexivity |].
    split; [exact Htimer |].
    right; split; [exact Hstate |].
    rewrite Hfinal, He2, He1; reflexivity.
  - subst after; simpl.
    rewrite He2, He1.
    split; [reflexivity |].
    split; [exact Htimer |].
    left; rewrite Hs2, Hs1; auto.
Qed.

Lemma frames_play (cfg : Config) (dts : list R) (this : Game.t) :
  Game.state this = Game.playing ->
  completes (Game.frames cfg dts this)
    (fun after => exists n : nat, played cfg this dts after n).
Proof.
  revert this; induction dts as [| dt dts IH]; intros this Hplaying.
  - apply completes_ret; exists 0%nat; unfold played; simpl.
    split; [lia |].
    split; [ring |].
    split; [left; auto |].
    intros Hs _; exists 0%nat; simpl; split; [ring | exact Hs].
  - cbn [Game.frames]; unfold Game.update; rewrite Hplaying.
    eapply completes_bind; [apply updatePlaying_completes |].
    intros mid Hframe.
    destruct (frame_accounts cfg dt this mid Hplaying Hframe)
      as (Hel & Htimer & Hstate).
    assert (Hcadence :
              0 <= Game.spawnTimer this < asteroidSpawnInterval cfg ->
              0 <= dt /\ dt * 1000 <= asteroidSpawnInterval cfg ->
              exists k : nat,
                Game.spawnTimer mid
                = Game.spawnTimer this + dt * 1000
                  - INR k * asteroidSpawnInterval cfg
                /\ 0 <= Game.spawnTimer mid < asteroidSpawnInterval cfg).
    { intros Hs Hdt.
      destruct Htimer as [[Hle E] | [Hlt E]]; rewrite E.
      - exists 1%nat; simpl; split; [ring | lra].
      - exists 0%nat; simpl; split; [ring | lra]. }
    destruct Hstate as [[Hmid Hfinal] | [Hmid Hfinal]].
    + eapply completes_weaken; [apply (IH mid Hmid) |].
      intros after (n & Hn & Hel' & Hstate' & Hcad').
      exists (S n); unfold played; cbn [firstn total_s total_ms fold_right
                                          List.length].
      split; [lia |].
      split; [rewrite Hel', Hel; unfold total_s; ring |].
      split.
      { destruct Hstate' as [(Hs & Hall & Hf) | (Hs & Hpos & Hf)].
        - left; split; [exact Hs |]; split; [lia | congruence].
        - right; split; [exact Hs |]; split; [lia | exact Hf]. }
      intros Hs Hdts; apply Forall_cons_iff in Hdts.
      destruct Hdts as [Hdt Hdts].
      destruct (Hcadence Hs Hdt) as (k1 & Ek1 & Hr1).
      destruct (Hcad' Hr1 Hdts) as (k2 & Ek2 & Hr2).
      exists (k1 + k2)%nat; split; [| exact Hr2].
      rewrite Ek2, Ek1, plus_INR; unfold total_ms; ring.
    + eapply completes_weaken.
      { apply draws_only_completes, (frames_gameover cfg dts mid Hmid). }
      intros after (Hs & _ & _ & _ & _ & _ & Hel' & _ & Hf & _ & Hsp & _).
      exists 1%nat; unfold played; cbn [firstn total_s total_ms fold_right
                                          List.length].
      split; [lia |].
      split; [rewrite Hel', Hel; ring |].
      split.
      { right; split; [exact Hs |]; split; [lia |].
        rewrite Hf, Hfinal, Hel'; reflexivity. }
      intros Hs0 Hdts; apply Forall_cons_iff in Hdts.
      destruct Hdts as [Hdt _].
      destruct (Hcadence Hs0 Hdt) as (k1 & Ek1 & Hr1).
      exists k1; rewrite Hsp; split; [rewrite Ek1; ring | exact Hr1].
Qed.

(** X22. The score is the time played: frame after frame of a run, the
    elapsed time grows by each [dt]; as long as the run is on it is the sum
    over all frames, and when the run has ended it is the sum over the
    frames up to and including the one of the collision, it no longer
    changes, and it is the final score. *)
Theorem score_is_time_played (cfg : Config) (dts : list R) (this : Game.t)
  (w : World) :
  fair w -> loadable (localStorage w) ->
  Game.state this = Game.playing ->
  exists (after : Game.t) (w' : World) (n : nat),
    Game.frames cfg dts this w = Returns (after, w')
    /\ (n <= List.length dts)%nat
    /\ Game.elapsedTime after
       = Game.elapsedTime this + total_s (firstn n dts)
    /\ (Game.state after = Game.playing \/ Game.state after = Game.gameover)
    /\ (Game.state after = Game.playing -> n = List.length dts)
    /\ (Game.state after = Game.gameover ->
        (0 < n)%nat /\ Game.finalScore after = Some (Game.elapsedTime after)).
Proof.
  intros Hw Hl Hplaying.
  destruct (frames_play cfg dts this Hplaying w Hw Hl)
    as (after & w' & Hrun & (n & Hn & Hel & Hstate & _) & _).
  exists after, w', n.
  split; [exact Hrun |].
  split; [exact Hn |].
  split; [exact Hel |].
  destruct Hstate as [(Hs & Hall & _) | (Hs & Hpos & Hf)]; rewrite Hs.
  - split; [left; reflexivity |].
    split; [intros _; exact Hall | discriminate].
  - split; [right; reflexivity |].
    split; [discriminate | intros _; auto].
Qed.

Lemma score_is_time_played_witness :
  let this := fresh_run CONFIG 5000 in
  let w := steady_world 0.5 empty_storage in
  let dts := [0.05; 0.016; 0.05] in
  exists (after : Game.t) (w' : World) (n : nat),
    Game.frames CONFIG dts this w = Returns (after, w')
    /\ (n <= List.length dts)%nat
    /\ Game.elapsedTime after
       = Game.elapsedTime this + total_s (firstn n dts)
    /\ (Game.state after = Game.playing \/ Game.state after = Game.gameover)
    /\ (Game.state after = Game.playing -> n = List.length dts)
    /\ (Game.state after = Game.gameover ->
        (0 < n)%nat /\ Game.finalScore after = Some (Game.elapsedTime after)).
Proof.
  intros this w dts.
  apply (score_is_time_played CONFIG dts this w).
  - apply steady_world_fair; lra.
  - apply empty_storage_loadable.
  - reflexivity.
Defined.

(** X23. The spawn timer keeps no more and no less than the time not yet
    spent on batches: when every frame is non-negative and no longer than the
    spawn interval and the timer starts within [[0, interval)], after the
    frames played it is the time played, in milliseconds, minus a whole
    number of intervals, and it is back within [[0, interval)]. *)
Theorem spawn_timer_is_time_modulo_interval (cfg : Config) (dts : list R)
  (this : Game.t) (w : World) :
  fair w -> loadable (localStorage w) ->
  Game.state this = Game.playing ->
  0 <= Game.spawnTimer this < asteroidSpawnInterval cfg ->
  Forall (fun dt => 0 <= dt /\ dt * 1000 <= asteroidSpawnInterval cfg) dts ->
  exists (after : Game.t) (w' : World) (n k : nat),
    Game.frames cfg dts this w = Returns (after, w')
    /\ (n <= List.length dts)%nat
    /\ (Game.state after = Game.playing -> n = List.length dts)
    /\ Game.spawnTimer after
       = Game.spawnTimer this + total_ms (firstn n dts)
         - INR k * asteroidSpawnInterval cfg
    /\ 0 <= Game.spawnTimer after < asteroidSpawnInterval cfg.
Proof.
  intros Hw Hl Hplaying Hs Hdts.
  destruct (frames_play cfg dts this Hplaying w Hw Hl)
    as (after & w' & Hrun & (n & Hn & _ & Hstate & Hcad) & _).
  destruct (Hcad Hs Hdts) as (k & Ek & Hr).
  exists after, w', n, k.
  split; [exact Hrun |].
  split; [exact Hn |].
  split.
  { destruct Hstate as [(_ & Hall & _) | (Hover & _)];
      [intros _; exact Hall | rewrite Hover; discriminate]. }
  split; [exact Ek | exact Hr].
Qed.

Lemma spawn_timer_is_time_modulo_interval_witness :
  let this := fresh_run CONFIG 5000 in
  let w := steady_world 0.5 empty_storage in
  let dts := repeat 0.05 9 in
  exists (after : Game.t) (w' : World) (n k : nat),
    Game.frames CONFIG dts this w = Returns (after, w')
    /\ (n <= List.length dts)%nat
    /\ (Game.state after = Game.playing -> n = List.length dts)
    /\ Game.spawnTimer after
       = Game.spawnTimer this + total_ms (firstn n dts)
         - INR k * asteroidSpawnInterval CONFIG
    /\ 0 <= Game.spawnTimer after < asteroidSpawnInterval CONFIG.
Proof.
  intros this w dts.
  apply (spawn_timer_is_time_modulo_interval CONFIG dts this w).
  - apply steady_world_fair; lra.
  - apply empty_storage_loadable.
  - reflexivity.
  - simpl; lra.
  - unfold dts; simpl; repeat constructor; simpl; lra.
Defined.

(** ** Order of the blocks of a frame *)



(** ** Collision check over all asteroids *)

(** X25. The collision loop reports a collision exactly when some asteroid
    of the list is closer to the ship than 0.8 times the sum of the radii; so
    it reports none for no asteroid, the order of the asteroids does not
    matter, and a list put together from two collides when one of the two
    does. *)
Theorem collision_is_any_hit (ship0 : Ship.t) (asteroids0 more : list Asteroid.t) :
  (Game.collision ship0 asteroids0 = true
   <-> exists a : Asteroid.t,
         In a asteroids0
         /\ dist (Ship.x ship0) (Ship.y ship0) (Asteroid.x a) (Asteroid.y a)
            < 0.8 * (Ship.size ship0 + Asteroid.size a))
  /\ Game.collision ship0 [] = false
  /\ Game.collision ship0 (asteroids0 ++ more)
     = Game.collision ship0 asteroids0 || Game.collision ship0 more
  /\ (Permutation asteroids0 more ->
      Game.collision ship0 asteroids0 = Game.collision ship0 more).
Proof.
  assert (Hany : forall l,
             Game.collision ship0 l = true
             <-> exists a : Asteroid.t,
                   In a l
                   /\ dist (Ship.x ship0) (Ship.y ship0) (Asteroid.x a)
                        (Asteroid.y a)
                      < 0.8 * (Ship.size ship0 + Asteroid.size a)).
  { intros l; rewrite collision_iff; split;
      intros (a & Hin & Hhit); exists a; split; auto;
      apply hits_iff; exact Hhit. }
  split; [apply Hany |].
  split; [reflexivity |].
  split.
  - induction asteroids0 as [| a rest IH]; simpl; [reflexivity |].
    destruct (Game.hits ship0 a); [reflexivity | exact IH].
  - intros Hperm; apply eq_true_iff_eq; rewrite !Hany.
    split; intros (a & Hin & Hhit); exists a; split; auto.
    + apply (Permutation_in _ Hperm); exact Hin.
    + apply (Permutation_in _ (Permutation_sym Hperm)); exact Hin.
Qed.

Lemma collision_is_any_hit_witness :
  let ship0 := Ship.new CONFIG 300 300 in
  let near := resting_asteroid 305 300 6 in
  let far := resting_asteroid 500 300 6 in
  Game.collision ship0 [far; near] = Game.collision ship0 [near; far].
Proof.
  intros ship0 near far.
  apply (collision_is_any_hit ship0 [far; near] [near; far]).
  apply perm_swap.
Defined.

(** ** Asteroids leave *)

Lemma replay_position (history : list (R * R)) (this : Asteroid.t) :
  Asteroid.size (replay history this) = Asteroid.size this
  /\ Asteroid.x (replay history this)
     = Asteroid.x this + Asteroid.baseVx this * weighted_time history
  /\ Asteroid.y (replay history this)
     = Asteroid.y this + Asteroid.baseVy this * weighted_time history.
Proof.
  unfold replay; revert this.
  induction history as [| step history IH]; intros this; simpl.
  - repeat split; ring.
  - destruct (IH (Asteroid.update (fst step) (snd step) this))
      as (Hs & Hx & Hy).
    rewrite Hs, Hx, Hy; simpl; repeat split; ring.
Qed.

(** X26. No asteroid stays for ever: an asteroid lies at its starting point
    plus its base velocity times the time passed, each frame weighted by its
    multiplier; so one that was on screen is off screen, and then culled, as
    soon as that time is long enough for either component of the base
    velocity to carry it across the field and both culling margins. *)
Theorem asteroid_leaves_the_screen (cfg : Config) (this : Asteroid.t)
  (history : list (R * R)) :
  let margin := Asteroid.size this + 60 in
  Asteroid.isOffScreen cfg this = false ->
  canvasWidth cfg + 2 * margin
    < Rabs (Asteroid.baseVx this) * weighted_time history
  \/ canvasHeight cfg + 2 * margin
     < Rabs (Asteroid.baseVy this) * weighted_time history ->
  Asteroid.x (replay history this)
    = Asteroid.x this + Asteroid.baseVx this * weighted_time history
  /\ Asteroid.y (replay history this)
     = Asteroid.y this + Asteroid.baseVy this * weighted_time history
  /\ Asteroid.isOffScreen cfg (replay history this) = true.
Proof.
  intros margin Hon Hfar.
  destruct (replay_position history this) as (Hs & Hx & Hy).
  split; [exact Hx |]; split; [exact Hy |].
  unfold Asteroid.isOffScreen, gtb in *; cbv zeta in *.
  rewrite Hs, Hx, Hy.
  repeat rewrite orb_false_iff in Hon; repeat rewrite ltb_false in Hon.
  destruct Hon as [[[Hx1 Hx2] Hy1] Hy2].
  repeat rewrite orb_true_iff; repeat rewrite ltb_true.
  fold margin in Hx1, Hx2, Hy1, Hy2 |- *.
  set (t := weighted_time history) in *.
  destruct Hfar as [Hfar | Hfar]; unfold Rabs in Hfar;
    destruct (Rcase_abs _) in Hfar.
  - left; left; left; nra.
  - left; left; right; nra.
  - left; right; nra.
  - right; nra.
Qed.

Lemma asteroid_leaves_the_screen_witness :
  let this :=
    {| Asteroid.size := 10; Asteroid.rotation := 0;
       Asteroid.rotationSpeed := 1; Asteroid.vertices := [];
       Asteroid.x := 300; Asteroid.y := -15;
       Asteroid.baseVx := 0; Asteroid.baseVy := 100;
       Asteroid.vx := 0; Asteroid.vy := 100 |} in
  let history := [(4, 1); (3, 1.5)] in
  Asteroid.x (replay history this)
    = Asteroid.x this + Asteroid.baseVx this * weighted_time history
  /\ Asteroid.y (replay history this)
     = Asteroid.y this + Asteroid.baseVy this * weighted_time history
  /\ Asteroid.isOffScreen CONFIG (replay history this) = true.
Proof.
  intros this history.
  apply (asteroid_leaves_the_screen CONFIG this history).
  - unfold Asteroid.isOffScreen, gtb; simpl.
    repeat rewrite orb_false_iff; repeat rewrite ltb_false; lra.
  - right; simpl; rewrite Rabs_right; lra.
Defined.
